(** * charconv-ext: text conversion of 128-bit integers

    A shallow embedding of [include/charconv_ext/charconv_ext.hpp]:
    [to_chars] and [from_chars] for [uint128_t], [int128_t] and the
    bit-precise integers, with the radix tables of namespace [detail].

    Conventions of the embedding.
    - Integers of every width are [Z]; conversions to a fixed width are
      written out with [wrap] (unsigned) and [swrap] (two's complement).
    - A [const char*] span [[first, last)] that is only read is the
      [list ascii] of its characters; a pointer into it is its distance
      from [first].
    - The output buffer of [to_chars] lives in a memory [mem], a map from
      addresses to characters, which extends on both sides of
      [[first, last)]: a store past [last] is a store like any other and
      shows in the resulting memory.
    - A [while (true)] loop is a [Fixpoint] on a fuel argument that
      returns [None] when the fuel runs out; the theorems show a result
      [Some _]. *)

From Stdlib Require Import ZArith List Ascii String Lia Bool.
Import ListNotations.
Open Scope Z_scope.

(** ** Integer types *)

(** Conversion to an unsigned integer type of [w] bits. *)
Definition wrap (w x : Z) : Z := x mod 2 ^ w.

(** Conversion to a signed (two's complement) integer type of [w] bits. *)
Definition swrap (w x : Z) : Z := (x + 2 ^ (w - 1)) mod 2 ^ w - 2 ^ (w - 1).

(** ** [std::errc] *)

Inductive errc : Type :=
| errc_none            (* std::errc {} *)
| invalid_argument
| result_out_of_range
| value_too_large.

Definition errc_eqb (a b : errc) : bool :=
  match a, b with
  | errc_none, errc_none
  | invalid_argument, invalid_argument
  | result_out_of_range, result_out_of_range
  | value_too_large, value_too_large => true
  | _, _ => false
  end.

(** [std::from_chars_result] paired with the value of the output
    parameter after the call: [(ptr, ec, out)]. *)
Definition from_chars_result : Type := Z * errc * Z.

(** ** Memory *)

Definition mem : Type := Z -> ascii.

Definition store (m : mem) (p : Z) (c : ascii) : mem :=
  fun q => if q =? p then c else m q.

Fixpoint store_list (m : mem) (p : Z) (l : list ascii) : mem :=
  match l with
  | [] => m
  | c :: l' => store_list (store m p c) (p + 1) l'
  end.

Definition load_list (m : mem) (p : Z) (n : nat) : list ascii :=
  map (fun i => m (p + Z.of_nat i)) (seq 0 n).

(** [std::to_chars_result] paired with the memory after the call:
    [(ptr, ec, m)]. *)
Definition to_chars_result : Type := Z * errc * mem.

(** ** Characters *)

Definition char_code (c : ascii) : Z := Z.of_N (N_of_ascii c).
Definition char_of_code (n : Z) : ascii := ascii_of_N (Z.to_N n).

Definition chars (s : string) : list ascii := list_ascii_of_string s.

Definition len {A} (l : list A) : Z := Z.of_nat (List.length l).

(** The characters of [[a, b)] of a span. *)
Definition subspan (s : list ascii) (a b : Z) : list ascii :=
  firstn (Z.to_nat (b - a)) (skipn (Z.to_nat a) s).

(** ** Namespace [detail] *)

Module detail.

(** The loop of [u64_max_representable_digits_naive]; [x] is an
    [int128_t] that stays below [2^70]. *)
Fixpoint naive_loop (fuel : nat) (base x result : Z) : option Z :=
  match fuel with
  | O => None
  | S fuel' =>
      if x <=? 2 ^ 64 then
        let x' := x * base in
        let result' := result + 1 in
        if x' =? 0 then Some result' else naive_loop fuel' base x' result'
      else Some result
  end.

Definition u64_max_representable_digits_naive (base : Z) : option Z :=
  option_map (fun result => result - 1) (naive_loop 128 base 1 0).

(** [std::array<signed char, 37>], zero-initialised, entries 2..36 set. *)
Definition u64_max_representable_digits_table : list Z :=
  map (fun i =>
         let i := Z.of_nat i in
         if i <? 2 then 0
         else match u64_max_representable_digits_naive i with
              | Some d => swrap 8 d
              | None => 0
              end)
      (seq 0 37).

Definition u64_max_representable_digits (base : Z) : Z :=
  nth (Z.to_nat base) u64_max_representable_digits_table 0.

Fixpoint u64_pow_naive_loop (n : nat) (x result : Z) : Z :=
  match n with
  | O => result
  | S n' => u64_pow_naive_loop n' x (wrap 64 (result * x))
  end.

Definition u64_pow_naive (x y : Z) : Z := u64_pow_naive_loop (Z.to_nat y) x 1.

Definition u64_max_power_table : list Z :=
  map (fun i =>
         let i := Z.of_nat i in
         if i <? 2 then 0
         else u64_pow_naive i (u64_max_representable_digits i))
      (seq 0 37).

Definition u64_max_power (base : Z) : Z :=
  nth (Z.to_nat base) u64_max_power_table 0.

(** [__builtin_add_overflow] and [__builtin_mul_overflow] on
    [uint128_t]: the wrapped result and the overflow flag. *)
Definition add_overflow (x y : Z) : Z * bool :=
  (wrap 128 (x + y), 2 ^ 128 <=? x + y).

Definition mul_overflow (x y : Z) : Z * bool :=
  (wrap 128 (x * y), 2 ^ 128 <=? x * y).

Definition digit_value (c : ascii) : Z :=
  let n := char_code c in
  if (48 <=? n) && (n <=? 57) then n - 48
  else if (65 <=? n) && (n <=? 90) then n - 65 + 10
  else if (97 <=? n) && (n <=? 122) then n - 97 + 10
  else -1.

(** [pattern_length (first, last, base)]: the index at which the scan
    of the span stops. *)
Fixpoint pattern_length (s : list ascii) (base : Z) : nat :=
  match s with
  | [] => O
  | c :: s' =>
      let value := digit_value c in
      if (value <? 0) || (value >=? base) then O
      else S (pattern_length s' base)
  end.

End detail.

(** ** The standard library

    The functions of [<charconv>] and [<bit>] that the header calls, as
    the C++ standard specifies them. *)

Module std.

Fixpoint ctz_pos (p : positive) : Z :=
  match p with
  | xO p' => 1 + ctz_pos p'
  | _ => 0
  end.

(** [std::countr_zero] and [std::countl_zero] on [std::uint64_t]. *)
Definition countr_zero (x : Z) : Z :=
  match x with
  | Zpos p => ctz_pos p
  | _ => 64
  end.

Definition countl_zero (x : Z) : Z :=
  if x =? 0 then 64 else 63 - Z.log2 x.

(** The value of a digit string, most significant digit first. *)
Definition digits_value (base : Z) (s : list ascii) : Z :=
  fold_left (fun acc c => acc * base + detail.digit_value c) s 0.

(** [std::from_chars] for an unsigned type of [w] bits: the pattern is
    the longest run of digits of the base; no run is
    [invalid_argument] with [ptr == first]; a run whose value does not
    fit is [result_out_of_range] with [ptr] at the end of the run; the
    value is stored on success only. *)
Definition from_chars_unsigned (w : Z) (s : list ascii) (value base : Z)
  : from_chars_result :=
  let n := detail.pattern_length s base in
  match n with
  | O => (0, invalid_argument, value)
  | _ =>
      let v := digits_value base (firstn n s) in
      if v <? 2 ^ w then (Z.of_nat n, errc_none, v)
      else (Z.of_nat n, result_out_of_range, value)
  end.

(** [std::from_chars] for a signed type of [w] bits: as above, with an
    optional minus sign before the digits. *)
Definition from_chars_signed (w : Z) (s : list ascii) (value base : Z)
  : from_chars_result :=
  match s with
  | "-"%char :: s' =>
      let n := detail.pattern_length s' base in
      match n with
      | O => (0, invalid_argument, value)
      | _ =>
          let v := - digits_value base (firstn n s') in
          if - 2 ^ (w - 1) <=? v then (Z.of_nat n + 1, errc_none, v)
          else (Z.of_nat n + 1, result_out_of_range, value)
      end
  | _ =>
      let n := detail.pattern_length s base in
      match n with
      | O => (0, invalid_argument, value)
      | _ =>
          let v := digits_value base (firstn n s) in
          if v <? 2 ^ (w - 1) then (Z.of_nat n, errc_none, v)
          else (Z.of_nat n, result_out_of_range, value)
      end
  end.

(** Digits on output: [0-9a-z]. *)
Definition digit_char (d : Z) : ascii :=
  if d <? 10 then char_of_code (48 + d) else char_of_code (97 + (d - 10)).

Fixpoint to_digits (fuel : nat) (base n : Z) (acc : list ascii) : list ascii :=
  match fuel with
  | O => acc
  | S fuel' =>
      let acc' := digit_char (n mod base) :: acc in
      if n / base =? 0 then acc' else to_digits fuel' base (n / base) acc'
  end.

(** The shortest digit string of a value of at most 64 bits. *)
Definition digits (base n : Z) : list ascii := to_digits 64 base n [].

(** [std::to_chars] for [std::uint64_t]: the digits without leading
    zeros; when they do not fit, [{last, value_too_large}] (the
    contents of the buffer are then unspecified: the model leaves them
    as they were). *)
Definition to_chars_unsigned (m : mem) (first last value base : Z)
  : to_chars_result :=
  let ds := digits base value in
  if last - first <? len ds then (last, value_too_large, m)
  else (first + len ds, errc_none, store_list m first ds).

(** [std::to_chars] for [std::int64_t]. *)
Definition to_chars_signed (m : mem) (first last value base : Z)
  : to_chars_result :=
  let ds := if value <? 0 then "-"%char :: digits base (- value)
            else digits base value in
  if last - first <? len ds then (last, value_too_large, m)
  else (first + len ds, errc_none, store_list m first ds).

(** The shortest digit string of a value of at most [w] bits, which has
    at most [w] digits. *)
Definition digits_w (w : Z) (base n : Z) : list ascii :=
  to_digits (Z.to_nat w) base n [].

(** [std::to_chars] for an unsigned and for a signed integer type of
    [w] bits, as above. *)
Definition to_chars_unsigned_w (w : Z) (m : mem) (first last value base : Z)
  : to_chars_result :=
  let ds := digits_w w base value in
  if last - first <? len ds then (last, value_too_large, m)
  else (first + len ds, errc_none, store_list m first ds).

Definition to_chars_signed_w (w : Z) (m : mem) (first last value base : Z)
  : to_chars_result :=
  let ds := if value <? 0 then "-"%char :: digits_w w base (- value)
            else digits_w w base value in
  if last - first <? len ds then (last, value_too_large, m)
  else (first + len ds, errc_none, store_list m first ds).

(** [std::ranges::copy] between [char] ranges.  The header calls it
    with a destination that may lie inside the source range; for
    [char] the library copies with [memmove], which is what the model
    does: the source is read whole before the destination is
    written. *)
Definition ranges_copy (m : mem) (first last result : Z) : mem :=
  store_list m result (load_list m first (Z.to_nat (last - first))).

(** [std::ranges::fill_n]; a count that is not positive stores
    nothing. *)
Definition ranges_fill_n (m : mem) (first n : Z) (value : ascii) : mem :=
  store_list m first (repeat value (Z.to_nat n)).

End std.

(** ** [from_chars] for [uint128_t] *)

Section FromCharsLoops.

(** What the loops of [from_chars] read but do not change. *)
Variable s : list ascii.          (* the span [first, last) *)
Variable out : Z.                 (* the caller's variable before the call *)
Variable base : Z.
Variable initial_last : Z.
Variable max_pow : Z.
Variable max_lower_length : Z.

(** The loop of the power-of-two branch.  The shift of a [uint128_t]
    by 128 bits or more is undefined in C++; the loop only gets there
    with [digits = 0] ([pow2_loop_wide_shift_zero] below), and the
    model gives the shift its value modulo [2^128], which is 0. *)
Fixpoint from_chars_pow2_loop (fuel : nat) (bits_per_iteration : Z)
         (current_last result shift : Z) : option from_chars_result :=
  match fuel with
  | O => None
  | S fuel' =>
      let lower_length := Z.min (current_last - 0) max_lower_length in
      let current_first := current_last - lower_length in
      let '(partial_ptr, partial_ec, digits) :=
        std.from_chars_unsigned 64 (subspan s current_first current_last) 0 base in
      if negb (errc_eqb partial_ec errc_none) then
        Some (current_first + partial_ptr, partial_ec, out)
      else
        let added_digits := 64 - std.countl_zero digits in
        if shift + added_digits >? 128 then
          Some (initial_last, result_out_of_range, out)
        else
          let result := Z.lor result (wrap 128 (Z.shiftl digits shift)) in
          let shift := shift + bits_per_iteration in
          if (current_last - 0 <=? max_lower_length)
             || negb (errc_eqb partial_ec errc_none)
          then Some (initial_last, partial_ec, result)
          else from_chars_pow2_loop fuel' bits_per_iteration
                 (current_last - lower_length) result shift
  end.

(** The loop of the other branch. *)
Fixpoint from_chars_mul_loop (fuel : nat)
         (current_last result factor : Z) : option from_chars_result :=
  match fuel with
  | O => None
  | S fuel' =>
      let lower_length := Z.min (current_last - 0) max_lower_length in
      let current_first := current_last - lower_length in
      let '(_, partial_ec, digits) :=
        std.from_chars_unsigned 64 (subspan s current_first current_last) 0 base in
      let '(summand, overflow) := detail.mul_overflow factor digits in
      if overflow then Some (initial_last, result_out_of_range, out)
      else
        let '(result, overflow) := detail.add_overflow result summand in
        if overflow then Some (initial_last, result_out_of_range, out)
        else if (current_last - 0 <=? max_lower_length)
                || negb (errc_eqb partial_ec errc_none)
        then Some (initial_last, partial_ec, result)
        else from_chars_mul_loop fuel'
               (current_last - lower_length) result (wrap 128 (factor * max_pow))
  end.

End FromCharsLoops.

Definition from_chars_u128 (s : list ascii) (out : Z) (base : Z)
  : option from_chars_result :=
  let last := len s in
  if 0 =? last then Some (last, invalid_argument, out)
  else
    let initial_last := 0 + Z.of_nat (detail.pattern_length s base) in
    let max_pow := detail.u64_max_power base in
    let max_lower_length := detail.u64_max_representable_digits base in
    let is_pow_2 := Z.land base (base - 1) =? 0 in
    if is_pow_2 then
      let bits_per_iteration := std.countr_zero max_pow in
      from_chars_pow2_loop s out base initial_last max_lower_length
        (S (List.length s)) bits_per_iteration initial_last 0 0
    else
      from_chars_mul_loop s out base initial_last max_pow max_lower_length
        (S (List.length s)) initial_last 0 1.

(** ** [from_chars] for [int128_t] *)

Definition from_chars_i128 (s : list ascii) (out : Z) (base : Z)
  : option from_chars_result :=
  match s with
  | [] => Some (0, invalid_argument, out)
  | c :: s' =>
      if negb (Ascii.eqb c "-") then
        match from_chars_u128 s 0 base with
        | None => None
        | Some (ptr, ec, x) =>
            if negb (Z.shiftr x 127 =? 0) then Some (ptr, result_out_of_range, out)
            else Some (ptr, ec, swrap 128 x)
        end
      else
        let max_lower_length := detail.u64_max_representable_digits base in
        if len s + 1 <=? max_lower_length then
          Some (std.from_chars_signed 64 s 0 base)
        else
          match from_chars_u128 s' 0 base with
          | None => None
          | Some (ptr, ec, x) =>
              if x >? 2 ^ 127 then Some (1 + ptr, result_out_of_range, out)
              else Some (1 + ptr, ec, swrap 128 (wrap 128 (- x)))
          end
  end.

(** ** [to_chars] for [uint128_t] *)

Section ToCharsLoop.

Variable last : Z.
Variable x : Z.
Variable base : Z.
Variable piece_max_digits : Z.
Variable bits_per_iteration : Z.
Variable mask : Z.

(** The loop over the pieces of the power-of-two branch. *)
Fixpoint to_chars_pow2_loop (fuel : nat) (m : mem)
         (current_first : Z) (first_digit : bool) (shift : Z)
  : option to_chars_result :=
  match fuel with
  | O => None
  | S fuel' =>
      let piece := Z.land (wrap 64 (Z.shiftr x shift)) mask in
      let '(piece_ptr, piece_ec, m) :=
        std.to_chars_unsigned m current_first last piece base in
      if negb (errc_eqb piece_ec errc_none) then Some (piece_ptr, piece_ec, m)
      else
        let zero_pad := piece_max_digits - (piece_ptr - current_first) in
        let '(m, current_first) :=
          if negb first_digit && negb (zero_pad =? 0) then
            let m := std.ranges_copy m current_first piece_ptr
                       (current_first + zero_pad) in
            let m := std.ranges_fill_n m current_first zero_pad "0" in
            (m, current_first + piece_max_digits)
          else (m, piece_ptr) in
        if shift <=? 0 then Some (current_first, errc_none, m)
        else to_chars_pow2_loop fuel' m current_first false
               (shift - bits_per_iteration)
  end.

End ToCharsLoop.

Fixpoint to_chars_u128_rec (fuel : nat) (m : mem) (first last x base : Z)
  : option to_chars_result :=
  match fuel with
  | O => None
  | S fuel' =>
      if x <=? wrap 64 (-1) then
        Some (std.to_chars_unsigned m first last (wrap 64 x) base)
      else if first =? last then Some (last, value_too_large, m)
      else
        let max_pow := detail.u64_max_power base in
        let is_pow_2 := Z.land base (base - 1) =? 0 in
        let piece_max_digits := detail.u64_max_representable_digits base in
        if is_pow_2 then
          let bits_per_iteration := std.countr_zero max_pow in
          let leading_bits := Z.rem 128 bits_per_iteration in
          let shift := 128 - leading_bits - bits_per_iteration in
          let mask :=
            wrap 64 ((if bits_per_iteration =? 64 then 0
                      else wrap 64 (Z.shiftl 1 bits_per_iteration)) - 1) in
          let head_mask := wrap 64 (wrap 64 (Z.shiftl 1 leading_bits) - 1) in
          let head :=
            Z.land (wrap 64 (Z.shiftr x (128 - leading_bits))) head_mask in
          if negb (leading_bits =? 0) && negb (head =? 0) then
            let '(head_ptr, head_ec, m) :=
              std.to_chars_unsigned m first last head base in
            if negb (errc_eqb head_ec errc_none) then Some (head_ptr, head_ec, m)
            else to_chars_pow2_loop last x base piece_max_digits
                   bits_per_iteration mask 129 m head_ptr false shift
          else to_chars_pow2_loop last x base piece_max_digits
                 bits_per_iteration mask 129 m first true shift
        else
          match to_chars_u128_rec fuel' m first last (x / max_pow) base with
          | None => None
          | Some (upper_ptr, upper_ec, m) =>
              if negb (errc_eqb upper_ec errc_none) then Some (upper_ptr, upper_ec, m)
              else
                let '(lower_ptr, lower_ec, m) :=
                  std.to_chars_unsigned m upper_ptr last
                    (wrap 64 (x mod max_pow)) base in
                if negb (errc_eqb lower_ec errc_none) then Some (lower_ptr, lower_ec, m)
                else
                  let lower_length := lower_ptr - upper_ptr in
                  let result_end := upper_ptr + piece_max_digits in
                  let m := std.ranges_copy m upper_ptr (upper_ptr + lower_length)
                             (result_end - lower_length) in
                  let m := std.ranges_fill_n m upper_ptr
                             (piece_max_digits - lower_length) "0" in
                  Some (result_end, errc_none, m)
          end
  end.

(** The recursion divides [x] by [max_pow] at every level: 128 levels
    are more than a 128-bit value can take.  The loop over the pieces
    starts with a shift of at most 128 and lowers it at every iteration:
    129 iterations are more than it can take. *)
Definition to_chars_u128 (m : mem) (first last x base : Z)
  : option to_chars_result :=
  to_chars_u128_rec 128 m first last x base.

(** ** [to_chars] for [int128_t] *)

Definition to_chars_i128 (m : mem) (first last x base : Z)
  : option to_chars_result :=
  if x >=? 0 then to_chars_u128 m first last (wrap 128 x) base
  else if x =? swrap 64 x then
    Some (std.to_chars_signed m first last (swrap 64 x) base)
  else if last - first <? 2 then Some (last, value_too_large, m)
  else
    let m := store m first "-" in
    to_chars_u128 m (first + 1) last (wrap 128 (- wrap 128 x)) base.

(** ** Bit-precise integers *)

Module bitint.

(** The width of [detail::int_leastN_t<N>] and [detail::uint_leastN_t<N>]. *)
Definition least_bits (N : Z) : Z :=
  if N <=? 8 then 8
  else if N <=? 16 then 16
  else if N <=? 32 then 32
  else if N <=? 64 then 64
  else 128.

(** The unqualified call [from_chars (first, last, value, base)] on
    the carrier.  The body of the template starts with
    [using std::from_chars;]: this declaration at block scope hides the
    overloads of this header, and the arguments (two [const char*], an
    integer, an [int]) have no associated namespace, so the call is to
    [std::from_chars] for the carrier type, for the 128-bit carrier as
    for the others. *)
Definition carrier_from_chars_signed (bits : Z) (s : list ascii) (value base : Z)
  : from_chars_result :=
  std.from_chars_signed bits s value base.

Definition carrier_from_chars_unsigned (bits : Z) (s : list ascii) (value base : Z)
  : from_chars_result :=
  std.from_chars_unsigned bits s value base.

(** [from_chars] for [bit_int<N>]. *)
Definition from_chars_bit_int (N : Z) (s : list ascii) (x base : Z)
  : from_chars_result :=
  let '(ptr, ec, value) := carrier_from_chars_signed (least_bits N) s 0 base in
  let x := swrap N value in
  if errc_eqb ec errc_none && negb (x =? value)
  then (ptr, result_out_of_range, x)
  else (ptr, ec, x).

(** [from_chars] for [bit_uint<N>]. *)
Definition from_chars_bit_uint (N : Z) (s : list ascii) (x base : Z)
  : from_chars_result :=
  let '(ptr, ec, value) := carrier_from_chars_unsigned (least_bits N) s 0 base in
  let x := wrap N value in
  if errc_eqb ec errc_none && negb (x =? value)
  then (ptr, result_out_of_range, x)
  else (ptr, ec, x).

(** The unqualified call [to_chars (first, last, value, base)] on the
    carrier: by [using std::to_chars;], in the same way,
    [std::to_chars] for the carrier type. *)
Definition carrier_to_chars_signed (bits : Z) (m : mem) (first last value base : Z)
  : to_chars_result :=
  std.to_chars_signed_w bits m first last value base.

Definition carrier_to_chars_unsigned (bits : Z) (m : mem) (first last value base : Z)
  : to_chars_result :=
  std.to_chars_unsigned_w bits m first last value base.

(** [to_chars] for [bit_int<N>]: [detail::int_leastN_t<N> { x }] converts
    the value to the carrier. *)
Definition to_chars_bit_int (N : Z) (m : mem) (first last x base : Z)
  : to_chars_result :=
  carrier_to_chars_signed (least_bits N) m first last
    (swrap (least_bits N) x) base.

(** [to_chars] for [bit_uint<N>]. *)
Definition to_chars_bit_uint (N : Z) (m : mem) (first last x base : Z)
  : to_chars_result :=
  carrier_to_chars_unsigned (least_bits N) m first last
    (wrap (least_bits N) x) base.

End bitint.

(** ** The tests of [test.cpp] *)

Module tests.

Record test_case : Type := { value : Z; str : string; base : Z }.

Definition u128_test : Z := Z.shiftl 1 100 / 10.
Definition u128_max : Z := wrap 128 (-1).
Definition i128_min : Z := swrap 128 (Z.shiftl 1 127).

Definition common_cases : list test_case :=
  [ {| value := 0; str := "0"; base := 2 |};
    {| value := 0; str := "0"; base := 5 |};
    {| value := 0; str := "0"; base := 8 |};
    {| value := 0; str := "0"; base := 10 |};
    {| value := 0; str := "0"; base := 16 |};
    {| value := 0; str := "0"; base := 32 |};
    {| value := 255; str := "11111111"; base := 2 |};
    {| value := 255; str := "2010"; base := 5 |};
    {| value := 255; str := "377"; base := 8 |};
    {| value := 255; str := "255"; base := 10 |};
    {| value := 255; str := "ff"; base := 16 |};
    {| value := 255; str := "7v"; base := 32 |};
    {| value := u128_test;
       str := "1100110011001100110011001100110011001100110011001100110011001100110011001100110011001100110011001";
       base := 2 |};
    {| value := u128_test; str := "234321103241341010413041402403011100224122"; base := 5 |};
    {| value := u128_test; str := "146314631463146314631463146314631"; base := 8 |};
    {| value := u128_test; str := "126765060022822940149670320537"; base := 10 |};
    {| value := u128_test; str := "1999999999999999999999999"; base := 16 |};
    {| value := u128_test; str := "36cpj6cpj6cpj6cpj6cp"; base := 32 |} ].

Definition test_cases_u128 : list test_case :=
  common_cases ++
  [ {| value := u128_max;
       str := "11111111111111111111111111111111111111111111111111111111111111111111111111111111111111111111111111111111111111111111111111111111";
       base := 2 |};
    {| value := u128_max;
       str := "11031110441201303134210404233413032443021130230130231310"; base := 5 |};
    {| value := u128_max; str := "3777777777777777777777777777777777777777777"; base := 8 |};
    {| value := u128_max; str := "340282366920938463463374607431768211455"; base := 10 |};
    {| value := u128_max; str := "ffffffffffffffffffffffffffffffff"; base := 16 |};
    {| value := u128_max; str := "7vvvvvvvvvvvvvvvvvvvvvvvvv"; base := 32 |} ].

Definition test_cases_i128 : list test_case :=
  common_cases ++
  [ {| value := i128_min;
       str := "-10000000000000000000000000000000000000000000000000000000000000000000000000000000000000000000000000000000000000000000000000000000";
       base := 2 |};
    {| value := i128_min;
       str := "-3013030220323124042102424341431241221233040112312340403"; base := 5 |};
    {| value := i128_min; str := "-2000000000000000000000000000000000000000000"; base := 8 |};
    {| value := i128_min; str := "-170141183460469231731687303715884105728"; base := 10 |};
    {| value := i128_min; str := "-80000000000000000000000000000000"; base := 16 |};
    {| value := i128_min; str := "-40000000000000000000000000"; base := 32 |} ].

Definition list_eqb (a b : list ascii) : bool :=
  (Nat.eqb (List.length a) (List.length b))
  && forallb (fun p => Ascii.eqb (fst p) (snd p)) (combine a b).

(** The body of the loops of [run_manual_tests]: the assertions on one
    test case, for a formatter and a parser. *)
Definition check_case
           (to_chars : mem -> Z -> Z -> Z -> Z -> option to_chars_result)
           (from_chars : list ascii -> Z -> Z -> option from_chars_result)
           (test : test_case) : bool :=
  let buffer : mem := fun _ => "000"%char in
  match to_chars buffer 0 1024 (value test) (base test) with
  | Some (p, ec, m) =>
      let result := load_list m 0 (Z.to_nat p) in
      errc_eqb ec errc_none
      && (p =? len (chars (str test)))
      && list_eqb result (chars (str test))
      && match from_chars result 0 (base test) with
         | Some (from_p, from_ec, v) =>
             errc_eqb from_ec errc_none && (p =? from_p) && (v =? value test)
         | None => false
         end
  | None => false
  end.

Definition run_manual_tests : bool :=
  forallb (check_case to_chars_u128 from_chars_u128) test_cases_u128
  && forallb (check_case to_chars_i128 from_chars_i128) test_cases_i128.

(** How a run of assertions ends: all of them held (with the buffer they
    leave), one of them failed, or a call did not return. *)
Inductive run : Type :=
| passed (buffer : mem)
| assertion_failed
| no_result.

(** One block of the loop body of [run_fuzz_tests]: format [value] into
    [buffer, buffer + 1024), terminate the text with a zero character,
    parse the whole buffer back.  [parsed] is the indeterminate value of
    the variable that receives the result. *)
Definition fuzz_round_trip
           (to_chars : mem -> Z -> Z -> Z -> Z -> option to_chars_result)
           (from_chars : list ascii -> Z -> Z -> option from_chars_result)
           (buffer : mem) (value parsed base : Z) : run :=
  match to_chars buffer 0 1024 value base with
  | None => no_result
  | Some (p1, ec1, buffer) =>
      if negb (errc_eqb ec1 errc_none) then assertion_failed
      else
        let buffer := store buffer p1 "000"%char in
        match from_chars (load_list buffer 0 1024) parsed base with
        | None => no_result
        | Some (p2, ec2, parsed) =>
            if negb (errc_eqb ec2 errc_none) then assertion_failed
            else if negb (p1 =? p2) then assertion_failed
            else if negb (value =? parsed) then assertion_failed
            else passed buffer
        end
  end.

(** One iteration of [run_fuzz_tests] for the numbers [base], [lo] and
    [hi] that the generator gave. *)
Definition fuzz_iteration (buffer : mem) (parsed_u parsed_i base lo hi : Z) : run :=
  let u128 := Z.lor (wrap 128 (Z.shiftl hi 64)) lo in
  let i128 := swrap 128 u128 in
  match fuzz_round_trip to_chars_u128 from_chars_u128 buffer u128 parsed_u base with
  | passed buffer =>
      fuzz_round_trip to_chars_i128 from_chars_i128 buffer i128 parsed_i base
  | r => r
  end.

(** The loop of [run_fuzz_tests] over the numbers of the generator, one
    [(base, lo, hi)] for each iteration. *)
Fixpoint run_fuzz_tests (draws : list (Z * Z * Z)) (buffer : mem)
         (parsed_u parsed_i : Z) : run :=
  match draws with
  | [] => passed buffer
  | (base, lo, hi) :: draws' =>
      match fuzz_iteration buffer parsed_u parsed_i base lo hi with
      | passed buffer => run_fuzz_tests draws' buffer parsed_u parsed_i
      | r => r
      end
  end.

End tests.

(** * Vocabulary of the properties *)

Definition bases : list Z := map Z.of_nat (seq 2 35).

Definition is_pow_2 (base : Z) : bool := Z.land base (base - 1) =? 0.

(** A letter in lower case; every other character as it is. *)
Definition lower_case (c : ascii) : ascii :=
  let n := char_code c in
  if (65 <=? n) && (n <=? 90) then char_of_code (n + 32) else c.

(** A run of digits of the base. *)
Definition valid_digits (base : Z) (s : list ascii) : Prop :=
  Forall (fun c => 0 <= detail.digit_value c < base) s.

(** A digit string that is the shortest one of its value [x]: digits of
    the base only, no leading zero, and ["0"] for zero. *)
Definition canonical (base : Z) (s : list ascii) (x : Z) : Prop :=
  valid_digits base s
  /\ std.digits_value base s = x
  /\ s <> []
  /\ (x = 0 -> s = ["0"%char])
  /\ (x <> 0 -> hd "0"%char s <> "0"%char).

(** The string of a signed value: a minus sign before the canonical
    string of the magnitude when the value is negative. *)
Definition signed_canonical (base : Z) (s : list ascii) (x : Z) : Prop :=
  if x <? 0 then exists t, s = "-"%char :: t /\ canonical base t (- x)
  else canonical base s x.

(** A value [v] in a field of [d] digits: zeros, then the digits. *)
Definition padded (base d v : Z) : list ascii :=
  let ds := std.digits base v in
  repeat "0"%char (Z.to_nat (d - len ds)) ++ ds.

(** The value of the [bpi] bits of [x] from bit [shift] on. *)
Definition piece (x bpi shift : Z) : Z := (x / 2 ^ shift) mod 2 ^ bpi.

(** What one iteration of the power-of-two loop of [to_chars] writes:
    the digits of the piece, in a field of [d] digits unless it is the
    first thing written. *)
Definition piece_str (x base d bpi : Z) (first_digit : bool) (shift : Z)
  : list ascii :=
  if first_digit then std.digits base (piece x bpi shift)
  else padded base d (piece x bpi shift).

(** The end of the pattern of a span: [initial_last - first]. *)
Definition pattern_end (s : list ascii) (base : Z) : Z :=
  0 + Z.of_nat (detail.pattern_length s base).

(** The end of the pattern of a signed number: the digits, after an
    optional minus sign that counts only when a digit follows. *)
Definition signed_pattern_end (s : list ascii) (base : Z) : Z :=
  match s with
  | "-"%char :: t =>
      if pattern_end t base =? 0 then 0 else 1 + pattern_end t base
  | _ => pattern_end s base
  end.

(** The value of the first [k] digits of a span. *)
Definition prefix_value (s : list ascii) (base k : Z) : Z :=
  std.digits_value base (firstn (Z.to_nat k) s).

(** What a call of [to_chars] leaves behind.
    [wrote last m cf s r]: the result [r] of a formatter called at [cf]
    with the memory [m] is either the success that wrote exactly [s] at
    [cf] and left everything else alone, or [value_too_large] for
    a buffer with less than [len s] characters. *)
Definition wrote (last : Z) (m : mem) (cf : Z) (s : list ascii)
           (r : option to_chars_result) : Prop :=
  exists p ec m',
    r = Some (p, ec, m')
    /\ ((ec = errc_none
         /\ p = cf + len s
         /\ load_list m' cf (List.length s) = s
         /\ forall q, q < cf \/ cf + len s <= q -> m' q = m q)
        \/ (ec = value_too_large /\ last - cf < len s)).

(** What every call of [to_chars] keeps to, whether it succeeds or not.
    [keeps_below last lo m r]: a result [r] of a formatter called with
    the memory [m] is either a success or [value_too_large] with the
    pointer [last]; a success returns a pointer that is not below [lo];
    the memory below [lo] is as it was. *)
Definition keeps_below (last lo : Z) (m : mem) (r : option to_chars_result)
  : Prop :=
  forall p ec m',
    r = Some (p, ec, m') ->
    (ec = errc_none \/ (ec = value_too_large /\ p = last))
    /\ (ec = errc_none -> lo <= p)
    /\ forall q, q < lo -> m' q = m q.

(** A digit as [std::to_chars] writes it, of a value below the base. *)
Definition output_digit (base : Z) (c : ascii) : Prop :=
  exists d, 0 <= d < base /\ c = std.digit_char d.

(** [writes_digits base lo r]: after a success [r] of a formatter, the
    memory from [lo] to the returned pointer holds such digits. *)
Definition writes_digits (base lo : Z) (r : option to_chars_result) : Prop :=
  forall p m',
    r = Some (p, errc_none, m') ->
    forall q, lo <= q < p -> output_digit base (m' q).

(** The power-of-two branch of [to_chars_u128_rec] on its own
    ([to_chars_u128_rec_S] puts it back in its place). *)
Definition to_chars_pow2_branch (m : mem) (first last x base : Z)
  : option to_chars_result :=
  let max_pow := detail.u64_max_power base in
  let piece_max_digits := detail.u64_max_representable_digits base in
  let bits_per_iteration := std.countr_zero max_pow in
  let leading_bits := Z.rem 128 bits_per_iteration in
  let shift := 128 - leading_bits - bits_per_iteration in
  let mask :=
    wrap 64 ((if bits_per_iteration =? 64 then 0
              else wrap 64 (Z.shiftl 1 bits_per_iteration)) - 1) in
  let head_mask := wrap 64 (wrap 64 (Z.shiftl 1 leading_bits) - 1) in
  let head := Z.land (wrap 64 (Z.shiftr x (128 - leading_bits))) head_mask in
  if negb (leading_bits =? 0) && negb (head =? 0) then
    let '(head_ptr, head_ec, m) := std.to_chars_unsigned m first last head base in
    if negb (errc_eqb head_ec errc_none) then Some (head_ptr, head_ec, m)
    else to_chars_pow2_loop last x base piece_max_digits
           bits_per_iteration mask 129 m head_ptr false shift
  else to_chars_pow2_loop last x base piece_max_digits
         bits_per_iteration mask 129 m first true shift.

(** The other branch of [to_chars_u128_rec], after the recursive call
    for the upper part. *)
Definition to_chars_div_branch (upper : option to_chars_result) (last x base : Z)
  : option to_chars_result :=
  let max_pow := detail.u64_max_power base in
  let piece_max_digits := detail.u64_max_representable_digits base in
  match upper with
  | None => None
  | Some (upper_ptr, upper_ec, m) =>
      if negb (errc_eqb upper_ec errc_none) then Some (upper_ptr, upper_ec, m)
      else
        let '(lower_ptr, lower_ec, m) :=
          std.to_chars_unsigned m upper_ptr last (wrap 64 (x mod max_pow)) base in
        if negb (errc_eqb lower_ec errc_none) then Some (lower_ptr, lower_ec, m)
        else
          let lower_length := lower_ptr - upper_ptr in
          let result_end := upper_ptr + piece_max_digits in
          let m := std.ranges_copy m upper_ptr (upper_ptr + lower_length)
                     (result_end - lower_length) in
          let m := std.ranges_fill_n m upper_ptr
                     (piece_max_digits - lower_length) "0"%char in
          Some (result_end, errc_none, m)
  end.

(** * Properties *)

(** Boolean comparisons of the hypotheses as propositions. *)
Ltac zbool :=
  repeat match goal with
         | H : (_ >? _) = _ |- _ => rewrite Z.gtb_ltb in H
         | H : (_ >=? _) = _ |- _ => rewrite Z.geb_leb in H
         | H : (_ <? _) = true |- _ => apply Z.ltb_lt in H
         | H : (_ <? _) = false |- _ => apply Z.ltb_ge in H
         | H : (_ <=? _) = true |- _ => apply Z.leb_le in H
         | H : (_ <=? _) = false |- _ => apply Z.leb_gt in H
         | H : (_ =? _) = true |- _ => apply Z.eqb_eq in H
         | H : (_ =? _) = false |- _ => apply Z.eqb_neq in H
         end.

Ltac zlia := zbool; lia.

(** ** Radix tables *)

Lemma bases_complete (b : Z) : 2 <= b <= 36 -> In b bases.
Proof.
  intros Hb. unfold bases.
  replace b with (Z.of_nat (Z.to_nat b)) by lia.
  apply in_map, in_seq. lia.
Qed.

(** A decidable property that holds of every base of the table holds of
    every [2 <= b <= 36]. *)
Lemma forall_bases (P : Z -> bool) :
  forallb P bases = true -> forall b, 2 <= b <= 36 -> P b = true.
Proof.
  intros H b Hb. rewrite forallb_forall in H. apply H, bases_complete, Hb.
Qed.

(** [bases_check P b Hb H]: checks [P] on the table and adds [H : P b = true]. *)
Ltac bases_check P b Hb H :=
  pose proof (forall_bases P ltac:(vm_compute; reflexivity) b Hb) as H;
  cbv beta zeta in H.

(** The consteval loop ends through its test for every base. *)
Lemma u64_max_representable_digits_naive_table (b : Z) :
  2 <= b <= 36 ->
  detail.u64_max_representable_digits_naive b
  = Some (detail.u64_max_representable_digits b).
Proof.
  intros Hb.
  bases_check (fun b => match detail.u64_max_representable_digits_naive b with
                        | Some d => d =? detail.u64_max_representable_digits b
                        | None => false
                        end) b Hb H.
  destruct (detail.u64_max_representable_digits_naive b); [|discriminate].
  apply Z.eqb_eq in H. congruence.
Qed.

Lemma max_digits_bounds (b : Z) :
  2 <= b <= 36 ->
  let d := detail.u64_max_representable_digits b in
  12 <= d <= 64 /\ b ^ d <= 2 ^ 64 /\ 2 ^ 64 < b ^ (d + 1).
Proof.
  intros Hb d.
  bases_check (fun b => let d := detail.u64_max_representable_digits b in
                        (12 <=? d) && (d <=? 64) && (b ^ d <=? 2 ^ 64)
                        && (2 ^ 64 <? b ^ (d + 1))) b Hb H.
  fold d in H.
  repeat (apply andb_prop in H; destruct H as [H ?]).
  repeat split; try apply Z.leb_le; try apply Z.ltb_lt; assumption.
Qed.

(** C9: for every base [2 <= b <= 36], [u64_max_representable_digits b]
    is the largest [d] with [b^d <= 2^64], that is
    [floor (64 * ln 2 / ln b)]: [b^d <= 2^64 < b^(d+1)], and no larger
    exponent keeps the power within [2^64]; it is 64 for base 2, 21 for
    base 8, 19 for base 10 and 16 for base 16. *)
Theorem u64_max_representable_digits_largest :
  (forall b, 2 <= b <= 36 ->
     let d := detail.u64_max_representable_digits b in
     0 <= d /\ b ^ d <= 2 ^ 64 < b ^ (d + 1)
     /\ (forall e, 0 <= e -> b ^ e <= 2 ^ 64 -> e <= d))
  /\ detail.u64_max_representable_digits 2 = 64
  /\ detail.u64_max_representable_digits 8 = 21
  /\ detail.u64_max_representable_digits 10 = 19
  /\ detail.u64_max_representable_digits 16 = 16.
Proof.
  split; [|repeat split; vm_compute; reflexivity].
  intros b Hb d. destruct (max_digits_bounds b Hb) as (Hd & Hle & Hlt).
  fold d in Hd, Hle, Hlt.
  repeat split; try lia.
  intros e He Hpow.
  destruct (Z_le_gt_dec e d) as [|Hgt]; [assumption|exfalso].
  assert (b ^ (d + 1) <= b ^ e) by (apply Z.pow_le_mono_r; lia).
  lia.
Qed.

Lemma u64_max_representable_digits_largest_witness :
  let d := detail.u64_max_representable_digits 10 in
  0 <= d /\ 10 ^ d <= 2 ^ 64 < 10 ^ (d + 1)
  /\ (forall e, 0 <= e -> 10 ^ e <= 2 ^ 64 -> e <= d).
Proof.
  apply (proj1 u64_max_representable_digits_largest 10). lia.
Defined.

Lemma max_power_mod (b : Z) :
  2 <= b <= 36 ->
  detail.u64_max_power b = (b ^ detail.u64_max_representable_digits b) mod 2 ^ 64.
Proof.
  intros Hb.
  bases_check (fun b => detail.u64_max_power b
                        =? (b ^ detail.u64_max_representable_digits b) mod 2 ^ 64) b Hb H.
  apply Z.eqb_eq in H. exact H.
Qed.

Lemma max_power_zero_bases (b : Z) :
  2 <= b <= 36 ->
  (detail.u64_max_power b = 0 <-> b = 2 \/ b = 4 \/ b = 16).
Proof.
  intros Hb.
  bases_check (fun b => Bool.eqb (detail.u64_max_power b =? 0)
                          ((b =? 2) || (b =? 4) || (b =? 16))) b Hb H.
  apply Bool.eqb_prop in H.
  rewrite <- Z.eqb_eq, H, !orb_true_iff, !Z.eqb_eq. tauto.
Qed.

(** C6 (as the code has it): for every base [2 <= b <= 36],
    [u64_max_power b] is [b ^ maxDigits(b)] reduced modulo [2^64]: it is
    that power whenever the power is below [2^64], and it is the
    sentinel 0 exactly when the power is [2^64] itself, which happens
    for the bases 2, 4 and 16 only; the power-of-two bases 8 and 32 get
    the nonzero values [2^63] and [2^60]. *)
Theorem u64_max_power_sentinel :
  (forall b, 2 <= b <= 36 ->
     let p := b ^ detail.u64_max_representable_digits b in
     (p < 2 ^ 64 -> detail.u64_max_power b = p)
     /\ (detail.u64_max_power b = 0 <-> p = 2 ^ 64)
     /\ (detail.u64_max_power b = 0 <-> b = 2 \/ b = 4 \/ b = 16))
  /\ detail.u64_max_power 8 = 2 ^ 63
  /\ detail.u64_max_power 32 = 2 ^ 60.
Proof.
  split; [|split; vm_compute; reflexivity].
  intros b Hb p.
  destruct (max_digits_bounds b Hb) as (Hd & Hle & _).
  pose proof (max_power_mod b Hb) as Hmod. fold p in Hle, Hmod.
  assert (0 < p) by (apply Z.pow_pos_nonneg; lia).
  split; [|split].
  - intros Hlt. rewrite Hmod. apply Z.mod_small. lia.
  - rewrite Hmod. split.
    + intros H0. destruct (Z.eq_dec p (2 ^ 64)) as [|Hne]; [assumption|].
      rewrite Z.mod_small in H0 by lia. lia.
    + intros ->. reflexivity.
  - apply max_power_zero_bases, Hb.
Qed.

Lemma u64_max_power_sentinel_witness :
  let p := 10 ^ detail.u64_max_representable_digits 10 in
  (p < 2 ^ 64 -> detail.u64_max_power 10 = p)
  /\ (detail.u64_max_power 10 = 0 <-> p = 2 ^ 64)
  /\ (detail.u64_max_power 10 = 0 <-> 10 = 2 \/ 10 = 4 \/ 10 = 16).
Proof.
  apply (proj1 u64_max_power_sentinel 10). lia.
Defined.

(** C6 as stated fails at base 8: 8 is a power of two and
    [u64_max_power 8] is [2^63], not the sentinel. *)
Lemma u64_max_power_base8_not_sentinel :
  ~ (detail.u64_max_power 8 = 0 <-> exists k, 0 <= k /\ 8 = 2 ^ k).
Proof.
  intros [_ H].
  assert (H8 : detail.u64_max_power 8 = 0) by (apply H; exists 3; split; [lia|reflexivity]).
  vm_compute in H8. discriminate.
Qed.

(** ** The tests of the repository *)

(** The manual tests of [test.cpp] pass on the embedding. *)
Example run_manual_tests_pass : tests.run_manual_tests = true.
Proof. vm_compute. reflexivity. Qed.

(** The static assertions of [test.cpp]. *)
Example static_assertions :
  detail.u64_max_representable_digits_naive 2 = Some 64
  /\ detail.u64_max_representable_digits 2 = 64
  /\ detail.u64_max_representable_digits_naive 8 = Some 21
  /\ detail.u64_max_representable_digits 8 = 21
  /\ detail.u64_max_representable_digits_naive 10 = Some 19
  /\ detail.u64_max_representable_digits 10 = 19
  /\ detail.u64_max_representable_digits_naive 16 = Some 16
  /\ detail.u64_max_representable_digits 16 = 16
  /\ detail.u64_max_power 2 = 0
  /\ detail.u64_max_power 8 = 0x8000000000000000
  /\ detail.u64_max_power 10 = 10000000000000000000
  /\ detail.u64_max_power 16 = 0.
Proof. repeat split; vm_compute; reflexivity. Qed.

(** ** Digit strings *)

Lemma len_app {A} (l1 l2 : list A) : len (l1 ++ l2) = len l1 + len l2.
Proof. unfold len. rewrite length_app. lia. Qed.

Lemma len_nonneg {A} (l : list A) : 0 <= len l.
Proof. unfold len. lia. Qed.

Lemma len_cons {A} (a : A) (l : list A) : len (a :: l) = 1 + len l.
Proof. unfold len. simpl List.length. lia. Qed.

Lemma len_repeat {A} (a : A) (n : nat) : len (repeat a n) = Z.of_nat n.
Proof. unfold len. rewrite repeat_length. reflexivity. Qed.

Lemma fold_digits_value (base : Z) (s : list ascii) (acc : Z) :
  fold_left (fun a c => a * base + detail.digit_value c) s acc
  = acc * base ^ len s + std.digits_value base s.
Proof.
  unfold std.digits_value. revert acc.
  induction s as [|c s IH]; intros acc.
  - simpl. unfold len. simpl. lia.
  - cbn [fold_left]. rewrite (IH (acc * base + _)), (IH (0 * base + _)), len_cons.
    rewrite Z.pow_add_r by (try apply len_nonneg; lia). lia.
Qed.

Lemma digits_value_nil (base : Z) : std.digits_value base [] = 0.
Proof. reflexivity. Qed.

Lemma digits_value_cons (base : Z) (c : ascii) (s : list ascii) :
  std.digits_value base (c :: s)
  = detail.digit_value c * base ^ len s + std.digits_value base s.
Proof.
  unfold std.digits_value at 1. cbn [fold_left]. rewrite fold_digits_value. lia.
Qed.

Lemma digits_value_app (base : Z) (s t : list ascii) :
  std.digits_value base (s ++ t)
  = std.digits_value base s * base ^ len t + std.digits_value base t.
Proof.
  unfold std.digits_value at 1. rewrite fold_left_app.
  rewrite fold_digits_value. reflexivity.
Qed.

Lemma digits_value_bounds (base : Z) (s : list ascii) :
  2 <= base -> valid_digits base s ->
  0 <= std.digits_value base s < base ^ len s.
Proof.
  intros Hb. induction 1 as [|c s Hc Hs IH].
  - rewrite digits_value_nil. unfold len. simpl. lia.
  - rewrite digits_value_cons, len_cons.
    rewrite Z.pow_add_r by (try apply len_nonneg; lia).
    assert (0 < base ^ len s) by (apply Z.pow_pos_nonneg; [lia|apply len_nonneg]).
    nia.
Qed.

Lemma digits_value_lower (base : Z) (c : ascii) (s : list ascii) :
  2 <= base -> valid_digits base (c :: s) -> 1 <= detail.digit_value c ->
  base ^ len s <= std.digits_value base (c :: s).
Proof.
  intros Hb Hv Hc. inversion Hv as [|? ? _ Hs]; subst.
  rewrite digits_value_cons.
  pose proof (digits_value_bounds base s Hb Hs).
  assert (0 < base ^ len s) by (apply Z.pow_pos_nonneg; [lia|apply len_nonneg]).
  nia.
Qed.

Lemma digits_value_zeros (base : Z) (n : nat) :
  std.digits_value base (repeat "0"%char n) = 0.
Proof.
  induction n as [|n IH]; [reflexivity|].
  simpl repeat. rewrite digits_value_cons, IH.
  change (detail.digit_value "0") with 0. lia.
Qed.

Lemma valid_digits_zeros (base : Z) (n : nat) :
  2 <= base -> valid_digits base (repeat "0"%char n).
Proof.
  intros Hb. apply Forall_forall. intros c Hc.
  apply repeat_spec in Hc. subst c. change (detail.digit_value "0") with 0. lia.
Qed.

Lemma valid_digits_app (base : Z) (s t : list ascii) :
  valid_digits base s -> valid_digits base t -> valid_digits base (s ++ t).
Proof. intros. apply Forall_app. split; assumption. Qed.

(** The scan of a run of digits reaches its end. *)
Lemma pattern_length_valid (base : Z) (s : list ascii) :
  valid_digits base s -> detail.pattern_length s base = List.length s.
Proof.
  induction 1 as [|c s Hc Hs IH]; [reflexivity|].
  simpl. destruct (detail.digit_value c <? 0) eqn:E1; [lia|].
  destruct (detail.digit_value c >=? base) eqn:E2; [lia|].
  simpl. rewrite IH. reflexivity.
Qed.

Lemma pattern_length_le (base : Z) (s : list ascii) :
  (detail.pattern_length s base <= List.length s)%nat.
Proof.
  induction s as [|c s IH]; simpl; [lia|].
  destruct (_ || _); simpl; lia.
Qed.

(** The scanned prefix is a run of digits. *)
Lemma pattern_prefix_valid (base : Z) (s : list ascii) :
  valid_digits base (firstn (detail.pattern_length s base) s).
Proof.
  induction s as [|c s IH]; simpl; [constructor|].
  destruct (detail.digit_value c <? 0) eqn:E1; simpl; [constructor|].
  destruct (detail.digit_value c >=? base) eqn:E2; simpl; [constructor|].
  constructor; [lia|exact IH].
Qed.

(** [std::from_chars] on a non-empty run of digits whose value fits. *)
Lemma std_from_chars_unsigned_valid (w base : Z) (s : list ascii) (value : Z) :
  valid_digits base s -> s <> [] -> std.digits_value base s < 2 ^ w ->
  std.from_chars_unsigned w s value base
  = (len s, errc_none, std.digits_value base s).
Proof.
  intros Hv Hne Hlt. unfold std.from_chars_unsigned.
  rewrite pattern_length_valid by assumption.
  destruct (List.length s) as [|n] eqn:E.
  - apply length_zero_iff_nil in E. congruence.
  - cbv zeta. rewrite <- E, firstn_all.
    apply Z.ltb_lt in Hlt. rewrite Hlt. reflexivity.
Qed.

Lemma std_from_chars_unsigned_nil (w base value : Z) :
  std.from_chars_unsigned w [] value base = (0, invalid_argument, value).
Proof. reflexivity. Qed.

Lemma digit_char_value (d : Z) :
  0 <= d < 36 -> detail.digit_value (std.digit_char d) = d.
Proof.
  intros Hd.
  assert (H : forallb (fun n => detail.digit_value (std.digit_char (Z.of_nat n))
                                =? Z.of_nat n) (seq 0 36) = true)
    by (vm_compute; reflexivity).
  rewrite forallb_forall in H.
  specialize (H (Z.to_nat d)). rewrite Z2Nat.id in H by lia.
  apply Z.eqb_eq, H, in_seq. lia.
Qed.

Lemma digit_char_nonzero (d : Z) :
  0 < d < 36 -> std.digit_char d <> "0"%char.
Proof.
  intros Hd E. pose proof (digit_char_value d ltac:(lia)) as H.
  rewrite E in H. change (detail.digit_value "0") with 0 in H. lia.
Qed.

(** The only digit of value 0 is the character 0. *)
Lemma digit_value_zero (c : ascii) : detail.digit_value c = 0 -> c = "0"%char.
Proof.
  destruct c as [[] [] [] [] [] [] [] []]; vm_compute; intros H;
    first [reflexivity | discriminate H].
Qed.

Lemma to_digits_S (fuel : nat) (base n : Z) (acc : list ascii) :
  std.to_digits (S fuel) base n acc
  = if n / base =? 0 then std.digit_char (n mod base) :: acc
    else std.to_digits fuel base (n / base) (std.digit_char (n mod base) :: acc).
Proof. reflexivity. Qed.

Lemma to_digits_spec (base : Z) :
  2 <= base <= 36 ->
  forall fuel n acc,
    0 <= n < base ^ Z.of_nat (S fuel) ->
    exists ds,
      std.to_digits (S fuel) base n acc = ds ++ acc
      /\ canonical base ds n
      /\ (forall k, 0 < k -> n < base ^ k -> len ds <= k).
Proof.
  intros Hb. induction fuel as [|fuel IH]; intros n acc Hn.
  - exists [std.digit_char n].
    change (Z.of_nat 1) with 1 in Hn. rewrite Z.pow_1_r in Hn.
    cbn [std.to_digits]. rewrite Z.div_small, Z.mod_small by lia.
    split; [reflexivity|]. split.
    + repeat split.
      * constructor; [|constructor]. rewrite digit_char_value; lia.
      * rewrite digits_value_cons, digits_value_nil, digit_char_value by lia.
        unfold len. simpl. lia.
      * discriminate.
      * intros ->. reflexivity.
      * intros Hne. cbn [hd]. apply digit_char_nonzero. lia.
    + intros k Hk _. unfold len. simpl. lia.
  - rewrite to_digits_S.
    assert (Hmod : 0 <= n mod base < base) by (apply Z.mod_pos_bound; lia).
    assert (Hdiv : 0 <= n / base) by (apply Z.div_pos; lia).
    pose proof (Z.div_mod n base ltac:(lia)) as Hdm.
    destruct (n / base =? 0) eqn:E.
    + apply Z.eqb_eq in E.
      assert (n = n mod base) by lia.
      exists [std.digit_char (n mod base)].
      split; [reflexivity|]. split.
      * repeat split.
        -- constructor; [|constructor]. rewrite digit_char_value; lia.
        -- rewrite digits_value_cons, digits_value_nil, digit_char_value by lia.
           unfold len. simpl. lia.
        -- discriminate.
        -- intros H0. rewrite <- H, H0. reflexivity.
        -- intros Hne. cbn [hd]. apply digit_char_nonzero. lia.
      * intros k Hk _. unfold len. simpl. lia.
    + apply Z.eqb_neq in E.
      assert (Hq : 0 <= n / base < base ^ Z.of_nat (S fuel)).
      { split; [lia|]. apply Z.div_lt_upper_bound; [lia|].
        rewrite <- Z.pow_succ_r by lia. rewrite <- Nat2Z.inj_succ. lia. }
      destruct (IH (n / base) (std.digit_char (n mod base) :: acc) Hq)
        as (ds & Heq & (Hv & Hval & Hne & _ & Hhd) & Hlen).
      exists (ds ++ [std.digit_char (n mod base)]).
      split; [rewrite Heq, <- app_assoc; reflexivity|]. split.
      * repeat split.
        -- apply valid_digits_app; [assumption|].
           constructor; [|constructor]. rewrite digit_char_value; lia.
        -- rewrite digits_value_app, Hval, digits_value_cons, digits_value_nil,
             digit_char_value by lia.
           unfold len. simpl. lia.
        -- destruct ds; discriminate.
        -- intros H0. subst n. rewrite Z.div_0_l in E; lia.
        -- intros _. destruct ds as [|c ds]; [congruence|]. apply Hhd, E.
      * intros k Hk Hnk. rewrite len_app.
        assert (1 < k).
        { destruct (Z.eq_dec k 1) as [->|]; [|lia].
          rewrite Z.pow_1_r in Hnk. rewrite Z.div_small in E; lia. }
        assert (len ds <= k - 1).
        { apply Hlen; [lia|]. apply Z.div_lt_upper_bound; [lia|].
          rewrite <- Z.pow_succ_r by lia. replace (Z.succ (k - 1)) with k by lia.
          exact Hnk. }
        unfold len at 2. simpl. lia.
Qed.

Lemma pow2_le_base_pow (base k : Z) : 2 <= base -> 0 <= k -> 2 ^ k <= base ^ k.
Proof. intros. apply Z.pow_le_mono_l. lia. Qed.

(** The digits [std::to_chars] writes for a 64-bit value. *)
Lemma std_digits_canonical (base n : Z) :
  2 <= base <= 36 -> 0 <= n < 2 ^ 64 ->
  canonical base (std.digits base n) n.
Proof.
  intros Hb Hn. unfold std.digits.
  destruct (to_digits_spec base Hb 63 n []) as (ds & Heq & Hc & _).
  - pose proof (pow2_le_base_pow base 64 ltac:(lia) ltac:(lia)).
    change (Z.of_nat 64) with 64. lia.
  - rewrite Heq, app_nil_r. exact Hc.
Qed.

Lemma std_digits_length (base n k : Z) :
  2 <= base <= 36 -> 0 <= n < 2 ^ 64 -> 0 < k -> n < base ^ k ->
  len (std.digits base n) <= k.
Proof.
  intros Hb Hn Hk Hnk. unfold std.digits.
  destruct (to_digits_spec base Hb 63 n []) as (ds & Heq & _ & Hlen).
  - pose proof (pow2_le_base_pow base 64 ltac:(lia) ltac:(lia)).
    change (Z.of_nat 64) with 64. lia.
  - rewrite Heq, app_nil_r. apply Hlen; assumption.
Qed.

Lemma canonical_len_pos (base : Z) (s : list ascii) (x : Z) :
  canonical base s x -> 1 <= len s.
Proof.
  intros (_ & _ & Hne & _). destruct s; [congruence|]. rewrite len_cons.
  pose proof (len_nonneg s). lia.
Qed.

(** A canonical string of [k] digits has a value of at least
    [base^(k-1)], unless it is ["0"]. *)
Lemma canonical_lower (base : Z) (s : list ascii) (x : Z) :
  2 <= base -> canonical base s x -> x <> 0 -> base ^ (len s - 1) <= x.
Proof.
  intros Hb (Hv & Hval & Hne & _ & Hhd) Hx.
  destruct s as [|c s]; [congruence|].
  rewrite len_cons. replace (1 + len s - 1) with (len s) by lia.
  rewrite <- Hval. apply digits_value_lower; [assumption..|].
  inversion Hv as [|? ? Hc _]; subst.
  specialize (Hhd Hx). cbn [hd] in Hhd.
  destruct (Z.eq_dec (detail.digit_value c) 0) as [E|]; [|lia].
  apply digit_value_zero in E. congruence.
Qed.

(** ** Memory *)

Lemma store_list_get (l : list ascii) :
  forall (m : mem) (p q : Z),
    store_list m p l q
    = if (p <=? q) && (q <? p + len l)
      then nth (Z.to_nat (q - p)) l "000"%char
      else m q.
Proof.
  induction l as [|c l IH]; intros m p q.
  - cbn [store_list]. unfold len. simpl.
    destruct (p <=? q) eqn:E1, (q <? p + 0) eqn:E2; try reflexivity. lia.
  - cbn [store_list]. rewrite IH, len_cons. pose proof (len_nonneg l).
    unfold store.
    destruct (p + 1 <=? q) eqn:E1, (q <? p + 1 + len l) eqn:E2;
      destruct (p <=? q) eqn:E3, (q <? p + (1 + len l)) eqn:E4;
      destruct (q =? p) eqn:E5; cbn [andb]; try lia; try reflexivity.
    + replace (Z.to_nat (q - p)) with (S (Z.to_nat (q - (p + 1)))) by lia.
      reflexivity.
    + apply Z.eqb_eq in E5. subst q. rewrite Z.sub_diag. reflexivity.
Qed.

Lemma store_list_outside (l : list ascii) (m : mem) (p q : Z) :
  q < p \/ p + len l <= q -> store_list m p l q = m q.
Proof.
  intros H. rewrite store_list_get.
  destruct (p <=? q) eqn:E1; [|reflexivity].
  destruct (q <? p + len l) eqn:E2; [zlia|reflexivity].
Qed.

Lemma length_load_list (m : mem) (p : Z) (n : nat) :
  List.length (load_list m p n) = n.
Proof. unfold load_list. rewrite length_map, length_seq. reflexivity. Qed.

Lemma nth_load_list (m : mem) (p : Z) (n i : nat) (d : ascii) :
  (i < n)%nat -> nth i (load_list m p n) d = m (p + Z.of_nat i).
Proof.
  intros H. unfold load_list.
  rewrite (nth_indep _ d (m (p + Z.of_nat 0)))
    by (rewrite length_map, length_seq; exact H).
  rewrite (map_nth (fun i => m (p + Z.of_nat i))), seq_nth by exact H.
  reflexivity.
Qed.

(** A memory that holds the characters of [l] from [p] on. *)
Lemma load_list_eq (m : mem) (p : Z) (l : list ascii) :
  (forall i, (i < List.length l)%nat -> m (p + Z.of_nat i) = nth i l "000"%char) ->
  load_list m p (List.length l) = l.
Proof.
  intros H. apply (nth_ext _ _ "000"%char "000"%char).
  - apply length_load_list.
  - intros i Hi. rewrite length_load_list in Hi.
    rewrite nth_load_list by exact Hi. apply H, Hi.
Qed.

Lemma load_list_ext (m1 m2 : mem) (p : Z) (n : nat) :
  (forall q, p <= q < p + Z.of_nat n -> m1 q = m2 q) ->
  load_list m1 p n = load_list m2 p n.
Proof.
  intros H. unfold load_list. apply map_ext_in. intros i Hi.
  apply in_seq in Hi. apply H. lia.
Qed.

Lemma load_list_app (m : mem) (p : Z) (n1 n2 : nat) :
  load_list m p (n1 + n2)
  = load_list m p n1 ++ load_list m (p + Z.of_nat n1) n2.
Proof.
  apply (nth_ext _ _ "000"%char "000"%char).
  - rewrite length_app, !length_load_list. reflexivity.
  - intros i Hi. rewrite length_load_list in Hi.
    rewrite nth_load_list by exact Hi.
    destruct (Nat.lt_ge_cases i n1) as [Hlt|Hge].
    + rewrite app_nth1 by (rewrite length_load_list; exact Hlt).
      rewrite nth_load_list by exact Hlt. reflexivity.
    + rewrite app_nth2 by (rewrite length_load_list; exact Hge).
      rewrite length_load_list, nth_load_list by lia.
      f_equal. lia.
Qed.

Lemma load_store_list (m : mem) (p : Z) (l : list ascii) :
  load_list (store_list m p l) p (List.length l) = l.
Proof.
  apply load_list_eq. intros i Hi. rewrite store_list_get.
  unfold len.
  destruct (p <=? p + Z.of_nat i) eqn:E1; [|lia].
  destruct (p + Z.of_nat i <? p + Z.of_nat (List.length l)) eqn:E2; [|lia].
  cbn [andb]. f_equal. lia.
Qed.

(** What the zero padding of both branches of [to_chars] leaves in
    memory: the digits [ds] written at [cf] are moved to the end of a
    field of [d] characters and the front of the field is filled with
    zeros. *)
Lemma pad_memory (m : mem) (cf d : Z) (ds : list ascii) :
  len ds <= d ->
  let k := len ds in
  let z := d - k in
  let m1 := store_list m cf ds in
  let m2 := std.ranges_copy m1 cf (cf + k) (cf + z) in
  let m3 := std.ranges_fill_n m2 cf z "0"%char in
  load_list m3 cf (Z.to_nat z + List.length ds) = repeat "0"%char (Z.to_nat z) ++ ds
  /\ forall q, q < cf \/ cf + d <= q -> m3 q = m q.
Proof.
  intros Hle k z m1 m2 m3.
  assert (Hk : k = Z.of_nat (List.length ds)) by reflexivity.
  assert (Hz : z = d - k) by reflexivity.
  assert (Hm3 : m3 = std.ranges_fill_n m2 cf z "0"%char) by reflexivity.
  assert (Hm1 : m1 = store_list m cf ds) by reflexivity.
  unfold len in Hle.
  assert (Hm2 : m2 = store_list m1 (cf + z) ds).
  { unfold m2, std.ranges_copy. f_equal.
    replace (Z.to_nat (cf + k - cf)) with (List.length ds) by lia.
    apply load_store_list. }
  clearbody m3 m2 m1 z k. subst k m3.
  split.
  - replace (Z.to_nat z + List.length ds)%nat
      with (List.length (repeat "0"%char (Z.to_nat z) ++ ds))
      by (rewrite length_app, repeat_length; reflexivity).
    apply load_list_eq. intros i Hi.
    rewrite length_app, repeat_length in Hi.
    unfold std.ranges_fill_n. rewrite store_list_get.
    unfold len at 1. rewrite repeat_length.
    destruct (Nat.lt_ge_cases i (Z.to_nat z)) as [Hlt|Hge].
    + destruct (cf <=? cf + Z.of_nat i) eqn:E1; [|zlia].
      destruct (cf + Z.of_nat i <? cf + Z.of_nat (Z.to_nat z)) eqn:E2; [|zlia].
      cbn [andb]. rewrite app_nth1 by (rewrite repeat_length; exact Hlt).
      f_equal. lia.
    + destruct (cf + Z.of_nat i <? cf + Z.of_nat (Z.to_nat z)) eqn:E2; [zlia|].
      rewrite andb_false_r, Hm2, store_list_get.
      destruct (cf + z <=? cf + Z.of_nat i) eqn:E3; [|zlia].
      destruct (cf + Z.of_nat i <? cf + z + len ds) eqn:E4; [|unfold len in E4; zlia].
      cbn [andb]. rewrite app_nth2 by (rewrite repeat_length; exact Hge).
      rewrite repeat_length. f_equal. lia.
  - intros q Hq. unfold std.ranges_fill_n.
    rewrite store_list_outside by (rewrite len_repeat; lia).
    rewrite Hm2, store_list_outside by (unfold len; lia).
    rewrite Hm1. apply store_list_outside. unfold len. lia.
Qed.

Lemma std_to_chars_unsigned_cases (m : mem) (cf last v base : Z) :
  let ds := std.digits base v in
  (std.to_chars_unsigned m cf last v base = (last, value_too_large, m)
   /\ last - cf < len ds)
  \/ (std.to_chars_unsigned m cf last v base
      = (cf + len ds, errc_none, store_list m cf ds)
      /\ len ds <= last - cf).
Proof.
  intros ds. unfold std.to_chars_unsigned. fold ds.
  destruct (last - cf <? len ds) eqn:E; [left|right]; (split; [reflexivity|lia]).
Qed.

Lemma wrote_std_to_chars_unsigned (m : mem) (cf last v base : Z) :
  wrote last m cf (std.digits base v)
        (Some (std.to_chars_unsigned m cf last v base)).
Proof.
  destruct (std_to_chars_unsigned_cases m cf last v base) as [[E H]|[E H]];
    rewrite E; eexists _, _, _; (split; [reflexivity|]).
  - right. split; [reflexivity|exact H].
  - left. repeat split.
    + apply load_store_list.
    + intros q Hq. apply store_list_outside, Hq.
Qed.

Lemma wrote_fail (last : Z) (m m' : mem) (cf p : Z) (s : list ascii) :
  last - cf < len s -> wrote last m cf s (Some (p, value_too_large, m')).
Proof.
  intros H. exists p, value_too_large, m'. split; [reflexivity|].
  right. split; [reflexivity|exact H].
Qed.

Lemma wrote_ok (last : Z) (m m' : mem) (cf : Z) (s : list ascii) :
  load_list m' cf (List.length s) = s ->
  (forall q, q < cf \/ cf + len s <= q -> m' q = m q) ->
  wrote last m cf s (Some (cf + len s, errc_none, m')).
Proof.
  intros H1 H2. eexists _, _, _. split; [reflexivity|]. left. auto.
Qed.

(** A formatter that continues after [s1] was written. *)
Lemma wrote_after (last : Z) (m m1 : mem) (cf : Z) (s1 s2 : list ascii)
      (r : option to_chars_result) :
  load_list m1 cf (List.length s1) = s1 ->
  (forall q, q < cf \/ cf + len s1 <= q -> m1 q = m q) ->
  wrote last m1 (cf + len s1) s2 r ->
  wrote last m cf (s1 ++ s2) r.
Proof.
  intros Hs1 Hframe (p & ec & m2 & -> & [(-> & -> & Hs2 & Hf2)|(-> & Hlt)]).
  - eexists _, _, _. split; [reflexivity|]. left.
    split; [reflexivity|]. split; [rewrite len_app; lia|]. split.
    + rewrite length_app, load_list_app. f_equal; [|exact Hs2].
      rewrite <- Hs1 at 2. apply load_list_ext.
      intros q Hq. apply Hf2. unfold len. lia.
    + intros q Hq. rewrite len_app in Hq.
      pose proof (len_nonneg s1). pose proof (len_nonneg s2).
      rewrite Hf2 by lia. apply Hframe. lia.
  - apply wrote_fail. rewrite len_app. lia.
Qed.

(** A formatter that gives up on a prefix gives up on the whole. *)
Lemma wrote_fail_prefix (last : Z) (m m' : mem) (cf p : Z) (s1 s2 : list ascii) :
  last - cf < len s1 ->
  wrote last m cf (s1 ++ s2) (Some (p, value_too_large, m')).
Proof.
  intros H. apply wrote_fail. rewrite len_app. pose proof (len_nonneg s2). lia.
Qed.

(** ** The pieces of [to_chars] *)


Section Padded.

Variables base d : Z.
Hypothesis Hbase : 2 <= base <= 36.
Hypothesis Hd : 0 < d.

Variable v : Z.
Hypothesis Hv : 0 <= v < base ^ d.
Hypothesis Hv64 : v < 2 ^ 64.

Lemma digits_fit : len (std.digits base v) <= d.
Proof. apply std_digits_length; (assumption || lia). Qed.

Lemma len_padded : len (padded base d v) = d.
Proof.
  unfold padded. cbv zeta. rewrite len_app, len_repeat.
  pose proof digits_fit. lia.
Qed.

Lemma valid_padded : valid_digits base (padded base d v).
Proof.
  unfold padded. cbv zeta. apply valid_digits_app.
  - apply valid_digits_zeros. lia.
  - apply std_digits_canonical; [assumption|lia].
Qed.

Lemma value_padded : std.digits_value base (padded base d v) = v.
Proof.
  unfold padded. cbv zeta. rewrite digits_value_app, digits_value_zeros.
  destruct (std_digits_canonical base v Hbase ltac:(lia)) as (_ & -> & _). lia.
Qed.

(** [std::to_chars] at [cf] followed by the zero padding. *)
Lemma pad_wrote (last : Z) (m : mem) (cf : Z) :
  let ds := std.digits base v in
  let k := len ds in
  let m1 := store_list m cf ds in
  let m2 := std.ranges_copy m1 cf (cf + k) (cf + (d - k)) in
  let m3 := std.ranges_fill_n m2 cf (d - k) "0"%char in
  wrote last m cf (padded base d v) (Some (cf + d, errc_none, m3)).
Proof.
  intros ds k m1 m2 m3.
  destruct (pad_memory m cf d ds digits_fit) as [Hload Hframe].
  replace (cf + d) with (cf + len (padded base d v))
    by (rewrite len_padded; reflexivity).
  apply wrote_ok.
  - unfold padded. fold ds. rewrite length_app, repeat_length. exact Hload.
  - rewrite len_padded. exact Hframe.
Qed.

End Padded.

(** ** The two kinds of bases *)

Lemma pow2_base_facts (b : Z) :
  2 <= b <= 36 -> is_pow_2 b = true ->
  let d := detail.u64_max_representable_digits b in
  let bpi := std.countr_zero (detail.u64_max_power b) in
  60 <= bpi <= 64
  /\ b ^ d = 2 ^ bpi
  /\ Z.rem 128 bpi = 128 - 2 * bpi
  /\ wrap 64 ((if bpi =? 64 then 0 else wrap 64 (Z.shiftl 1 bpi)) - 1) = Z.ones bpi
  /\ wrap 64 (wrap 64 (Z.shiftl 1 (128 - 2 * bpi)) - 1) = Z.ones (128 - 2 * bpi).
Proof.
  intros Hb Hp d bpi.
  bases_check
    (fun b =>
       let d := detail.u64_max_representable_digits b in
       let bpi := std.countr_zero (detail.u64_max_power b) in
       if is_pow_2 b then
         (60 <=? bpi) && (bpi <=? 64) && (b ^ d =? 2 ^ bpi)
         && (Z.rem 128 bpi =? 128 - 2 * bpi)
         && (wrap 64 ((if bpi =? 64 then 0 else wrap 64 (Z.shiftl 1 bpi)) - 1)
             =? Z.ones bpi)
         && (wrap 64 (wrap 64 (Z.shiftl 1 (128 - 2 * bpi)) - 1)
             =? Z.ones (128 - 2 * bpi))
       else true) b Hb H.
  rewrite Hp in H. fold d bpi in H.
  repeat (apply andb_prop in H; destruct H as [H ?]).
  zbool. repeat split; assumption.
Qed.

Lemma other_base_facts (b : Z) :
  2 <= b <= 36 -> is_pow_2 b = false ->
  let p := b ^ detail.u64_max_representable_digits b in
  detail.u64_max_power b = p /\ 2 ^ 58 <= p < 2 ^ 64.
Proof.
  intros Hb Hp p.
  bases_check
    (fun b =>
       let p := b ^ detail.u64_max_representable_digits b in
       if is_pow_2 b then true
       else (detail.u64_max_power b =? p) && (2 ^ 58 <=? p) && (p <? 2 ^ 64))
    b Hb H.
  rewrite Hp in H. fold p in H.
  repeat (apply andb_prop in H; destruct H as [H ?]).
  zbool. repeat split; assumption.
Qed.

Lemma wrap_small (w x : Z) : 0 <= x < 2 ^ w -> wrap w x = x.
Proof. intros H. unfold wrap. apply Z.mod_small, H. Qed.

(** The piece of [bpi] bits of [x] at bit [shift]. *)
Lemma piece_bits (x shift bpi : Z) :
  0 <= shift -> 0 <= bpi <= 64 ->
  Z.land (wrap 64 (Z.shiftr x shift)) (Z.ones bpi) = (x / 2 ^ shift) mod 2 ^ bpi.
Proof.
  intros Hs Hbpi. rewrite Z.land_ones by lia. unfold wrap.
  rewrite Z.shiftr_div_pow2 by lia.
  apply Z.mod_mod_divide.
  exists (2 ^ (64 - bpi)). rewrite <- Z.pow_add_r by lia. f_equal. lia.
Qed.

(** ** The loop of the power-of-two branch of [to_chars] *)

Lemma piece_range (x bpi shift : Z) : 0 <= bpi -> 0 <= piece x bpi shift < 2 ^ bpi.
Proof. intros H. apply Z.mod_pos_bound, Z.pow_pos_nonneg; lia. Qed.

Lemma piece_lt_64 (x bpi shift : Z) : 0 <= bpi <= 64 -> piece x bpi shift < 2 ^ 64.
Proof.
  intros H. pose proof (piece_range x bpi shift ltac:(lia)).
  assert (2 ^ bpi <= 2 ^ 64) by (apply Z.pow_le_mono_r; lia). lia.
Qed.

Section Pow2Loop.

Variables last x base d bpi : Z.
Hypothesis Hbase : 2 <= base <= 36.
Hypothesis Hd : 0 < d.
Hypothesis Hbpi : 0 <= bpi <= 64.
Hypothesis Hpow : base ^ d = 2 ^ bpi.

Lemma to_chars_pow2_loop_S (fuel : nat) (m : mem) (cf : Z) (fd : bool) (shift : Z) :
  to_chars_pow2_loop last x base d bpi (Z.ones bpi) (S fuel) m cf fd shift
  = let '(piece_ptr, piece_ec, m) :=
      std.to_chars_unsigned m cf last
        (Z.land (wrap 64 (Z.shiftr x shift)) (Z.ones bpi)) base in
    if negb (errc_eqb piece_ec errc_none) then Some (piece_ptr, piece_ec, m)
    else
      let zero_pad := d - (piece_ptr - cf) in
      let '(m, current_first) :=
        if negb fd && negb (zero_pad =? 0) then
          (std.ranges_fill_n
             (std.ranges_copy m cf piece_ptr (cf + zero_pad))
             cf zero_pad "0"%char,
           cf + d)
        else (m, piece_ptr) in
      if shift <=? 0 then Some (current_first, errc_none, m)
      else to_chars_pow2_loop last x base d bpi (Z.ones bpi) fuel m
             current_first false (shift - bpi).
Proof. reflexivity. Qed.

Lemma pow2_loop_wrote (fuel : nat) (m : mem) (cf : Z) (fd : bool)
      (shift : Z) (rest : list ascii) :
  0 <= shift ->
  (shift <= 0 -> rest = []) ->
  (0 < shift ->
   forall m' cf',
     wrote last m' cf' rest
           (to_chars_pow2_loop last x base d bpi (Z.ones bpi) fuel m' cf' false
                               (shift - bpi))) ->
  wrote last m cf (piece_str x base d bpi fd shift ++ rest)
        (to_chars_pow2_loop last x base d bpi (Z.ones bpi) (S fuel) m cf fd shift).
Proof.
  intros Hshift Hlast Hnext.
  rewrite to_chars_pow2_loop_S, piece_bits by lia. fold (piece x bpi shift).
  pose proof (piece_range x bpi shift ltac:(lia)) as Hrange.
  pose proof (piece_lt_64 x bpi shift Hbpi) as H64.
  assert (Hfit : len (std.digits base (piece x bpi shift)) <= d)
    by (apply digits_fit; (assumption || lia)).
  assert (Hlenstr : len (std.digits base (piece x bpi shift)) <= len (piece_str x base d bpi fd shift)).
  { unfold piece_str. destruct fd; [lia|].
    rewrite len_padded by (assumption || lia). exact Hfit. }
  destruct (std_to_chars_unsigned_cases m cf last (piece x bpi shift) base)
    as [[E Hlt]|[E Hge]]; rewrite E; cbn [errc_eqb negb].
  { apply wrote_fail_prefix. lia. }
  cbv zeta.
  set (ds := std.digits base (piece x bpi shift)) in *.
  (* the memory and the position after the padding *)
  assert (Hpiece :
            exists m1,
              (if negb fd && negb (d - (cf + len ds - cf) =? 0)
               then (std.ranges_fill_n
                       (std.ranges_copy (store_list m cf ds) cf (cf + len ds)
                                        (cf + (d - (cf + len ds - cf))))
                       cf (d - (cf + len ds - cf)) "0"%char, cf + d)
               else (store_list m cf ds, cf + len ds))
              = (m1, cf + len (piece_str x base d bpi fd shift))
              /\ load_list m1 cf (List.length (piece_str x base d bpi fd shift)) = piece_str x base d bpi fd shift
              /\ (forall q,
                     q < cf \/ cf + len (piece_str x base d bpi fd shift) <= q ->
                     m1 q = m q)).
  { replace (d - (cf + len ds - cf)) with (d - len ds) by lia.
    destruct (negb fd && negb (d - len ds =? 0)) eqn:Epad.
    - apply andb_prop in Epad. destruct Epad as [Efd _].
      destruct fd; [discriminate|]. unfold piece_str.
      destruct (pad_wrote base d Hbase Hd (piece x bpi shift) ltac:(lia) H64 last m cf)
        as (p & ec & m3 & Heq & [(_ & _ & Hload & Hframe)|(Habs & _)]);
        [|inversion Heq; subst; discriminate].
      inversion Heq; subst p ec m3. clear Heq.
      eexists. split; [|split; [exact Hload|exact Hframe]].
      rewrite len_padded by (assumption || lia). reflexivity.
    - exists (store_list m cf ds).
      assert (Estr : piece_str x base d bpi fd shift = ds).
      { unfold piece_str. destruct fd; [reflexivity|].
        cbn [negb andb] in Epad. apply negb_false_iff in Epad. zbool.
        unfold padded. fold ds. rewrite Epad. reflexivity. }
      rewrite Estr. split; [reflexivity|]. split.
      + apply load_store_list.
      + intros q Hq. apply store_list_outside, Hq. }
  destruct Hpiece as (m1 & -> & Hload & Hframe).
  destruct (shift <=? 0) eqn:Es; zbool.
  - rewrite (Hlast Es), app_nil_r. apply wrote_ok; assumption.
  - eapply wrote_after; [exact Hload|exact Hframe|]. apply Hnext. lia.
Qed.

End Pow2Loop.

(** ** [to_chars] for [uint128_t] *)

Lemma to_chars_u128_rec_S (fuel : nat) (m : mem) (first last x base : Z) :
  to_chars_u128_rec (S fuel) m first last x base
  = if x <=? wrap 64 (-1) then
      Some (std.to_chars_unsigned m first last (wrap 64 x) base)
    else if first =? last then Some (last, value_too_large, m)
    else if is_pow_2 base then to_chars_pow2_branch m first last x base
    else to_chars_div_branch
           (to_chars_u128_rec fuel m first last (x / detail.u64_max_power base) base)
           last x base.
Proof. reflexivity. Qed.

Lemma canonical_eq (base : Z) (s : list ascii) (v x : Z) :
  canonical base s v -> v = x -> canonical base s x.
Proof. intros H <-. exact H. Qed.

Lemma canonical_app_padded (base d : Z) (s : list ascii) (q v : Z) :
  2 <= base <= 36 -> 0 < d -> 0 <= v < base ^ d -> v < 2 ^ 64 ->
  canonical base s q -> q <> 0 ->
  canonical base (s ++ padded base d v) (q * base ^ d + v).
Proof.
  intros Hb Hd Hv H64 (Hvalid & Hval & Hne & _ & Hhd) Hq.
  assert (0 <= q) by (rewrite <- Hval; apply digits_value_bounds; [lia|assumption]).
  assert (0 < base ^ d) by (apply Z.pow_pos_nonneg; lia).
  repeat split.
  - apply valid_digits_app; [assumption|]. apply valid_padded; assumption.
  - rewrite digits_value_app, len_padded, value_padded, Hval by assumption.
    reflexivity.
  - destruct s; [congruence|discriminate].
  - intros Hz. nia.
  - intros _. destruct s as [|c s]; [congruence|]. apply Hhd, Hq.
Qed.

(** The three pieces of a 128-bit value for a field of [bpi] bits. *)
Lemma three_pieces (x bpi : Z) :
  0 <= x -> 0 <= bpi ->
  x = (x / 2 ^ (2 * bpi) * 2 ^ bpi + (x / 2 ^ bpi) mod 2 ^ bpi) * 2 ^ bpi
      + (x / 2 ^ 0) mod 2 ^ bpi.
Proof.
  intros Hx Hbpi.
  assert (Hq : 0 < 2 ^ bpi) by (apply Z.pow_pos_nonneg; lia).
  replace (2 * bpi) with (bpi + bpi) by lia.
  rewrite Z.pow_add_r, <- Z.div_div by lia.
  rewrite Z.pow_0_r, Z.div_1_r.
  pose proof (Z.div_mod x (2 ^ bpi) ltac:(lia)).
  pose proof (Z.div_mod (x / 2 ^ bpi) (2 ^ bpi) ltac:(lia)).
  lia.
Qed.

Lemma pow2_branch_wrote (base x : Z) :
  2 <= base <= 36 -> is_pow_2 base = true -> 2 ^ 64 <= x < 2 ^ 128 ->
  exists s,
    canonical base s x
    /\ forall m first last,
        wrote last m first s (to_chars_pow2_branch m first last x base).
Proof.
  intros Hb Hp Hx.
  destruct (pow2_base_facts base Hb Hp) as (Hbpi & Hpow & Hrem & Hmask & Hhmask).
  destruct (max_digits_bounds base Hb) as (Hd & _).
  unfold to_chars_pow2_branch. cbv zeta.
  set (d := detail.u64_max_representable_digits base) in *.
  set (bpi := std.countr_zero (detail.u64_max_power base)) in *.
  rewrite Hrem, Hmask, Hhmask.
  replace (128 - (128 - 2 * bpi) - bpi) with bpi by lia.
  replace (128 - (128 - 2 * bpi)) with (2 * bpi) by lia.
  rewrite piece_bits by lia.
  assert (Hq : 0 < 2 ^ bpi) by (apply Z.pow_pos_nonneg; lia).
  assert (Hq64 : 2 ^ bpi <= 2 ^ 64) by (apply Z.pow_le_mono_r; lia).
  assert (Hhead : 0 <= x / 2 ^ (2 * bpi) < 2 ^ (128 - 2 * bpi)).
  { split; [apply Z.div_pos; [lia|apply Z.pow_pos_nonneg; lia]|].
    apply Z.div_lt_upper_bound; [apply Z.pow_pos_nonneg; lia|].
    rewrite <- Z.pow_add_r by lia. replace (2 * bpi + (128 - 2 * bpi)) with 128 by lia.
    lia. }
  assert (Hhead8 : 2 ^ (128 - 2 * bpi) <= 2 ^ 8) by (apply Z.pow_le_mono_r; lia).
  rewrite (Z.mod_small _ _ Hhead).
  set (h := x / 2 ^ (2 * bpi)) in *.
  (* the two iterations of the loop *)
  assert (Hloop : forall last m cf fd,
             wrote last m cf
                   (piece_str x base d bpi fd bpi
                    ++ piece_str x base d bpi false (bpi - bpi) ++ [])
                   (to_chars_pow2_loop last x base d bpi (Z.ones bpi) 129 m cf fd bpi)).
  { intros last m cf fd.
    apply pow2_loop_wrote; try (assumption || lia).
    intros _ m' cf'.
    apply pow2_loop_wrote; try (assumption || lia); reflexivity. }
  replace (bpi - bpi) with 0 in Hloop by lia.
  pose proof (three_pieces x bpi ltac:(lia) ltac:(lia)) as Hx3.
  fold h in Hx3. fold (piece x bpi bpi) in Hx3. fold (piece x bpi 0) in Hx3.

  pose proof (piece_range x bpi bpi ltac:(lia)) as Hp1.
  pose proof (piece_range x bpi 0 ltac:(lia)) as Hp0.
  rewrite <- Hpow in Hx3, Hp1, Hp0.
  destruct (negb (128 - 2 * bpi =? 0) && negb (h =? 0)) eqn:Ehead.
  - apply andb_prop in Ehead. destruct Ehead as [_ Eh].
    apply negb_true_iff in Eh. zbool.
    exists (std.digits base h
            ++ piece_str x base d bpi false bpi
            ++ piece_str x base d bpi false 0 ++ []).
    split.
    + rewrite app_nil_r, app_assoc. unfold piece_str.
      eapply canonical_eq; [|symmetry; exact Hx3].
      apply canonical_app_padded; try (assumption || lia).
      apply canonical_app_padded; try (assumption || lia).
      apply std_digits_canonical; [assumption|lia].
    + intros m first last.
      destruct (wrote_std_to_chars_unsigned m first last h base)
        as (p & ec & m1 & Heq & [(-> & -> & Hload & Hframe)|(-> & Hlt)]);
        inversion Heq as [Heq']; rewrite Heq'; cbn [errc_eqb negb].
      * eapply wrote_after; [exact Hload|exact Hframe|apply Hloop].
      * apply wrote_fail_prefix, Hlt.
  - assert (Hh0 : h = 0).
    { apply andb_false_iff in Ehead.
      destruct Ehead as [E|E]; apply negb_false_iff in E; zbool; [|exact E].
      rewrite E in Hhead. change (2 ^ 0) with 1 in Hhead. lia. }
    exists (piece_str x base d bpi true bpi ++ piece_str x base d bpi false 0 ++ []).
    split; [|intros m first last; apply Hloop].
    rewrite app_nil_r. unfold piece_str.
    rewrite Hh0 in Hx3. cbn [Z.mul Z.add] in Hx3.
    assert (piece x bpi bpi <> 0).
    { intros E0. rewrite E0 in Hx3. rewrite Hpow in Hp0. lia. }
    eapply canonical_eq; [|symmetry; exact Hx3].
    apply canonical_app_padded; try (assumption || lia).
    apply std_digits_canonical; [assumption|]. rewrite Hpow in Hp1. lia.
Qed.

Lemma div_branch_wrote (base x : Z) (su : list ascii) :
  2 <= base <= 36 -> is_pow_2 base = false -> 2 ^ 64 <= x ->
  canonical base su (x / detail.u64_max_power base) ->
  exists s,
    canonical base s x
    /\ forall m first last upper,
        wrote last m first su upper ->
        wrote last m first s (to_chars_div_branch upper last x base).
Proof.
  intros Hb Hp Hx Hsu.
  destruct (other_base_facts base Hb Hp) as (Hmp & Hrange).
  destruct (max_digits_bounds base Hb) as (Hd & _).
  unfold to_chars_div_branch. cbv zeta. rewrite Hmp.
  set (d := detail.u64_max_representable_digits base) in *.
  set (P := base ^ d) in *. rewrite Hmp in Hsu.
  assert (Hmod : 0 <= x mod P < P) by (apply Z.mod_pos_bound; lia).
  assert (Hquot : x / P <> 0).
  { intros E. pose proof (Z.div_mod x P ltac:(lia)). rewrite E in H. lia. }
  rewrite wrap_small by lia.
  exists (su ++ padded base d (x mod P)). split.
  - eapply canonical_eq;
      [apply canonical_app_padded; try (eassumption || lia)|].
    fold P. pose proof (Z.div_mod x P ltac:(lia)). lia.
  - intros m first last upper
           (p & ec & m1 & -> & [(-> & -> & Hload & Hframe)|(-> & Hlt)]);
      cbn [errc_eqb negb]; [|apply wrote_fail_prefix, Hlt].
    eapply wrote_after; [exact Hload|exact Hframe|].
    assert (Hfit : len (std.digits base (x mod P)) <= d)
      by (apply digits_fit; (assumption || lia)).
    destruct (std_to_chars_unsigned_cases m1 (first + len su) last (x mod P) base)
      as [[E Hlt]|[E Hge]]; rewrite E; cbn [errc_eqb negb].
    + apply wrote_fail. rewrite len_padded by (assumption || lia). lia.
    + set (ds := std.digits base (x mod P)) in *.
      replace (first + len su + len ds - (first + len su)) with (len ds) by lia.
      replace (first + len su + d - len ds) with (first + len su + (d - len ds)) by lia.
      apply pad_wrote; (assumption || lia).
Qed.

Lemma to_chars_u128_rec_wrote (base : Z) :
  2 <= base <= 36 ->
  forall fuel x,
    0 <= x < 2 ^ 128 -> x < 2 ^ Z.of_nat fuel -> (0 < fuel)%nat ->
    exists s,
      canonical base s x
      /\ forall m first last,
          wrote last m first s (to_chars_u128_rec fuel m first last x base).
Proof.
  intros Hb. induction fuel as [|fuel IH]; intros x Hx Hfuel Hpos; [lia|].
  change (wrap 64 (-1)) with (2 ^ 64 - 1) in *.
  destruct (x <=? 2 ^ 64 - 1) eqn:E64; zbool.
  - exists (std.digits base x). split.
    + apply std_digits_canonical; [assumption|lia].
    + intros m first last. rewrite to_chars_u128_rec_S.
      change (wrap 64 (-1)) with (2 ^ 64 - 1).
      apply Z.leb_le in E64. rewrite E64, wrap_small by lia.
      apply wrote_std_to_chars_unsigned.
  - destruct (is_pow_2 base) eqn:Ep.
    + destruct (pow2_branch_wrote base x Hb Ep ltac:(lia)) as (s & Hs & Hw).
      exists s. split; [exact Hs|].
      intros m first last. rewrite to_chars_u128_rec_S.
      change (wrap 64 (-1)) with (2 ^ 64 - 1).
      apply Z.leb_gt in E64. rewrite E64, Ep.
      destruct (first =? last) eqn:Efl; zbool; [|apply Hw].
      apply wrote_fail. pose proof (canonical_len_pos base s x Hs). lia.
    + destruct (other_base_facts base Hb Ep) as (Hmp & Hrange).
      assert (Hfuel' : (64 <= fuel)%nat).
      { destruct (Nat.lt_ge_cases fuel 64) as [Hlt|]; [|assumption].
        assert (2 ^ Z.of_nat (S fuel) <= 2 ^ 64) by (apply Z.pow_le_mono_r; lia).
        lia. }
      destruct (IH (x / detail.u64_max_power base)) as (su & Hsu & Hwu).
      * split; [apply Z.div_pos; lia|].
        apply Z.div_lt_upper_bound; [lia|]. nia.
      * apply Z.div_lt_upper_bound; [lia|].
        rewrite Nat2Z.inj_succ, Z.pow_succ_r in Hfuel by lia.
        assert (0 < 2 ^ Z.of_nat fuel) by (apply Z.pow_pos_nonneg; lia). nia.
      * lia.
      * destruct (div_branch_wrote base x su Hb Ep ltac:(lia) Hsu) as (s & Hs & Hw).
        exists s. split; [exact Hs|].
        intros m first last. rewrite to_chars_u128_rec_S.
        change (wrap 64 (-1)) with (2 ^ 64 - 1).
        apply Z.leb_gt in E64. rewrite E64, Ep.
        destruct (first =? last) eqn:Efl; zbool; [|apply Hw, Hwu].
        apply wrote_fail. pose proof (canonical_len_pos base s x Hs). lia.
Qed.

(** ** Spans *)

Lemma firstn_subspan (s : list ascii) (a b : Z) :
  0 <= a <= b ->
  firstn (Z.to_nat b) s = firstn (Z.to_nat a) s ++ subspan s a b.
Proof.
  intros H. unfold subspan.
  rewrite <- (firstn_skipn (Z.to_nat a) (firstn (Z.to_nat b) s)).
  f_equal.
  - rewrite firstn_firstn. f_equal. lia.
  - rewrite skipn_firstn_comm. f_equal. lia.
Qed.

Lemma len_subspan (s : list ascii) (a b : Z) :
  0 <= a <= b -> b <= len s -> len (subspan s a b) = b - a.
Proof.
  unfold len, subspan. intros H1 H2. rewrite length_firstn, length_skipn. lia.
Qed.

Lemma valid_firstn (base : Z) (s : list ascii) (n : nat) :
  valid_digits base s -> valid_digits base (firstn n s).
Proof.
  intros H. unfold valid_digits in *.
  rewrite <- (firstn_skipn n s) in H. apply Forall_app in H. apply H.
Qed.

(** ** The loops of [from_chars] on the pattern of a span *)

Lemma lor_disjoint (a b n : Z) :
  0 <= n -> 0 <= a < 2 ^ n -> Z.lor a (b * 2 ^ n) = a + b * 2 ^ n.
Proof.
  intros Hn Ha. rewrite <- Z.add_lor_land.
  replace (Z.land a (b * 2 ^ n)) with 0; [lia|].
  symmetry. apply Z.bits_inj'. intros i Hi.
  rewrite Z.land_spec, Z.bits_0.
  destruct (Z.lt_ge_cases i n) as [Hlt|Hge].
  - rewrite Z.mul_pow2_bits_low by exact Hlt. apply andb_false_r.
  - rewrite <- (Z.mod_small a (2 ^ n)) by exact Ha.
    rewrite Z.mod_pow2_bits_high by lia. reflexivity.
Qed.

Lemma pattern_end_range (s : list ascii) (base : Z) :
  0 <= pattern_end s base <= len s.
Proof.
  unfold pattern_end, len. pose proof (pattern_length_le base s). lia.
Qed.

Lemma valid_firstn_pattern (base : Z) (s : list ascii) (k : Z) :
  k <= pattern_end s base -> valid_digits base (firstn (Z.to_nat k) s).
Proof.
  intros Hk.
  replace (firstn (Z.to_nat k) s)
    with (firstn (Z.to_nat k) (firstn (detail.pattern_length s base) s)).
  - apply valid_firstn, pattern_prefix_valid.
  - rewrite firstn_firstn. f_equal. unfold pattern_end in Hk. lia.
Qed.

Lemma valid_subspan_pattern (base : Z) (s : list ascii) (a b : Z) :
  0 <= a <= b -> b <= pattern_end s base -> valid_digits base (subspan s a b).
Proof.
  intros Hab Hb. pose proof (valid_firstn_pattern base s b Hb) as H.
  rewrite (firstn_subspan s a b Hab) in H. apply Forall_app in H. apply H.
Qed.

(** The number of bits of a 64-bit value, as the power-of-two loop
    computes it. *)
Lemma added_digits_spec (v : Z) :
  0 <= v ->
  0 <= 64 - std.countl_zero v /\ v < 2 ^ (64 - std.countl_zero v)
  /\ (v <> 0 -> 2 ^ (64 - std.countl_zero v - 1) <= v).
Proof.
  intros Hv. unfold std.countl_zero.
  destruct (v =? 0) eqn:E; zbool.
  - subst v. cbn. lia.
  - pose proof (Z.log2_nonneg v). pose proof (Z.log2_spec v ltac:(lia)) as Hs.
    replace (64 - (63 - Z.log2 v)) with (Z.succ (Z.log2 v)) by lia.
    replace (Z.succ (Z.log2 v) - 1) with (Z.log2 v) by lia. lia.
Qed.

Section FromCharsOnPattern.

Variable s : list ascii.
Variables out base : Z.
Hypothesis Hbase : 2 <= base <= 36.

Let d := detail.u64_max_representable_digits base.
Let n := pattern_end s base.

Lemma prefix_value_0 : prefix_value s base 0 = 0.
Proof. reflexivity. Qed.

Lemma prefix_value_nonneg (k : Z) : k <= n -> 0 <= prefix_value s base k.
Proof.
  intros Hk. apply digits_value_bounds; [lia|]. apply valid_firstn_pattern, Hk.
Qed.

(** The chunk that an iteration of either loop hands to
    [std::from_chars]. *)
Lemma chunk_parse (cl : Z) :
  0 < cl <= n ->
  let ll := Z.min (cl - 0) d in
  let chunk := subspan s (cl - ll) cl in
  let vc := std.digits_value base chunk in
  1 <= ll <= d /\ ll <= cl
  /\ std.from_chars_unsigned 64 chunk 0 base = (ll, errc_none, vc)
  /\ 0 <= vc < base ^ ll
  /\ base ^ ll <= base ^ d
  /\ prefix_value s base cl = prefix_value s base (cl - ll) * base ^ ll + vc.
Proof.
  intros Hcl ll chunk vc.
  destruct (max_digits_bounds base Hbase) as (Hd & Hle & _). fold d in Hd, Hle.
  pose proof (pattern_end_range s base) as Hn. fold n in Hn.
  assert (Hll : 1 <= ll <= d /\ ll <= cl) by (unfold ll; lia).
  assert (Hlen : len chunk = ll).
  { unfold chunk. rewrite len_subspan by lia. lia. }
  assert (Hvc : valid_digits base chunk)
    by (apply valid_subspan_pattern; fold n; lia).
  assert (Hbound : 0 <= vc < base ^ ll).
  { rewrite <- Hlen. apply digits_value_bounds; [lia|exact Hvc]. }
  assert (Hpow : base ^ ll <= base ^ d) by (apply Z.pow_le_mono_r; lia).
  repeat split; try lia.
  - rewrite <- Hlen. apply std_from_chars_unsigned_valid; [exact Hvc| |fold vc; lia].
    intros E. rewrite E in Hlen. unfold len in Hlen. simpl in Hlen. lia.
  - unfold prefix_value. rewrite (firstn_subspan s (cl - ll) cl) by lia.
    rewrite digits_value_app. fold chunk vc. rewrite Hlen. reflexivity.
Qed.

Lemma from_chars_mul_loop_S (max_pow : Z) (fuel : nat) (cl result factor : Z) :
  from_chars_mul_loop s out base n max_pow d (S fuel) cl result factor
  = let lower_length := Z.min (cl - 0) d in
    let '(_, partial_ec, digits) :=
      std.from_chars_unsigned 64 (subspan s (cl - lower_length) cl) 0 base in
    if 2 ^ 128 <=? factor * digits then Some (n, result_out_of_range, out)
    else if 2 ^ 128 <=? result + wrap 128 (factor * digits)
         then Some (n, result_out_of_range, out)
         else if (cl - 0 <=? d) || negb (errc_eqb partial_ec errc_none)
              then Some (n, partial_ec, wrap 128 (result + wrap 128 (factor * digits)))
              else from_chars_mul_loop s out base n max_pow d fuel
                     (cl - lower_length)
                     (wrap 128 (result + wrap 128 (factor * digits)))
                     (wrap 128 (factor * max_pow)).
Proof. reflexivity. Qed.

(** The loop of the arbitrary-base branch adds up the value of the
    digits it is given, whatever the number of leading zeros: the
    factor wraps around only when the digits left are all zero. *)
Lemma from_chars_mul_loop_correct :
  is_pow_2 base = false ->
  forall (fuel : nat) (cl result f : Z),
    0 < cl <= n -> cl <= Z.of_nat fuel ->
    0 <= result -> 1 <= f ->
    prefix_value s base cl * f + result < 2 ^ 128 ->
    from_chars_mul_loop s out base n (detail.u64_max_power base) d
                        fuel cl result (f mod 2 ^ 128)
    = Some (n, errc_none, prefix_value s base cl * f + result).
Proof.
  intros Hp. destruct (other_base_facts base Hbase Hp) as (Hmp & Hrange).
  fold d in Hmp, Hrange. rewrite Hmp.
  induction fuel as [|fuel IH]; intros cl result f Hcl Hfuel Hres Hf Hlt; [lia|].
  rewrite from_chars_mul_loop_S. cbv zeta.
  destruct (chunk_parse cl Hcl) as (Hll & Hllcl & -> & Hvc & Hpow & Hsplit).
  set (ll := Z.min (cl - 0) d) in *.
  set (vc := std.digits_value base (subspan s (cl - ll) cl)) in *.
  pose proof (prefix_value_nonneg (cl - ll) ltac:(lia)) as Hprev.
  assert (Hpll : 0 < base ^ ll) by (apply Z.pow_pos_nonneg; lia).
  assert (Hprod : (f mod 2 ^ 128) * vc = f * vc /\ f * vc <= prefix_value s base cl * f).
  { destruct (Z.eq_dec vc 0) as [->|Hne]; [split; nia|].
    rewrite Z.mod_small; [split; nia|]. split; [lia|nia]. }
  destruct Hprod as [-> Hprod].
  assert (E1 : (2 ^ 128 <=? f * vc) = false) by (apply Z.leb_gt; nia).
  rewrite E1, (wrap_small 128 (f * vc)) by nia.
  assert (E2 : (2 ^ 128 <=? result + f * vc) = false) by (apply Z.leb_gt; nia).
  rewrite E2, (wrap_small 128 (result + f * vc)) by nia.
  cbn [errc_eqb negb]. rewrite orb_false_r.
  destruct (cl - 0 <=? d) eqn:Eexit; zbool.
  - assert (cl - ll = 0) by (unfold ll; lia).
    rewrite H, prefix_value_0 in Hsplit. do 2 f_equal. rewrite Hsplit. lia.
  - assert (Ell : ll = d) by (unfold ll; lia).
    unfold wrap. rewrite Z.mul_mod_idemp_l by lia.
    rewrite Ell in *.
    rewrite IH; try lia; try nia.
    do 2 f_equal. rewrite Hsplit. lia.
Qed.

(** As long as the factor has not wrapped around, the loop of the
    arbitrary-base branch reports a value of [2^128] or more. *)
Lemma from_chars_mul_loop_overflow :
  is_pow_2 base = false ->
  forall (fuel : nat) (cl result f : Z),
    0 < cl <= n -> cl <= Z.of_nat fuel ->
    0 <= result < 2 ^ 128 -> 1 <= f ->
    f * (base ^ d) ^ ((cl - 1) / d) < 2 ^ 128 ->
    2 ^ 128 <= prefix_value s base cl * f + result ->
    from_chars_mul_loop s out base n (detail.u64_max_power base) d
                        fuel cl result f
    = Some (n, result_out_of_range, out).
Proof.
  intros Hp. destruct (other_base_facts base Hbase Hp) as (Hmp & Hrange).
  destruct (max_digits_bounds base Hbase) as (Hd & _).
  fold d in Hmp, Hrange, Hd. rewrite Hmp.
  induction fuel as [|fuel IH]; intros cl result f Hcl Hfuel Hres Hf Hfac Hge; [lia|].
  rewrite from_chars_mul_loop_S. cbv zeta.
  destruct (chunk_parse cl Hcl) as (Hll & Hllcl & -> & Hvc & Hpow & Hsplit).
  set (ll := Z.min (cl - 0) d) in *.
  set (vc := std.digits_value base (subspan s (cl - ll) cl)) in *.
  pose proof (prefix_value_nonneg (cl - ll) ltac:(lia)) as Hprev.
  destruct (2 ^ 128 <=? f * vc) eqn:E1; [reflexivity|]. zbool.
  rewrite (wrap_small 128 (f * vc)) by nia.
  destruct (2 ^ 128 <=? result + f * vc) eqn:E2; [reflexivity|]. zbool.
  rewrite (wrap_small 128 (result + f * vc)) by nia.
  cbn [errc_eqb negb]. rewrite orb_false_r.
  destruct (cl - 0 <=? d) eqn:Eexit; zbool.
  - exfalso. assert (cl - ll = 0) by (unfold ll; lia).
    rewrite H, prefix_value_0 in Hsplit. rewrite Hsplit in Hge. lia.
  - assert (Ell : ll = d) by (unfold ll; lia). rewrite Ell in *.
    assert (Hdiv : (cl - 1) / d = (cl - d - 1) / d + 1).
    { replace (cl - 1) with (cl - d - 1 + 1 * d) by lia.
      rewrite Z.div_add by lia. reflexivity. }
    assert (Hq : 0 <= (cl - d - 1) / d) by (apply Z.div_pos; lia).
    rewrite Hdiv, Z.pow_add_r, Z.pow_1_r in Hfac by lia.
    assert (Hpq : 0 < (base ^ d) ^ ((cl - d - 1) / d))
      by (apply Z.pow_pos_nonneg; lia).
    rewrite wrap_small by nia.
    apply IH; try lia; try nia.
Qed.

Lemma from_chars_pow2_loop_S (bpi : Z) (fuel : nat) (cl result shift : Z) :
  from_chars_pow2_loop s out base n d (S fuel) bpi cl result shift
  = let lower_length := Z.min (cl - 0) d in
    let '(partial_ptr, partial_ec, digits) :=
      std.from_chars_unsigned 64 (subspan s (cl - lower_length) cl) 0 base in
    if negb (errc_eqb partial_ec errc_none)
    then Some (cl - lower_length + partial_ptr, partial_ec, out)
    else if shift + (64 - std.countl_zero digits) >? 128
         then Some (n, result_out_of_range, out)
         else if (cl - 0 <=? d) || negb (errc_eqb partial_ec errc_none)
              then Some (n, partial_ec,
                         Z.lor result (wrap 128 (Z.shiftl digits shift)))
              else from_chars_pow2_loop s out base n d fuel bpi
                     (cl - lower_length)
                     (Z.lor result (wrap 128 (Z.shiftl digits shift)))
                     (shift + bpi).
Proof. reflexivity. Qed.

(** The loop of the power-of-two branch puts the chunks side by side,
    as long as the last chunk starts within the 128 bits. *)
Lemma from_chars_pow2_loop_correct :
  is_pow_2 base = true ->
  let bpi := std.countr_zero (detail.u64_max_power base) in
  forall (fuel : nat) (cl result shift : Z),
    0 < cl <= n -> cl <= Z.of_nat fuel ->
    0 <= shift -> 0 <= result < 2 ^ shift ->
    shift + bpi * ((cl - 1) / d) <= 128 ->
    prefix_value s base cl * 2 ^ shift + result < 2 ^ 128 ->
    from_chars_pow2_loop s out base n d fuel bpi cl result shift
    = Some (n, errc_none, prefix_value s base cl * 2 ^ shift + result).
Proof.
  intros Hp bpi.
  destruct (pow2_base_facts base Hbase Hp) as (Hbpi & Hpow & _).
  destruct (max_digits_bounds base Hbase) as (Hd & _).
  fold d in Hd, Hpow. fold bpi in Hbpi, Hpow.
  induction fuel as [|fuel IH];
    intros cl result shift Hcl Hfuel Hshift Hres Htop Hlt; [lia|].
  rewrite from_chars_pow2_loop_S. cbv zeta.
  destruct (chunk_parse cl Hcl) as (Hll & Hllcl & -> & Hvc & Hple & Hsplit).
  set (ll := Z.min (cl - 0) d) in *.
  set (vc := std.digits_value base (subspan s (cl - ll) cl)) in *.
  cbn [errc_eqb negb]. rewrite orb_false_r.
  pose proof (prefix_value_nonneg (cl - ll) ltac:(lia)) as Hprev.
  assert (Hpll : 0 < base ^ ll) by (apply Z.pow_pos_nonneg; lia).
  assert (Hps : 0 < 2 ^ shift) by (apply Z.pow_pos_nonneg; lia).
  assert (Hdiv : 0 <= (cl - 1) / d) by (apply Z.div_pos; lia).
  assert (Hvs : vc * 2 ^ shift < 2 ^ 128) by nia.
  assert (Hadd : shift + (64 - std.countl_zero vc) <= 128).
  { unfold std.countl_zero. destruct (vc =? 0) eqn:E; zbool; [nia|].
    assert (Z.log2 (vc * 2 ^ shift) < 128) by (apply Z.log2_lt_pow2; lia).
    rewrite Z.log2_mul_pow2 in H by lia. lia. }
  assert (E1 : (shift + (64 - std.countl_zero vc) >? 128) = false)
    by (rewrite Z.gtb_ltb; apply Z.ltb_ge; exact Hadd).
  rewrite E1, Z.shiftl_mul_pow2, (wrap_small 128 (vc * 2 ^ shift)) by nia.
  rewrite lor_disjoint by lia.
  destruct (cl - 0 <=? d) eqn:Eexit; zbool.
  - assert (cl - ll = 0) by (unfold ll; lia).
    rewrite H, prefix_value_0 in Hsplit. do 2 f_equal. rewrite Hsplit. lia.
  - assert (Ell : ll = d) by (unfold ll; lia).
    rewrite Ell, Hpow in *.
    assert (Hpb : 0 < 2 ^ bpi) by (apply Z.pow_pos_nonneg; lia).
    assert (Hdiv' : (cl - d - 1) / d = (cl - 1) / d - 1).
    { replace (cl - d - 1) with (cl - 1 + (-1) * d) by lia.
      rewrite Z.div_add by lia. lia. }
    assert (Hnext : prefix_value s base (cl - d) * 2 ^ (shift + bpi)
                    + (result + vc * 2 ^ shift)
                    = prefix_value s base cl * 2 ^ shift + result)
      by (rewrite Hsplit, Z.pow_add_r by lia; lia).
    rewrite IH; try lia.
    + do 2 f_equal. exact Hnext.
    + rewrite Z.pow_add_r by lia. nia.
Qed.

(** The loop of the power-of-two branch reports every value of [2^128]
    or more. *)
Lemma from_chars_pow2_loop_overflow :
  is_pow_2 base = true ->
  let bpi := std.countr_zero (detail.u64_max_power base) in
  forall (fuel : nat) (cl result shift : Z),
    0 < cl <= n -> cl <= Z.of_nat fuel ->
    0 <= shift -> 0 <= result < 2 ^ shift ->
    2 ^ 128 <= prefix_value s base cl * 2 ^ shift + result ->
    from_chars_pow2_loop s out base n d fuel bpi cl result shift
    = Some (n, result_out_of_range, out).
Proof.
  intros Hp bpi.
  destruct (pow2_base_facts base Hbase Hp) as (Hbpi & Hpow & _).
  destruct (max_digits_bounds base Hbase) as (Hd & _).
  fold d in Hd, Hpow. fold bpi in Hbpi, Hpow.
  induction fuel as [|fuel IH];
    intros cl result shift Hcl Hfuel Hshift Hres Hge; [lia|].
  rewrite from_chars_pow2_loop_S. cbv zeta.
  destruct (chunk_parse cl Hcl) as (Hll & Hllcl & -> & Hvc & Hple & Hsplit).
  set (ll := Z.min (cl - 0) d) in *.
  set (vc := std.digits_value base (subspan s (cl - ll) cl)) in *.
  cbn [errc_eqb negb]. rewrite orb_false_r.
  destruct (shift + (64 - std.countl_zero vc) >? 128) eqn:E1; [reflexivity|]. zbool.
  destruct (added_digits_spec vc ltac:(lia)) as (Hb0 & Hb1 & _).
  set (bits := 64 - std.countl_zero vc) in *.
  assert (Hps : 0 < 2 ^ shift) by (apply Z.pow_pos_nonneg; lia).
  assert (Hsum : 2 ^ bits * 2 ^ shift <= 2 ^ 128).
  { rewrite <- Z.pow_add_r by lia. apply Z.pow_le_mono_r; lia. }
  rewrite Z.shiftl_mul_pow2, (wrap_small 128 (vc * 2 ^ shift)) by nia.
  rewrite lor_disjoint by lia.
  destruct (cl - 0 <=? d) eqn:Eexit; zbool.
  - exfalso. assert (cl - ll = 0) by (unfold ll; lia).
    rewrite H, prefix_value_0 in Hsplit. rewrite Hsplit in Hge. nia.
  - assert (Ell : ll = d) by (unfold ll; lia).
    rewrite Ell, Hpow in *.
    assert (Hpb : 0 < 2 ^ bpi) by (apply Z.pow_pos_nonneg; lia).
    apply IH; try lia.
    + rewrite Z.pow_add_r by lia. nia.
    + rewrite Z.pow_add_r by lia. rewrite Hsplit in Hge. nia.
Qed.

(** The loop of the power-of-two branch reports a range error, whatever
    the value, when the leading chunk starts beyond the 128 bits. *)
Lemma from_chars_pow2_loop_far :
  is_pow_2 base = true ->
  let bpi := std.countr_zero (detail.u64_max_power base) in
  forall (fuel : nat) (cl result shift : Z),
    0 < cl <= n -> cl <= Z.of_nat fuel ->
    128 < shift + bpi * ((cl - 1) / d) ->
    from_chars_pow2_loop s out base n d fuel bpi cl result shift
    = Some (n, result_out_of_range, out).
Proof.
  intros Hp bpi.
  destruct (pow2_base_facts base Hbase Hp) as (Hbpi & Hpow & _).
  destruct (max_digits_bounds base Hbase) as (Hd & _).
  fold d in Hd, Hpow. fold bpi in Hbpi, Hpow.
  induction fuel as [|fuel IH]; intros cl result shift Hcl Hfuel Hfar; [lia|].
  rewrite from_chars_pow2_loop_S. cbv zeta.
  destruct (chunk_parse cl Hcl) as (Hll & Hllcl & -> & Hvc & Hple & Hsplit).
  set (ll := Z.min (cl - 0) d) in *.
  set (vc := std.digits_value base (subspan s (cl - ll) cl)) in *.
  cbn [errc_eqb negb]. rewrite orb_false_r.
  destruct (shift + (64 - std.countl_zero vc) >? 128) eqn:E1; [reflexivity|]. zbool.
  destruct (added_digits_spec vc ltac:(lia)) as (Hb0 & _).
  destruct (cl - 0 <=? d) eqn:Eexit; zbool.
  - exfalso. rewrite Z.div_small in Hfar by lia. lia.
  - assert (Ell : ll = d) by (unfold ll; lia). rewrite Ell in *.
    apply IH; try lia.
    replace (cl - d - 1) with (cl - 1 + (-1) * d) by lia.
    rewrite Z.div_add by lia. lia.
Qed.

(** Whatever the digits, the loop of the arbitrary-base branch returns
    the end of the pattern, with a value on success and with [out]
    untouched on a range error. *)
Lemma from_chars_mul_loop_shape :
  forall (fuel : nat) (cl result factor : Z),
    0 < cl <= n -> cl <= Z.of_nat fuel ->
    exists ec out',
      from_chars_mul_loop s out base n (detail.u64_max_power base) d
                          fuel cl result factor
      = Some (n, ec, out')
      /\ (ec = errc_none \/ (ec = result_out_of_range /\ out' = out)).
Proof.
  destruct (max_digits_bounds base Hbase) as (Hd & _). fold d in Hd.
  induction fuel as [|fuel IH]; intros cl result factor Hcl Hfuel; [lia|].
  rewrite from_chars_mul_loop_S. cbv zeta.
  destruct (chunk_parse cl Hcl) as (Hll & Hllcl & -> & _).
  destruct (2 ^ 128 <=? _); [eauto 6|].
  destruct (2 ^ 128 <=? _); [eauto 6|].
  cbn [errc_eqb negb]. rewrite orb_false_r.
  destruct (cl - 0 <=? d) eqn:Eexit; zbool; [eauto 6|].
  apply IH; lia.
Qed.

End FromCharsOnPattern.

Lemma from_chars_u128_eq (s : list ascii) (out base : Z) :
  from_chars_u128 s out base
  = if 0 =? len s then Some (len s, invalid_argument, out)
    else
      if is_pow_2 base then
        from_chars_pow2_loop s out base (pattern_end s base)
          (detail.u64_max_representable_digits base) (S (List.length s))
          (std.countr_zero (detail.u64_max_power base)) (pattern_end s base) 0 0
      else
        from_chars_mul_loop s out base (pattern_end s base)
          (detail.u64_max_power base)
          (detail.u64_max_representable_digits base) (S (List.length s))
          (pattern_end s base) 0 1.
Proof. reflexivity. Qed.

(** [from_chars] for [uint128_t] on a span that starts with a digit,
    in a power-of-two base: the value of the pattern is stored exactly
    when it is below [2^128] and the leading chunk starts within the
    128 bits; every other pattern is a range error that leaves [out]
    alone.  The pointer is the end of the pattern. *)
Lemma from_chars_u128_pow2 (base : Z) (s : list ascii) (out : Z) :
  2 <= base <= 36 -> is_pow_2 base = true ->
  let n := pattern_end s base in
  let v := prefix_value s base n in
  let top := std.countr_zero (detail.u64_max_power base)
             * ((n - 1) / detail.u64_max_representable_digits base) in
  0 < n ->
  from_chars_u128 s out base
  = if (v <? 2 ^ 128) && (top <=? 128) then Some (n, errc_none, v)
    else Some (n, result_out_of_range, out).
Proof.
  intros Hb Hp n v top Hn.
  pose proof (pattern_end_range s base) as Hr. fold n in Hr.
  rewrite from_chars_u128_eq, Hp. fold n.
  destruct (0 =? len s) eqn:E0; zbool; [lia|].
  assert (Hfuel : n <= Z.of_nat (S (List.length s))) by (unfold len in Hr; lia).
  destruct (top <=? 128) eqn:Etop; zbool.
  - destruct (v <? 2 ^ 128) eqn:Ev; zbool; cbn [andb].
    + rewrite from_chars_pow2_loop_correct;
        try (assumption || lia || (fold n v; change (2 ^ 0) with 1; lia)).
      unfold n. do 2 f_equal. fold n v. lia.
    + apply from_chars_pow2_loop_overflow;
        try (assumption || lia || (fold n v; change (2 ^ 0) with 1; lia)).
  - rewrite andb_false_r.
    apply from_chars_pow2_loop_far;
      try (assumption || lia || (fold n; fold top; lia)).
Qed.

(** In the other bases: the value of the pattern is stored whenever it
    is below [2^128]; a larger value is a range error as long as the
    pattern has at most three chunks. *)
Lemma from_chars_u128_other (base : Z) (s : list ascii) (out : Z) :
  2 <= base <= 36 -> is_pow_2 base = false ->
  let n := pattern_end s base in
  let v := prefix_value s base n in
  0 < n ->
  (v < 2 ^ 128 -> from_chars_u128 s out base = Some (n, errc_none, v))
  /\ (2 ^ 128 <= v -> n <= 3 * detail.u64_max_representable_digits base ->
      from_chars_u128 s out base = Some (n, result_out_of_range, out))
  /\ (exists ec out',
         from_chars_u128 s out base = Some (n, ec, out')
         /\ (ec = errc_none \/ (ec = result_out_of_range /\ out' = out))).
Proof.
  intros Hb Hp n v Hn.
  pose proof (pattern_end_range s base) as Hr. fold n in Hr.
  destruct (other_base_facts base Hb Hp) as (Hmp & Hrange).
  destruct (max_digits_bounds base Hb) as (Hd & _).
  rewrite from_chars_u128_eq, Hp. fold n.
  destruct (0 =? len s) eqn:E0; zbool; [lia|].
  assert (Hfuel : n <= Z.of_nat (S (List.length s))) by (unfold len in Hr; lia).
  split; [|split].
  - intros Hv.
    pose proof (from_chars_mul_loop_correct s out base Hb Hp
                  (S (List.length s)) n 0 1) as Hloop.
    change (1 mod 2 ^ 128) with 1 in Hloop. fold n in Hloop.
    rewrite Hloop; try lia; fold v; try lia.
    do 2 f_equal. lia.
  - intros Hv Hlen.
    apply from_chars_mul_loop_overflow; try (assumption || lia); fold n v; try lia.
    set (d := detail.u64_max_representable_digits base) in *.
    set (P := base ^ d) in *.
    assert (Hq : 0 <= (n - 1) / d <= 2).
    { split; [apply Z.div_pos; lia|].
      assert ((n - 1) / d < 3) by (apply Z.div_lt_upper_bound; lia). lia. }
    assert (P ^ ((n - 1) / d) <= P ^ 2) by (apply Z.pow_le_mono_r; lia).
    assert (P ^ 2 < 2 ^ 128) by nia.
    lia.
  - apply from_chars_mul_loop_shape; (assumption || lia).
Qed.

(** A span that does not start with a digit. *)
Lemma from_chars_u128_no_digit (base : Z) (s : list ascii) (out : Z) :
  2 <= base <= 36 -> pattern_end s base = 0 ->
  from_chars_u128 s out base
  = Some (0, invalid_argument,
          if (0 =? len s) || is_pow_2 base then out else 0).
Proof.
  intros Hb Hn. rewrite from_chars_u128_eq, Hn.
  destruct (max_digits_bounds base Hb) as (Hd & _).
  destruct (0 =? len s) eqn:E0; zbool; [rewrite <- E0; reflexivity|].
  cbn [orb].
  assert (Hll : Z.min (0 - 0) (detail.u64_max_representable_digits base) = 0) by lia.
  destruct (is_pow_2 base).
  - cbn [from_chars_pow2_loop]. cbv zeta. rewrite Hll. reflexivity.
  - cbn [from_chars_mul_loop]. cbv zeta. rewrite Hll.
    change (subspan s (0 - 0) 0) with (@nil ascii).
    rewrite std_from_chars_unsigned_nil.
    unfold detail.mul_overflow, detail.add_overflow.
    rewrite Z.mul_0_r. cbv beta iota.
    change (wrap 128 0) with 0. change (0 + 0) with 0.
    change (2 ^ 128 <=? 0) with false. cbv iota.
    change (wrap 128 0) with 0. cbn [errc_eqb negb].
    rewrite orb_true_r. reflexivity.
Qed.

Lemma pattern_length_app (base : Z) (s rest : list ascii) :
  valid_digits base s ->
  detail.pattern_length (s ++ rest) base
  = (List.length s + detail.pattern_length rest base)%nat.
Proof.
  induction 1 as [|c s Hc Hs IH]; [reflexivity|].
  cbn [app detail.pattern_length List.length].
  destruct (detail.digit_value c <? 0) eqn:E1; [zlia|].
  destruct (detail.digit_value c >=? base) eqn:E2; [zlia|].
  cbn [orb]. rewrite IH. reflexivity.
Qed.

(** A run of digits followed by the end of the span or by a character
    that is no digit is the pattern of the span. *)
Lemma pattern_end_app (base : Z) (s rest : list ascii) :
  valid_digits base s -> pattern_end rest base = 0 ->
  pattern_end (s ++ rest) base = len s.
Proof.
  intros Hv Hr. unfold pattern_end, len in *.
  rewrite pattern_length_app by exact Hv. lia.
Qed.

Lemma prefix_value_app (base : Z) (s rest : list ascii) :
  prefix_value (s ++ rest) base (len s) = std.digits_value base s.
Proof.
  unfold prefix_value, len. rewrite Nat2Z.id.
  rewrite firstn_app, Nat.sub_diag, firstn_all. cbn [firstn].
  rewrite app_nil_r. reflexivity.
Qed.

(** [from_chars] on a span that starts with a run of digits and goes on
    with something else: the value of the run is stored when it is below
    [2^128] and, for a power-of-two base, the leading chunk starts
    within the 128 bits. *)
Lemma from_chars_u128_digits (base : Z) (s rest : list ascii) (out : Z) :
  2 <= base <= 36 ->
  valid_digits base s -> s <> [] -> pattern_end rest base = 0 ->
  std.digits_value base s < 2 ^ 128 ->
  (is_pow_2 base = true ->
   std.countr_zero (detail.u64_max_power base)
   * ((len s - 1) / detail.u64_max_representable_digits base) <= 128) ->
  from_chars_u128 (s ++ rest) out base
  = Some (len s, errc_none, std.digits_value base s).
Proof.
  intros Hb Hv Hne Hrest Hlt Htop.
  assert (Hlen : 0 < len s).
  { destruct s; [congruence|]. rewrite len_cons. pose proof (len_nonneg s). lia. }
  pose proof (pattern_end_app base s rest Hv Hrest) as Hn.
  assert (Hval : prefix_value (s ++ rest) base (pattern_end (s ++ rest) base)
                 = std.digits_value base s)
    by (rewrite Hn; apply prefix_value_app).
  destruct (is_pow_2 base) eqn:Ep.
  - rewrite (from_chars_u128_pow2 base (s ++ rest) out Hb Ep) by lia.
    rewrite Hval, Hn.
    specialize (Htop eq_refl).
    apply Z.ltb_lt in Hlt. apply Z.leb_le in Htop. rewrite Hlt, Htop. reflexivity.
  - destruct (from_chars_u128_other base (s ++ rest) out Hb Ep ltac:(lia)) as (H & _).
    rewrite H, Hval, Hn by lia. reflexivity.
Qed.

(** A canonical string of a 128-bit value needs no more chunks than the
    power-of-two loop can place. *)
Lemma canonical_top_chunk (base : Z) (s : list ascii) (x : Z) :
  2 <= base <= 36 -> is_pow_2 base = true ->
  canonical base s x -> x < 2 ^ 128 ->
  std.countr_zero (detail.u64_max_power base)
  * ((len s - 1) / detail.u64_max_representable_digits base) <= 128.
Proof.
  intros Hb Hp Hc Hx.
  destruct (pow2_base_facts base Hb Hp) as (Hbpi & Hpow & _).
  destruct (max_digits_bounds base Hb) as (Hd & _).
  set (d := detail.u64_max_representable_digits base) in *.
  set (bpi := std.countr_zero (detail.u64_max_power base)) in *.
  pose proof (canonical_len_pos base s x Hc) as Hlen.
  destruct (Z.eq_dec x 0) as [->|Hx0].
  - destruct Hc as (_ & _ & _ & Hz & _). rewrite (Hz eq_refl).
    change (len ["0"%char] - 1) with 0. rewrite Z.div_0_l by lia. lia.
  - pose proof (canonical_lower base s x ltac:(lia) Hc Hx0) as Hlow.
    set (t := (len s - 1) / d) in *.
    assert (Ht : 0 <= t) by (apply Z.div_pos; lia).
    assert (Hdt : d * t <= len s - 1) by (apply Z.mul_div_le; lia).
    assert (base ^ (d * t) <= base ^ (len s - 1)) by (apply Z.pow_le_mono_r; lia).
    rewrite Z.pow_mul_r, Hpow, <- Z.pow_mul_r in H by lia.
    assert (bpi * t < 128) by (apply (Z.pow_lt_mono_r_iff 2); lia).
    lia.
Qed.

(** [from_chars] reads back a canonical string of a 128-bit value,
    also when the span goes on after it. *)
Lemma from_chars_u128_canonical (base : Z) (s rest : list ascii) (x out : Z) :
  2 <= base <= 36 -> canonical base s x -> x < 2 ^ 128 ->
  pattern_end rest base = 0 ->
  from_chars_u128 (s ++ rest) out base = Some (len s, errc_none, x).
Proof.
  intros Hb Hc Hx Hrest. pose proof Hc as (Hv & Hval & Hne & _).
  rewrite <- Hval. apply from_chars_u128_digits; try assumption; [lia|].
  intros Hp. eapply canonical_top_chunk; eassumption.
Qed.

(** ** [to_chars] and [from_chars] for [uint128_t], end to end *)

Lemma to_chars_u128_wrote (base x : Z) :
  2 <= base <= 36 -> 0 <= x < 2 ^ 128 ->
  exists s,
    canonical base s x
    /\ forall m first last,
        wrote last m first s (to_chars_u128 m first last x base).
Proof.
  intros Hb Hx. apply to_chars_u128_rec_wrote; try assumption.
  - change (Z.of_nat 128) with 128. lia.
  - lia.
Qed.

(** A successful call wrote the string that [wrote] speaks of. *)
Lemma wrote_success (last : Z) (m : mem) (cf : Z) (s : list ascii)
      (p : Z) (m' : mem) :
  wrote last m cf s (Some (p, errc_none, m')) ->
  p = cf + len s
  /\ load_list m' cf (Z.to_nat (p - cf)) = s
  /\ forall q, q < cf \/ p <= q -> m' q = m q.
Proof.
  intros (p' & ec & m'' & Heq & [(_ & Hp & Hload & Hframe)|(Hec & _)]);
    inversion Heq; subst; [|discriminate].
  repeat split; try assumption.
  replace (Z.to_nat (cf + len s - cf)) with (List.length s) by (unfold len; lia).
  exact Hload.
Qed.

(** A buffer that has room for the string makes the call succeed. *)
Lemma wrote_room (last : Z) (m : mem) (cf : Z) (s : list ascii)
      (r : option to_chars_result) :
  wrote last m cf s r -> len s <= last - cf ->
  exists m', r = Some (cf + len s, errc_none, m')
             /\ load_list m' cf (List.length s) = s.
Proof.
  intros (p & ec & m' & -> & [(-> & -> & Hload & _)|(_ & Hlt)]) Hroom; [|lia].
  exists m'. split; [reflexivity|exact Hload].
Qed.

Lemma canonical_len_128 (base : Z) (s : list ascii) (x : Z) :
  2 <= base <= 36 -> canonical base s x -> x < 2 ^ 128 -> len s <= 128.
Proof.
  intros Hb Hc Hx. destruct (Z.eq_dec x 0) as [->|Hx0].
  - destruct Hc as (_ & _ & _ & Hz & _). rewrite (Hz eq_refl). unfold len. simpl. lia.
  - pose proof (canonical_lower base s x ltac:(lia) Hc Hx0) as Hlow.
    pose proof (canonical_len_pos base s x Hc).
    pose proof (pow2_le_base_pow base (len s - 1) ltac:(lia) ltac:(lia)).
    assert (len s - 1 < 128) by (apply (Z.pow_lt_mono_r_iff 2); lia).
    lia.
Qed.

(** ** The signed overloads *)

Lemma swrap_id (w x : Z) :
  1 <= w -> - 2 ^ (w - 1) <= x < 2 ^ (w - 1) -> swrap w x = x.
Proof.
  intros Hw Hx. unfold swrap.
  replace (2 ^ w) with (2 * 2 ^ (w - 1))
    by (rewrite <- Z.pow_succ_r by lia; f_equal; lia).
  rewrite Z.mod_small by lia. lia.
Qed.

Lemma swrap_range (w x : Z) :
  1 <= w -> - 2 ^ (w - 1) <= swrap w x < 2 ^ (w - 1).
Proof.
  intros Hw. unfold swrap.
  assert (0 < 2 ^ (w - 1)) by (apply Z.pow_pos_nonneg; lia).
  replace (2 ^ w) with (2 * 2 ^ (w - 1))
    by (rewrite <- Z.pow_succ_r by lia; f_equal; lia).
  pose proof (Z.mod_pos_bound (x + 2 ^ (w - 1)) (2 * 2 ^ (w - 1)) ltac:(lia)).
  lia.
Qed.

Lemma swrap_eq_iff (w x : Z) :
  1 <= w -> swrap w x = x <-> - 2 ^ (w - 1) <= x < 2 ^ (w - 1).
Proof.
  intros Hw. split.
  - intros <-. apply swrap_range, Hw.
  - apply swrap_id, Hw.
Qed.

Lemma wrap_eq_iff (w x : Z) :
  0 <= w -> wrap w x = x <-> 0 <= x < 2 ^ w.
Proof.
  intros Hw. assert (0 < 2 ^ w) by (apply Z.pow_pos_nonneg; lia). split.
  - intros <-. apply Z.mod_pos_bound. lia.
  - apply wrap_small.
Qed.

Lemma to_chars_i128_wrote (base x : Z) :
  2 <= base <= 36 -> - 2 ^ 127 <= x < 2 ^ 127 ->
  exists s,
    signed_canonical base s x
    /\ forall m first last,
        wrote last m first s (to_chars_i128 m first last x base).
Proof.
  intros Hb Hx. unfold signed_canonical.
  destruct (Z_lt_ge_dec x 0) as [Hneg|Hpos].
  - assert (Eneg : (x <? 0) = true) by (apply Z.ltb_lt; lia).
    assert (Ege : (x >=? 0) = false) by (rewrite Z.geb_leb; apply Z.leb_gt; lia).
    rewrite Eneg. unfold to_chars_i128.
    destruct (Z.eq_dec x (swrap 64 x)) as [E64|E64].
    + (* the magnitude fits the native formatter *)
      pose proof (swrap_range 64 x ltac:(lia)) as Hr. rewrite <- E64 in Hr.
      change (2 ^ (64 - 1)) with (2 ^ 63) in Hr.
      exists ("-"%char :: std.digits base (- x)). split.
      * eexists. split; [reflexivity|]. apply std_digits_canonical; [assumption|lia].
      * intros m first last. rewrite Ege, <- E64, Z.eqb_refl.
        unfold std.to_chars_signed. rewrite Eneg.
        destruct (last - first <? len ("-"%char :: std.digits base (- x))) eqn:Er; zbool.
        -- apply wrote_fail. lia.
        -- apply wrote_ok; [apply load_store_list|].
           intros q Hq. apply store_list_outside, Hq.
    + (* a minus sign, then the magnitude as an unsigned value *)
      assert (Hlow : x < - 2 ^ 63).
      { destruct (Z_lt_ge_dec x (- 2 ^ 63)) as [|Hge]; [assumption|].
        rewrite swrap_id in E64; [congruence|lia|].
        change (2 ^ (64 - 1)) with (2 ^ 63). lia. }
      assert (Hmag : wrap 128 (- wrap 128 x) = - x).
      { unfold wrap.
        replace (x mod 2 ^ 128) with (x + 2 ^ 128)
          by (apply Z.mod_unique with (q := -1); lia).
        symmetry. apply Z.mod_unique with (q := -1); lia. }
      destruct (to_chars_u128_wrote base (- x) Hb ltac:(lia)) as (t & Ht & Hw).
      exists ("-"%char :: t). split; [exists t; auto|].
      intros m first last. rewrite Ege.
      assert (E64' : (x =? swrap 64 x) = false) by (apply Z.eqb_neq; exact E64).
      rewrite E64', Hmag.
      destruct (last - first <? 2) eqn:E2; zbool.
      * apply wrote_fail. rewrite len_cons.
        pose proof (canonical_len_pos base t (- x) Ht). lia.
      * change ("-"%char :: t) with (["-"%char] ++ t).
        eapply wrote_after; [| |apply Hw].
        -- unfold load_list, store. cbn. rewrite Z.add_0_r, Z.eqb_refl. reflexivity.
        -- intros q Hq. change (len ["-"%char]) with 1 in Hq.
           unfold store. destruct (q =? first) eqn:E; zbool; [lia|reflexivity].
  - assert (Eneg : (x <? 0) = false) by (apply Z.ltb_ge; lia).
    assert (Ege : (x >=? 0) = true) by (rewrite Z.geb_leb; apply Z.leb_le; lia).
    rewrite Eneg. unfold to_chars_i128.
    destruct (to_chars_u128_wrote base x Hb ltac:(lia)) as (s & Hs & Hw).
    exists s. split; [exact Hs|].
    intros m first last. rewrite Ege, wrap_small by lia. apply Hw.
Qed.

Lemma digit_not_minus (base : Z) (c : ascii) (s : list ascii) :
  valid_digits base (c :: s) -> Ascii.eqb c "-" = false.
Proof.
  intros H. inversion H as [|? ? Hc _]; subst.
  destruct (Ascii.eqb c "-") eqn:E; [|reflexivity].
  apply Ascii.eqb_eq in E. subst c. vm_compute in Hc. destruct Hc as [Hc _].
  exfalso. apply Hc. reflexivity.
Qed.

Lemma from_chars_i128_canonical (base : Z) (s rest : list ascii) (x out : Z) :
  2 <= base <= 36 -> signed_canonical base s x -> - 2 ^ 127 <= x < 2 ^ 127 ->
  pattern_end rest base = 0 ->
  from_chars_i128 (s ++ rest) out base = Some (len s, errc_none, x).
Proof.
  intros Hb Hs Hx Hrest. unfold signed_canonical in Hs.
  destruct (x <? 0) eqn:Eneg; zbool.
  - destruct Hs as (t & -> & Ht). pose proof Ht as (Hv & Hval & Hne & _).
    cbn [from_chars_i128 app]. change (Ascii.eqb "-" "-") with true. cbn [negb].
    destruct (max_digits_bounds base Hb) as (Hd & Hle & _).
    set (d := detail.u64_max_representable_digits base) in *.
    destruct (len ("-"%char :: t ++ rest) + 1 <=? d) eqn:Efast; zbool.
    + (* the native signed parser *)
      unfold std.from_chars_signed.
      rewrite pattern_length_app by exact Hv.
      replace (detail.pattern_length rest base) with O
        by (unfold pattern_end in Hrest; lia).
      rewrite Nat.add_0_r.
      destruct (List.length t) as [|n] eqn:En.
      { apply length_zero_iff_nil in En. congruence. }
      rewrite <- En, firstn_app, Nat.sub_diag, firstn_all. cbn [firstn].
      rewrite app_nil_r, Hval.
      rewrite len_cons, len_app in Efast. pose proof (len_nonneg rest).
      pose proof (digits_value_bounds base t ltac:(lia) Hv) as Hb1.
      rewrite Hval in Hb1.
      assert (Hpow : base ^ len t * 4 <= 2 ^ 64).
      { assert (base ^ len t <= base ^ (d - 2))
          by (apply Z.pow_le_mono_r; pose proof (len_nonneg t); lia).
        assert (base ^ d = base ^ (d - 2) * base ^ 2)
          by (rewrite <- Z.pow_add_r by lia; f_equal; lia).
        assert (0 < base ^ (d - 2)) by (apply Z.pow_pos_nonneg; lia).
        assert (4 <= base ^ 2) by nia.
        nia. }
      assert (Ein : (- 2 ^ (64 - 1) <=? - - x) = true).
      { apply Z.leb_le. change (2 ^ (64 - 1)) with (2 ^ 63). lia. }
      rewrite Ein, Z.opp_involutive.
      replace (Z.of_nat (List.length t) + 1) with (len ("-"%char :: t))
        by (rewrite len_cons; unfold len; lia).
      reflexivity.
    + rewrite (from_chars_u128_canonical base t rest (- x) 0 Hb Ht) by (lia || assumption).
      assert (Egt : (- x >? 2 ^ 127) = false)
        by (rewrite Z.gtb_ltb; apply Z.ltb_ge; lia).
      rewrite Egt, len_cons. do 2 f_equal.
      rewrite Z.opp_involutive. unfold wrap.
      replace (x mod 2 ^ 128) with (x + 2 ^ 128)
        by (apply Z.mod_unique with (q := -1); lia).
      unfold swrap. change (2 ^ (128 - 1)) with (2 ^ 127).
      replace ((x + 2 ^ 128 + 2 ^ 127) mod 2 ^ 128) with (x + 2 ^ 127); [lia|].
      apply Z.mod_unique with (q := 1); lia.
  - pose proof Hs as (Hv & Hval & Hne & _).
    destruct s as [|c s]; [congruence|].
    cbn [from_chars_i128 app]. rewrite (digit_not_minus base c s Hv). cbn [negb].
    change (c :: s ++ rest) with ((c :: s) ++ rest).
    rewrite (from_chars_u128_canonical base (c :: s) rest x 0 Hb Hs) by (lia || assumption).
    rewrite Z.shiftr_div_pow2, Z.div_small by lia. cbn [Z.eqb negb].
    rewrite swrap_id; [reflexivity|lia|]. change (2 ^ (128 - 1)) with (2 ^ 127). lia.
Qed.

Lemma signed_canonical_len (base : Z) (s : list ascii) (x : Z) :
  2 <= base <= 36 -> signed_canonical base s x -> - 2 ^ 127 <= x < 2 ^ 127 ->
  len s <= 129.
Proof.
  intros Hb Hs Hx. unfold signed_canonical in Hs.
  destruct (x <? 0) eqn:E; zbool.
  - destruct Hs as (t & -> & Ht). rewrite len_cons.
    pose proof (canonical_len_128 base t (- x) Hb Ht ltac:(lia)). lia.
  - pose proof (canonical_len_128 base s x Hb Hs ltac:(lia)). lia.
Qed.

(** The power-of-two loop of [from_chars] shifts by 128 bits or more
    only when the chunk is zero: a chunk that is not zero has at least
    one bit and fails the range test. *)
Lemma pow2_loop_wide_shift_zero (digits shift : Z) :
  0 <= digits < 2 ^ 64 -> 128 <= shift ->
  (shift + (64 - std.countl_zero digits) >? 128) = false ->
  digits = 0.
Proof.
  intros Hd Hs H. zbool. unfold std.countl_zero in H.
  destruct (digits =? 0) eqn:E; zbool; [assumption|].
  pose proof (Z.log2_nonneg digits). lia.
Qed.

(** ** [from_chars] always returns *)

Lemma std_from_chars_unsigned_ok_nonempty (w : Z) (s : list ascii) (v base : Z)
      (ptr value : Z) :
  std.from_chars_unsigned w s v base = (ptr, errc_none, value) -> s <> [].
Proof.
  intros H E. subst s. discriminate H.
Qed.

Lemma subspan_empty (s : list ascii) (a b : Z) : b <= a -> subspan s a b = [].
Proof.
  intros H. unfold subspan. replace (Z.to_nat (b - a)) with O by lia. reflexivity.
Qed.

Section FromCharsTotal.

Variable s : list ascii.
Variables out base initial_last max_pow mll : Z.

Lemma from_chars_pow2_loop_total (bpi : Z) :
  forall (fuel : nat) (cl result shift : Z),
    (0 < fuel)%nat -> cl <= Z.of_nat fuel ->
    exists r,
      from_chars_pow2_loop s out base initial_last mll fuel bpi cl result shift
      = Some r.
Proof.
  induction fuel as [|fuel IH]; intros cl result shift Hpos Hfuel; [lia|].
  cbn [from_chars_pow2_loop]. cbv zeta.
  destruct (std.from_chars_unsigned 64 _ 0 base) as [[pptr pec] digits] eqn:Estd.
  destruct (errc_eqb pec errc_none) eqn:Eec; cbn [negb]; [|eauto].
  destruct (_ >? 128); [eauto|].
  rewrite orb_false_r.
  destruct (cl - 0 <=? mll) eqn:Eexit; [eauto|]. zbool.
  destruct pec; try discriminate.
  apply std_from_chars_unsigned_ok_nonempty in Estd.
  assert (0 < Z.min (cl - 0) mll).
  { destruct (Z_lt_ge_dec 0 (Z.min (cl - 0) mll)) as [|Hge]; [assumption|].
    exfalso. apply Estd, subspan_empty. lia. }
  apply IH; lia.
Qed.

Lemma from_chars_mul_loop_total :
  forall (fuel : nat) (cl result factor : Z),
    (0 < fuel)%nat -> cl <= Z.of_nat fuel ->
    exists r,
      from_chars_mul_loop s out base initial_last max_pow mll fuel cl result factor
      = Some r.
Proof.
  induction fuel as [|fuel IH]; intros cl result factor Hpos Hfuel; [lia|].
  cbn [from_chars_mul_loop]. cbv zeta.
  destruct (std.from_chars_unsigned 64 _ 0 base) as [[pptr pec] digits] eqn:Estd.
  unfold detail.mul_overflow, detail.add_overflow.
  destruct (2 ^ 128 <=? factor * digits); [eauto|].
  destruct (2 ^ 128 <=? _); [eauto|].
  destruct (cl - 0 <=? mll) eqn:Eexit; cbn [orb]; [eauto|]. zbool.
  destruct (errc_eqb pec errc_none) eqn:Eec; cbn [negb]; [|eauto].
  destruct pec; try discriminate.
  apply std_from_chars_unsigned_ok_nonempty in Estd.
  assert (0 < Z.min (cl - 0) mll).
  { destruct (Z_lt_ge_dec 0 (Z.min (cl - 0) mll)) as [|Hge]; [assumption|].
    exfalso. apply Estd, subspan_empty. lia. }
  apply IH; lia.
Qed.

End FromCharsTotal.

Lemma from_chars_u128_total (s : list ascii) (out base : Z) :
  exists r, from_chars_u128 s out base = Some r.
Proof.
  rewrite from_chars_u128_eq.
  destruct (0 =? len s); [eauto|].
  pose proof (pattern_end_range s base). unfold len in *.
  destruct (is_pow_2 base).
  - apply from_chars_pow2_loop_total; lia.
  - apply from_chars_mul_loop_total; lia.
Qed.

Lemma from_chars_i128_total (s : list ascii) (out base : Z) :
  exists r, from_chars_i128 s out base = Some r.
Proof.
  unfold from_chars_i128. destruct s as [|c s]; [eauto|].
  destruct (negb (Ascii.eqb c "-")).
  - destruct (from_chars_u128_total (c :: s) 0 base) as ([[ptr ec] x] & ->).
    destruct (negb _); eauto.
  - destruct (_ <=? _); [eauto|].
    destruct (from_chars_u128_total s 0 base) as ([[ptr ec] x] & ->).
    destruct (_ >? _); eauto.
Qed.

(** ** What [from_chars] returns on any span *)

(** The unsigned overload always returns the end of the pattern.  It is
    [invalid_argument] exactly when the pattern is empty; a range error
    leaves [out] alone; an empty pattern leaves [out] alone in the
    power-of-two branch and stores 0 in the other branch. *)
Lemma from_chars_u128_result (base : Z) (s : list ascii) (out : Z) :
  2 <= base <= 36 ->
  let n := pattern_end s base in
  exists ec out',
    from_chars_u128 s out base = Some (n, ec, out')
    /\ (n = 0 ->
        ec = invalid_argument
        /\ out' = if (0 =? len s) || is_pow_2 base then out else 0)
    /\ (0 < n ->
        ec = errc_none \/ (ec = result_out_of_range /\ out' = out)).
Proof.
  intros Hb n. pose proof (pattern_end_range s base) as Hr. fold n in Hr.
  destruct (Z.eq_dec n 0) as [Hn|Hn].
  - rewrite (from_chars_u128_no_digit base s out Hb Hn), Hn.
    eexists _, _. split; [reflexivity|]. split; [auto|lia].
  - destruct (is_pow_2 base) eqn:Ep.
    + rewrite (from_chars_u128_pow2 base s out Hb Ep) by (fold n; lia). fold n.
      destruct (_ && _); eexists _, _;
        (split; [reflexivity|]); (split; [lia|]); auto.
    + destruct (from_chars_u128_other base s out Hb Ep ltac:(fold n; lia))
        as (_ & _ & ec & out' & Heq & Hshape).
      exists ec, out'. fold n in Heq. split; [exact Heq|]. split; [lia|auto].
Qed.


(** The signed overload on a minus sign that no digit follows: the
    native path returns the start of the span, the 128-bit path the
    position after the sign. *)
Lemma from_chars_i128_minus_no_digit (base : Z) (t : list ascii) (out : Z) :
  2 <= base <= 36 -> pattern_end t base = 0 ->
  from_chars_i128 ("-"%char :: t) out base
  = Some (if len ("-"%char :: t) + 1 <=? detail.u64_max_representable_digits base
          then 0 else 1,
          invalid_argument, 0).
Proof.
  intros Hb Hn. cbn [from_chars_i128].
  change (Ascii.eqb "-" "-") with true. cbn [negb].
  destruct (_ <=? _).
  - unfold std.from_chars_signed.
    replace (detail.pattern_length t base) with O
      by (unfold pattern_end in Hn; lia).
    reflexivity.
  - rewrite (from_chars_u128_no_digit base t 0 Hb Hn).
    change (0 >? 2 ^ 127) with false. cbv iota.
    replace (if (0 =? len t) || is_pow_2 base then 0 else 0) with 0
      by (destruct (_ || _); reflexivity).
    reflexivity.
Qed.

(** Apart from that case, the signed overload returns the end of the
    signed pattern. *)
Lemma from_chars_i128_pointer (base : Z) (s : list ascii) (out : Z) :
  2 <= base <= 36 ->
  (forall t, s = "-"%char :: t -> 0 < pattern_end t base) ->
  exists ec out',
    from_chars_i128 s out base = Some (signed_pattern_end s base, ec, out')
    /\ (ec = invalid_argument <-> signed_pattern_end s base = 0).
Proof.
  intros Hb Hminus.
  destruct s as [|c s].
  - eexists _, _. split; [reflexivity|]. cbn. tauto.
  - cbn [from_chars_i128].
    destruct (Ascii.eqb c "-") eqn:Ec; cbn [negb].
    + apply Ascii.eqb_eq in Ec. subst c.
      specialize (Hminus s eq_refl).
      assert (Hsp : signed_pattern_end ("-"%char :: s) base = 1 + pattern_end s base).
      { cbn [signed_pattern_end]. destruct (_ =? 0) eqn:E; zbool; [lia|reflexivity]. }
      rewrite Hsp.
      destruct (_ <=? _).
      * unfold std.from_chars_signed.
        destruct (detail.pattern_length s base) as [|k] eqn:Ek;
          [unfold pattern_end in Hminus; lia|].
        replace (1 + pattern_end s base) with (Z.of_nat (S k) + 1)
          by (unfold pattern_end; lia).
        destruct (_ <=? _); eexists _, _; (split; [reflexivity|]);
          (split; [discriminate|lia]).
      * destruct (from_chars_u128_result base s 0 Hb)
          as (ec & x & Heq & _ & Hpos). rewrite Heq.
        destruct (Hpos Hminus) as [->|[-> ->]];
          destruct (_ >? _); eexists _, _; (split; [reflexivity|]);
            (split; [discriminate|lia]).
    + assert (Hsp : signed_pattern_end (c :: s) base = pattern_end (c :: s) base).
      { cbn [signed_pattern_end].
        destruct c as [[] [] [] [] [] [] [] []]; try reflexivity. discriminate Ec. }
      rewrite Hsp.
      destruct (from_chars_u128_result base (c :: s) 0 Hb)
        as (ec & x & Heq & Hzero & Hpos). rewrite Heq.
      destruct (Z.eq_dec (pattern_end (c :: s) base) 0) as [Hn|Hn].
      * destruct (Hzero Hn) as [-> ->].
        replace (if (0 =? len (c :: s)) || is_pow_2 base then 0 else 0) with 0
          by (destruct (_ || _); reflexivity).
        cbn [Z.shiftr Z.shiftl Z.eqb negb Z.opp].
        eexists _, _. split; [reflexivity|]. tauto.
      * pose proof (pattern_end_range (c :: s) base).
        destruct (Hpos ltac:(lia)) as [->|[-> ->]];
          destruct (negb _); eexists _, _; (split; [reflexivity|]);
            (split; [discriminate|lia]).
Qed.

(** ** [to_chars] in a buffer that has room *)

(** With room for the string, [to_chars] succeeds and leaves everything
    outside of [[first, last)] as it was. *)
Lemma to_chars_u128_room (base x : Z) :
  2 <= base <= 36 -> 0 <= x < 2 ^ 128 ->
  exists s,
    canonical base s x
    /\ forall m first last,
        len s <= last - first ->
        exists m',
          to_chars_u128 m first last x base = Some (first + len s, errc_none, m')
          /\ load_list m' first (List.length s) = s
          /\ forall q, q < first \/ last <= q -> m' q = m q.
Proof.
  intros Hb Hx. destruct (to_chars_u128_wrote base x Hb Hx) as (s & Hs & Hw).
  exists s. split; [exact Hs|]. intros m first last Hroom.
  destruct (Hw m first last)
    as (p & ec & m' & -> & [(-> & -> & Hload & Hframe)|(_ & Hlt)]); [|lia].
  exists m'. repeat split; try assumption.
  intros q Hq. apply Hframe. lia.
Qed.

Lemma to_chars_i128_room (base x : Z) :
  2 <= base <= 36 -> - 2 ^ 127 <= x < 2 ^ 127 ->
  exists s,
    signed_canonical base s x
    /\ forall m first last,
        len s <= last - first ->
        exists m',
          to_chars_i128 m first last x base = Some (first + len s, errc_none, m')
          /\ load_list m' first (List.length s) = s
          /\ forall q, q < first \/ last <= q -> m' q = m q.
Proof.
  intros Hb Hx. destruct (to_chars_i128_wrote base x Hb Hx) as (s & Hs & Hw).
  exists s. split; [exact Hs|]. intros m first last Hroom.
  destruct (Hw m first last)
    as (p & ec & m' & -> & [(-> & -> & Hload & Hframe)|(_ & Hlt)]); [|lia].
  exists m'. repeat split; try assumption.
  intros q Hq. apply Hframe. lia.
Qed.

(** * Main results *)

(** C1: round trip.  For every base in 2..36 and every 128-bit value,
    unsigned or signed, there is one string [s] (at most 128 characters,
    129 with a sign) such that [to_chars] succeeds in every buffer that
    has room for [s] and writes exactly [s], every successful call
    wrote [s], and [from_chars] in the same base on [s], or on a span
    that goes on after [s] with a character that is no digit, succeeds,
    stores the value and returns the end of [s].  In base 10 the string
    of [-2^127] is "-170141183460469231731687303715884105728", which
    parses back to [-2^127]. *)
Theorem to_chars_from_chars_roundtrip :
  (forall base x,
      2 <= base <= 36 -> 0 <= x < 2 ^ 128 ->
      exists s,
        len s <= 128
        /\ (forall m first last,
               len s <= last - first ->
               exists m',
                 to_chars_u128 m first last x base
                 = Some (first + len s, errc_none, m')
                 /\ load_list m' first (List.length s) = s)
        /\ (forall m first last p m',
               to_chars_u128 m first last x base = Some (p, errc_none, m') ->
               load_list m' first (Z.to_nat (p - first)) = s)
        /\ (forall rest out,
               pattern_end rest base = 0 ->
               from_chars_u128 (s ++ rest) out base = Some (len s, errc_none, x)))
  /\ (forall base x,
         2 <= base <= 36 -> - 2 ^ 127 <= x < 2 ^ 127 ->
         exists s,
           len s <= 129
           /\ (forall m first last,
                  len s <= last - first ->
                  exists m',
                    to_chars_i128 m first last x base
                    = Some (first + len s, errc_none, m')
                    /\ load_list m' first (List.length s) = s)
           /\ (forall m first last p m',
                  to_chars_i128 m first last x base = Some (p, errc_none, m') ->
                  load_list m' first (Z.to_nat (p - first)) = s)
           /\ (forall rest out,
                  pattern_end rest base = 0 ->
                  from_chars_i128 (s ++ rest) out base
                  = Some (len s, errc_none, x)))
  /\ (let s := chars "-170141183460469231731687303715884105728" in
      (forall m first last,
          40 <= last - first ->
          exists m',
            to_chars_i128 m first last (- 2 ^ 127) 10
            = Some (first + 40, errc_none, m')
            /\ load_list m' first 40 = s)
      /\ (forall out,
             from_chars_i128 s out 10 = Some (40, errc_none, - 2 ^ 127))).
Proof.
  assert (Hu : forall base x,
             2 <= base <= 36 -> 0 <= x < 2 ^ 128 ->
             exists s,
               len s <= 128
               /\ (forall m first last,
                      len s <= last - first ->
                      exists m',
                        to_chars_u128 m first last x base
                        = Some (first + len s, errc_none, m')
                        /\ load_list m' first (List.length s) = s)
               /\ (forall m first last p m',
                      to_chars_u128 m first last x base = Some (p, errc_none, m') ->
                      load_list m' first (Z.to_nat (p - first)) = s)
               /\ (forall rest out,
                      pattern_end rest base = 0 ->
                      from_chars_u128 (s ++ rest) out base
                      = Some (len s, errc_none, x))).
  { intros base x Hb Hx.
    destruct (to_chars_u128_wrote base x Hb Hx) as (s & Hs & Hw).
    exists s. split; [apply (canonical_len_128 base s x); (assumption || lia)|].
    split; [|split].
    - intros m first last Hroom. apply (wrote_room last m), Hroom. apply Hw.
    - intros m first last p m' Hrun.
      pose proof (Hw m first last) as Hw'. rewrite Hrun in Hw'.
      apply wrote_success in Hw'. apply Hw'.
    - intros rest out Hrest. apply from_chars_u128_canonical; (assumption || lia). }
  assert (Hi : forall base x,
             2 <= base <= 36 -> - 2 ^ 127 <= x < 2 ^ 127 ->
             exists s,
               len s <= 129
               /\ (forall m first last,
                      len s <= last - first ->
                      exists m',
                        to_chars_i128 m first last x base
                        = Some (first + len s, errc_none, m')
                        /\ load_list m' first (List.length s) = s)
               /\ (forall m first last p m',
                      to_chars_i128 m first last x base = Some (p, errc_none, m') ->
                      load_list m' first (Z.to_nat (p - first)) = s)
               /\ (forall rest out,
                      pattern_end rest base = 0 ->
                      from_chars_i128 (s ++ rest) out base
                      = Some (len s, errc_none, x))).
  { intros base x Hb Hx.
    destruct (to_chars_i128_wrote base x Hb Hx) as (s & Hs & Hw).
    exists s. split; [apply (signed_canonical_len base s x); assumption|].
    split; [|split].
    - intros m first last Hroom. apply (wrote_room last m), Hroom. apply Hw.
    - intros m first last p m' Hrun.
      pose proof (Hw m first last) as Hw'. rewrite Hrun in Hw'.
      apply wrote_success in Hw'. apply Hw'.
    - intros rest out Hrest. apply from_chars_i128_canonical; assumption. }
  split; [exact Hu|]. split; [exact Hi|].
  destruct (Hi 10 (- 2 ^ 127) ltac:(lia) ltac:(lia))
    as (s & Hlen & Hto & Hread & Hfrom).
  (* one run of the code tells which string it is *)
  assert (Hrun : exists m0,
             to_chars_i128 (fun _ => "000"%char) 0 129 (- 2 ^ 127) 10
             = Some (40, errc_none, m0)
             /\ load_list m0 0 (Z.to_nat (40 - 0))
                = chars "-170141183460469231731687303715884105728")
    by (eexists; split; vm_compute; reflexivity).
  destruct Hrun as (m0 & Hrun & Hload).
  rewrite (Hread _ _ _ _ _ Hrun) in Hload. subst s.
  cbv zeta. split.
  - intros m first last Hroom.
    destruct (Hto m first last Hroom) as (m' & Hm' & Hl). exists m'. auto.
  - intros out. specialize (Hfrom [] out eq_refl).
    rewrite app_nil_r in Hfrom. exact Hfrom.
Qed.

Lemma to_chars_from_chars_roundtrip_witness :
  2 <= 10 <= 36 /\ 0 <= 2 ^ 100 / 10 < 2 ^ 128
  /\ exists s,
    len s <= 128
    /\ (forall m first last,
           len s <= last - first ->
           exists m',
             to_chars_u128 m first last (2 ^ 100 / 10) 10
             = Some (first + len s, errc_none, m')
             /\ load_list m' first (List.length s) = s)
    /\ (forall m first last p m',
           to_chars_u128 m first last (2 ^ 100 / 10) 10 = Some (p, errc_none, m') ->
           load_list m' first (Z.to_nat (p - first)) = s)
    /\ (forall rest out,
           pattern_end rest 10 = 0 ->
           from_chars_u128 (s ++ rest) out 10
           = Some (len s, errc_none, 2 ^ 100 / 10)).
Proof.
  assert (Hx : 0 <= 2 ^ 100 / 10 < 2 ^ 128)
    by (split; [apply Z.div_pos; lia|apply Z.div_lt_upper_bound; lia]).
  split; [lia|]. split; [exact Hx|].
  apply (proj1 to_chars_from_chars_roundtrip 10 (2 ^ 100 / 10)); [lia|exact Hx].
Defined.

(** C8: minimality.  Whenever [to_chars] reports success, for any
    buffer, the characters from [first] up to the returned pointer are
    digits of the base, after a minus sign if the value is negative,
    and the first digit is not 0 unless the value is zero, in which case
    the output is the single character 0. *)
Theorem to_chars_minimal :
  (forall base x m first last p m',
      2 <= base <= 36 -> 0 <= x < 2 ^ 128 ->
      to_chars_u128 m first last x base = Some (p, errc_none, m') ->
      let s := load_list m' first (Z.to_nat (p - first)) in
      valid_digits base s /\ s <> []
      /\ (x = 0 -> s = ["0"%char])
      /\ (x <> 0 -> hd "0"%char s <> "0"%char))
  /\ (forall base x m first last p m',
         2 <= base <= 36 -> - 2 ^ 127 <= x < 2 ^ 127 ->
         to_chars_i128 m first last x base = Some (p, errc_none, m') ->
         let s := load_list m' first (Z.to_nat (p - first)) in
         exists t,
           s = (if x <? 0 then ["-"%char] else []) ++ t
           /\ valid_digits base t /\ t <> []
           /\ (x = 0 -> t = ["0"%char])
           /\ (x <> 0 -> hd "0"%char t <> "0"%char)).
Proof.
  split.
  - intros base x m first last p m' Hb Hx Hrun s.
    destruct (to_chars_u128_wrote base x Hb Hx) as (s' & Hs & Hw).
    pose proof (Hw m first last) as Hw'. rewrite Hrun in Hw'.
    apply wrote_success in Hw'. destruct Hw' as (_ & Hload & _).
    unfold s. rewrite Hload. destruct Hs as (Hv & _ & Hne & Hz & Hhd). auto.
  - intros base x m first last p m' Hb Hx Hrun s.
    destruct (to_chars_i128_wrote base x Hb Hx) as (s' & Hs & Hw).
    pose proof (Hw m first last) as Hw'. rewrite Hrun in Hw'.
    apply wrote_success in Hw'. destruct Hw' as (_ & Hload & _).
    unfold s. rewrite Hload. unfold signed_canonical in Hs.
    destruct (x <? 0) eqn:E; zbool.
    + destruct Hs as (t & -> & (Hv & _ & Hne & _ & Hhd)).
      exists t. repeat split; try assumption; [lia|].
      intros _. apply Hhd. lia.
    + exists s'. destruct Hs as (Hv & _ & Hne & Hz & Hhd). auto.
Qed.

Lemma to_chars_minimal_witness :
  let m : mem := fun _ => "000"%char in
  let m' := store_list m 0 (chars "255") in
  to_chars_u128 m 0 10 255 10 = Some (3, errc_none, m')
  /\ (let s := load_list m' 0 (Z.to_nat (3 - 0)) in
      valid_digits 10 s /\ s <> []
      /\ (255 = 0 -> s = ["0"%char])
      /\ (255 <> 0 -> hd "0"%char s <> "0"%char)).
Proof.
  intros m m'.
  assert (Hrun : to_chars_u128 m 0 10 255 10 = Some (3, errc_none, m'))
    by (vm_compute; reflexivity).
  split; [exact Hrun|].
  apply (proj1 to_chars_minimal 10 255 m 0 10 3 m'); [lia|lia|exact Hrun].
Defined.

(** C7: narrowing check.  For every width [1 <= N <= 128], the carrier
    is the smallest of the 8, 16, 32, 64 and 128-bit types that holds
    [N] bits; [from_chars] for the bit-precise type returns the pointer
    of the parse of the carrier; the error is [result_out_of_range]
    when the carrier parse succeeded with a value that the narrowing
    changes, which is exactly a value outside the range of [N] bits,
    and it is the error of the carrier parse in every other case. *)
Theorem from_chars_bit_precise_narrowing :
  forall N s x base,
    1 <= N <= 128 ->
    (In (bitint.least_bits N) [8; 16; 32; 64; 128]
     /\ N <= bitint.least_bits N
     /\ forall w, In w [8; 16; 32; 64; 128] -> N <= w -> bitint.least_bits N <= w)
    /\ (exists ptr ec value,
           bitint.carrier_from_chars_signed (bitint.least_bits N) s 0 base
           = (ptr, ec, value)
           /\ (swrap N value = value <-> - 2 ^ (N - 1) <= value < 2 ^ (N - 1))
           /\ (ec = errc_none -> swrap N value <> value ->
               bitint.from_chars_bit_int N s x base
               = (ptr, result_out_of_range, swrap N value))
           /\ (ec <> errc_none \/ swrap N value = value ->
               bitint.from_chars_bit_int N s x base
               = (ptr, ec, swrap N value)))
    /\ (exists ptr ec value,
           bitint.carrier_from_chars_unsigned (bitint.least_bits N) s 0 base
           = (ptr, ec, value)
           /\ (wrap N value = value <-> 0 <= value < 2 ^ N)
           /\ (ec = errc_none -> wrap N value <> value ->
               bitint.from_chars_bit_uint N s x base
               = (ptr, result_out_of_range, wrap N value))
           /\ (ec <> errc_none \/ wrap N value = value ->
               bitint.from_chars_bit_uint N s x base
               = (ptr, ec, wrap N value))).
Proof.
  intros N s x base HN. split; [|split].
  - unfold bitint.least_bits.
    destruct (N <=? 8) eqn:E8; zbool;
      [|destruct (N <=? 16) eqn:E16; zbool;
        [|destruct (N <=? 32) eqn:E32; zbool;
          [|destruct (N <=? 64) eqn:E64; zbool]]];
      (split; [cbn; tauto|]); (split; [lia|]);
      intros w Hw Hle; cbn in Hw;
      repeat (destruct Hw as [<-|Hw]; [lia|]); contradiction.
  - destruct (bitint.carrier_from_chars_signed (bitint.least_bits N) s 0 base)
      as [[ptr ec] value] eqn:Hc.
    exists ptr, ec, value. split; [reflexivity|].
    split; [apply swrap_eq_iff; lia|].
    unfold bitint.from_chars_bit_int. rewrite Hc. split.
    + intros -> Hne. apply Z.eqb_neq in Hne. rewrite Hne. reflexivity.
    + intros [Hec|Heq].
      * destruct ec; try congruence; reflexivity.
      * apply Z.eqb_eq in Heq. rewrite Heq, andb_false_r. reflexivity.
  - destruct (bitint.carrier_from_chars_unsigned (bitint.least_bits N) s 0 base)
      as [[ptr ec] value] eqn:Hc.
    exists ptr, ec, value. split; [reflexivity|].
    split; [apply wrap_eq_iff; lia|].
    unfold bitint.from_chars_bit_uint. rewrite Hc. split.
    + intros -> Hne. apply Z.eqb_neq in Hne. rewrite Hne. reflexivity.
    + intros [Hec|Heq].
      * destruct ec; try congruence; reflexivity.
      * apply Z.eqb_eq in Heq. rewrite Heq, andb_false_r. reflexivity.
Qed.

Lemma from_chars_bit_precise_narrowing_witness :
  1 <= 100 <= 128
  /\ exists ptr ec value,
      bitint.carrier_from_chars_unsigned (bitint.least_bits 100) (chars "ff") 0 16
      = (ptr, ec, value)
      /\ (wrap 100 value = value <-> 0 <= value < 2 ^ 100)
      /\ (ec = errc_none -> wrap 100 value <> value ->
          bitint.from_chars_bit_uint 100 (chars "ff") 0 16
          = (ptr, result_out_of_range, wrap 100 value))
      /\ (ec <> errc_none \/ wrap 100 value = value ->
          bitint.from_chars_bit_uint 100 (chars "ff") 0 16
          = (ptr, ec, wrap 100 value)).
Proof.
  split; [lia|].
  apply (from_chars_bit_precise_narrowing 100 (chars "ff") 0 16). lia.
Defined.

(** C2, at a buffer of two characters: formatting [2^64] in base 16, and
    [2 * 10^19] in base 10, reports success, returns a pointer past
    [last] and stores zeros past [last]. *)
Theorem to_chars_stores_past_last :
  let m : mem := fun _ => "#"%char in
  (exists m',
      to_chars_u128 m 0 2 (2 ^ 64) 16 = Some (17, errc_none, m')
      /\ load_list m' 0 17 = chars "10000000000000000"
      /\ m 2 = "#"%char /\ m' 2 = "0"%char)
  /\ (exists m',
         to_chars_u128 m 0 2 (2 * 10 ^ 19) 10 = Some (20, errc_none, m')
         /\ load_list m' 0 20 = chars "20000000000000000000"
         /\ m 2 = "#"%char /\ m' 2 = "0"%char).
Proof.
  intros m. split; eexists; (split; [vm_compute; reflexivity|]);
    repeat split; vm_compute; reflexivity.
Qed.

(** C3, at the 58 digits of [10^57] in base 10: the running factor has
    wrapped around when the leading 1 is reached, and [from_chars]
    reports success with the value [10^57 mod 2^128]. *)
Theorem from_chars_u128_misses_overflow :
  let s := "1"%char :: repeat "0"%char 57 in
  std.digits_value 10 s = 10 ^ 57
  /\ 2 ^ 128 <= 10 ^ 57
  /\ forall out,
      from_chars_u128 s out 10 = Some (58, errc_none, 10 ^ 57 mod 2 ^ 128).
Proof.
  intros s. split; [vm_compute; reflexivity|]. split; [vm_compute; discriminate|].
  intros out. vm_compute. reflexivity.
Qed.

(** C4, at 63 zeros followed by a 1 in base 8 (the value 1), and at 49
    zeros in base 16 (the value 0): [from_chars] reports
    [result_out_of_range] when it reaches the fourth chunk, whose shift
    is past 128. *)
Theorem from_chars_u128_rejects_leading_zeros :
  (let s := repeat "0"%char 63 ++ ["1"%char] in
   valid_digits 8 s
   /\ std.digits_value 8 s = 1
   /\ forall out,
       from_chars_u128 s out 8 = Some (64, result_out_of_range, out))
  /\ (let s := repeat "0"%char 49 in
      valid_digits 16 s
      /\ std.digits_value 16 s = 0
      /\ forall out,
          from_chars_u128 s out 16 = Some (49, result_out_of_range, out)).
Proof.
  split; intros s.
  - split; [|split].
    + apply valid_digits_app; [apply valid_digits_zeros; lia|].
      constructor; [change (detail.digit_value "1") with 1; lia|constructor].
    + vm_compute. reflexivity.
    + intros out. vm_compute. reflexivity.
  - split; [apply valid_digits_zeros; lia|].
    split; [apply digits_value_zeros|].
    intros out. vm_compute. reflexivity.
Qed.

(** C5, at a minus sign followed by 18 characters that are no digits, in
    base 10: the signed [from_chars] reports [invalid_argument] with the
    pointer one past the start; with one character less it takes the
    native path and returns the start. *)
Theorem from_chars_i128_invalid_pointer :
  (forall out,
      from_chars_i128 (chars "-xxxxxxxxxxxxxxxxxx") out 10
      = Some (1, invalid_argument, 0))
  /\ (forall out,
         from_chars_i128 (chars "-xxxxxxxxxxxxxxxxx") out 10
         = Some (0, invalid_argument, 0)).
Proof.
  split; intros out; vm_compute; reflexivity.
Qed.

(** C10, at the span "x": in base 10 [from_chars] reports
    [invalid_argument] and has stored 0 in [out]; in base 16 it leaves
    [out] as it was. *)
Theorem from_chars_u128_stores_on_error :
  (forall out, from_chars_u128 (chars "x") out 10 = Some (0, invalid_argument, 0))
  /\ (forall out, from_chars_u128 (chars "x") out 16 = Some (0, invalid_argument, out)).
Proof.
  split; intros out; vm_compute; reflexivity.
Qed.

(** * Further properties of the code *)

(** ** Namespace [detail] *)

Lemma u64_pow_naive_loop_spec (n : nat) (x r : Z) :
  0 <= r < 2 ^ 64 ->
  detail.u64_pow_naive_loop n x r = (r * x ^ Z.of_nat n) mod 2 ^ 64.
Proof.
  revert r. induction n as [|n IH]; intros r Hr.
  - cbn [detail.u64_pow_naive_loop]. change (x ^ Z.of_nat 0) with 1.
    rewrite Z.mul_1_r, Z.mod_small by lia. reflexivity.
  - cbn [detail.u64_pow_naive_loop]. rewrite IH by (apply Z.mod_pos_bound; lia).
    unfold wrap. rewrite Z.mul_mod_idemp_l by lia.
    rewrite Nat2Z.inj_succ, Z.pow_succ_r by lia.
    f_equal. lia.
Qed.

(** X1: [u64_pow_naive x y] is the power [x ^ y] reduced modulo [2^64]
    (the multiplication of [std::uint64_t] wraps around); it is the
    power itself when that is below [2^64], and 1 when the exponent is
    not positive. *)
Theorem u64_pow_naive_modular :
  forall x y,
    (0 <= y -> detail.u64_pow_naive x y = x ^ y mod 2 ^ 64)
    /\ (0 <= y -> 0 <= x -> x ^ y < 2 ^ 64 -> detail.u64_pow_naive x y = x ^ y)
    /\ (y <= 0 -> detail.u64_pow_naive x y = 1).
Proof.
  intros x y.
  assert (H : 0 <= y -> detail.u64_pow_naive x y = x ^ y mod 2 ^ 64).
  { intros Hy. unfold detail.u64_pow_naive.
    rewrite u64_pow_naive_loop_spec by lia.
    rewrite Z2Nat.id, Z.mul_1_l by lia. reflexivity. }
  split; [exact H|]. split.
  - intros Hy Hx Hlt. rewrite H by exact Hy. apply Z.mod_small.
    split; [apply Z.pow_nonneg; exact Hx|exact Hlt].
  - intros Hy. unfold detail.u64_pow_naive.
    replace (Z.to_nat y) with O by lia. reflexivity.
Qed.

Lemma u64_pow_naive_modular_witness :
  0 <= 13 /\ detail.u64_pow_naive 36 13 = 36 ^ 13 mod 2 ^ 64.
Proof.
  split; [lia|]. apply (proj1 (u64_pow_naive_modular 36 13)). lia.
Defined.

Lemma naive_loop_spec (base : Z) :
  2 <= base ->
  forall (fuel : nat) (r : Z),
    0 <= r <= 65 -> 66 - r <= Z.of_nat fuel ->
    exists r',
      detail.naive_loop fuel base (base ^ r) r = Some r'
      /\ r <= r' <= 65
      /\ 2 ^ 64 < base ^ r'
      /\ (r' = r \/ base ^ (r' - 1) <= 2 ^ 64).
Proof.
  intros Hb. induction fuel as [|fuel IH]; intros r Hr Hfuel; [lia|].
  cbn [detail.naive_loop].
  assert (Hpos : 0 < base ^ r) by (apply Z.pow_pos_nonneg; lia).
  destruct (base ^ r <=? 2 ^ 64) eqn:E; zbool.
  - assert (Hr64 : r <= 64).
    { pose proof (pow2_le_base_pow base r Hb ltac:(lia)).
      assert (r < 65); [|lia].
      apply (Z.pow_lt_mono_r_iff 2); lia. }
    cbv zeta.
    replace (base ^ r * base) with (base ^ (r + 1))
      by (rewrite Z.pow_add_r by lia; lia).
    assert (Hpos' : 0 < base ^ (r + 1)) by (apply Z.pow_pos_nonneg; lia).
    replace (base ^ (r + 1) =? 0) with false by (symmetry; apply Z.eqb_neq; lia).
    destruct (IH (r + 1) ltac:(lia) ltac:(lia)) as (r' & Heq & Hrange & Hgt & Hprev).
    exists r'. split; [exact Heq|]. split; [lia|]. split; [exact Hgt|].
    right. destruct Hprev as [->|Hprev]; [|exact Hprev].
    replace (r + 1 - 1) with r by lia. exact E.
  - exists r. split; [reflexivity|]. split; [lia|]. split; [lia|]. left. reflexivity.
Qed.

(** X2: [u64_max_representable_digits_naive] for any base.  For every
    [int] base from 2 on, not only for the 35 bases of the table, the
    loop ends through its test (the product never becomes 0) and the
    function returns the largest [d] with [base^d <= 2^64]. *)
Theorem u64_max_representable_digits_naive_any_base :
  forall base,
    2 <= base < 2 ^ 31 ->
    exists d,
      detail.u64_max_representable_digits_naive base = Some d
      /\ 0 <= d <= 64
      /\ base ^ d <= 2 ^ 64 < base ^ (d + 1).
Proof.
  intros base Hb. unfold detail.u64_max_representable_digits_naive.
  destruct (naive_loop_spec base ltac:(lia) 128 0 ltac:(lia) ltac:(lia))
    as (r & Heq & Hrange & Hgt & Hprev).
  change (base ^ 0) with 1 in Heq. rewrite Heq. cbn [option_map].
  exists (r - 1). split; [reflexivity|].
  destruct Hprev as [->|Hprev].
  - change (base ^ 0) with 1 in Hgt. lia.
  - assert (r <> 0) by (intros ->; change (base ^ 0) with 1 in Hgt; lia).
    replace (r - 1 + 1) with r by lia. lia.
Qed.

Lemma u64_max_representable_digits_naive_any_base_witness :
  2 <= 1000 < 2 ^ 31
  /\ exists d,
      detail.u64_max_representable_digits_naive 1000 = Some d
      /\ 0 <= d <= 64
      /\ 1000 ^ d <= 2 ^ 64 < 1000 ^ (d + 1).
Proof.
  assert (H : 2 <= 1000 < 2 ^ 31) by lia.
  split; [exact H|].
  exact (u64_max_representable_digits_naive_any_base 1000 H).
Defined.

Lemma pattern_length_stops (base : Z) (s : list ascii) (c : ascii) :
  nth_error s (detail.pattern_length s base) = Some c ->
  ~ 0 <= detail.digit_value c < base.
Proof.
  induction s as [|a s IH]; [discriminate|].
  cbn [detail.pattern_length].
  destruct (detail.digit_value a <? 0) eqn:E1.
  - cbn. intros [= ->]. zlia.
  - destruct (detail.digit_value a >=? base) eqn:E2.
    + cbn. intros [= ->]. zlia.
    + cbn. exact IH.
Qed.

Lemma valid_firstn_le_pattern (base : Z) (s : list ascii) (k : nat) :
  (k <= List.length s)%nat -> valid_digits base (firstn k s) ->
  (k <= detail.pattern_length s base)%nat.
Proof.
  revert k. induction s as [|a s IH]; intros k Hk Hv.
  - simpl in Hk. lia.
  - destruct k as [|k]; [lia|].
    cbn [firstn] in Hv. inversion Hv as [|? ? Ha Hs]; subst.
    cbn [detail.pattern_length].
    destruct (detail.digit_value a <? 0) eqn:E1; [zlia|].
    destruct (detail.digit_value a >=? base) eqn:E2; [zlia|].
    cbn. apply le_n_S, IH; [simpl in Hk; lia|exact Hs].
Qed.

(** X3: [pattern_length] is the length of the longest run of digits of
    the base at the start of the span: it stays within the span, every
    character before it is a digit below the base (upper or lower
    case), the character at it, if there is one, is not, and no longer
    prefix of the span consists of digits. *)
Theorem pattern_length_longest_run :
  forall s base,
    let n := detail.pattern_length s base in
    (n <= List.length s)%nat
    /\ valid_digits base (firstn n s)
    /\ (forall c, nth_error s n = Some c -> ~ 0 <= detail.digit_value c < base)
    /\ (forall k, (k <= List.length s)%nat ->
                  valid_digits base (firstn k s) -> (k <= n)%nat).
Proof.
  intros s base n. split; [apply pattern_length_le|].
  split; [apply pattern_prefix_valid|].
  split; [apply pattern_length_stops|].
  intros k. apply valid_firstn_le_pattern.
Qed.

(** ** [from_chars] for [uint128_t] on any span *)

Lemma pattern_end_eq (s : list ascii) (base : Z) :
  pattern_end s base = Z.of_nat (detail.pattern_length s base).
Proof. reflexivity. Qed.

Lemma prefix_value_pattern (s : list ascii) (base : Z) :
  prefix_value s base (pattern_end s base)
  = std.digits_value base (firstn (detail.pattern_length s base) s).
Proof.
  unfold prefix_value. rewrite pattern_end_eq, Nat2Z.id. reflexivity.
Qed.

(** X4: what [from_chars] for [uint128_t] returns, for every span and
    every base.  The call returns; the pointer is the end of the run of
    digits at the start of the span, whatever the error; the error is
    [invalid_argument] exactly when the span does not start with a digit
    of the base, and [errc {}] or [result_out_of_range] otherwise, never
    [value_too_large]; [out] keeps its value on [result_out_of_range]
    and on an empty span. *)
Theorem from_chars_u128_outcome :
  forall base s out,
    2 <= base <= 36 ->
    exists ec out',
      from_chars_u128 s out base
      = Some (Z.of_nat (detail.pattern_length s base), ec, out')
      /\ (ec = invalid_argument <-> detail.pattern_length s base = O)
      /\ (ec = errc_none \/ ec = invalid_argument \/ ec = result_out_of_range)
      /\ (ec = result_out_of_range -> out' = out)
      /\ (s = [] -> out' = out).
Proof.
  intros base s out Hb.
  destruct (from_chars_u128_result base s out Hb) as (ec & out' & Hrun & H0 & Hpos).
  rewrite pattern_end_eq in Hrun, H0, Hpos.
  exists ec, out'. split; [exact Hrun|].
  destruct (detail.pattern_length s base) as [|k] eqn:Ek.
  - destruct (H0 eq_refl) as (-> & Hout).
    split; [tauto|]. split; [tauto|]. split; [discriminate|].
    intros ->. exact Hout.
  - assert (Hk : 0 < Z.of_nat (S k)) by lia.
    destruct (Hpos Hk) as [->|(-> & ->)].
    + split; [split; discriminate|]. split; [tauto|]. split; [discriminate|].
      intros ->. discriminate.
    + split; [split; discriminate|]. split; [tauto|]. split; [reflexivity|].
      reflexivity.
Qed.

Lemma from_chars_u128_outcome_witness :
  2 <= 10 <= 36
  /\ exists ec out',
      from_chars_u128 (chars "12ab") 7 10
      = Some (Z.of_nat (detail.pattern_length (chars "12ab") 10), ec, out')
      /\ (ec = invalid_argument <-> detail.pattern_length (chars "12ab") 10 = O)
      /\ (ec = errc_none \/ ec = invalid_argument \/ ec = result_out_of_range)
      /\ (ec = result_out_of_range -> out' = 7)
      /\ (chars "12ab" = [] -> out' = 7).
Proof.
  split; [lia|]. apply (from_chars_u128_outcome 10 (chars "12ab") 7). lia.
Defined.

Lemma three_chunks_top (base n : Z) :
  2 <= base <= 36 -> is_pow_2 base = true -> 0 < n ->
  let d := detail.u64_max_representable_digits base in
  let top := std.countr_zero (detail.u64_max_power base) * ((n - 1) / d) in
  (top <=? 128) = (n <=? 3 * d).
Proof.
  intros Hb Hp Hn d top.
  destruct (pow2_base_facts base Hb Hp) as (Hbpi & _).
  destruct (max_digits_bounds base Hb) as (Hd & _). fold d in Hd.
  set (bpi := std.countr_zero (detail.u64_max_power base)) in *.
  assert (Hq : 0 <= (n - 1) / d) by (apply Z.div_pos; lia).
  destruct (n <=? 3 * d) eqn:E; zbool.
  - apply Z.leb_le.
    assert ((n - 1) / d < 3) by (apply Z.div_lt_upper_bound; lia).
    unfold top. nia.
  - apply Z.leb_gt.
    assert (3 <= (n - 1) / d) by (apply Z.div_le_lower_bound; lia).
    unfold top. nia.
Qed.

(** X5: exactness on runs of at most three chunks.  For every base and
    every span that starts with a run of at most
    [3 * u64_max_representable_digits base] digits (57 digits in base
    10, 48 in base 16, 192 in base 2), leading zeros included,
    [from_chars] for [uint128_t] is exact: it stores the value of the
    run when that is below [2^128], and it reports
    [result_out_of_range] without touching [out] when it is not. *)
Theorem from_chars_u128_exact :
  forall base s out,
    2 <= base <= 36 ->
    let n := detail.pattern_length s base in
    let v := std.digits_value base (firstn n s) in
    (0 < n)%nat ->
    Z.of_nat n <= 3 * detail.u64_max_representable_digits base ->
    from_chars_u128 s out base
    = if v <? 2 ^ 128 then Some (Z.of_nat n, errc_none, v)
      else Some (Z.of_nat n, result_out_of_range, out).
Proof.
  intros base s out Hb n v Hn Hlen.
  assert (Hn' : 0 < pattern_end s base) by (rewrite pattern_end_eq; fold n; lia).
  destruct (is_pow_2 base) eqn:Hp.
  - rewrite (from_chars_u128_pow2 base s out Hb Hp Hn').
    rewrite (three_chunks_top base (pattern_end s base) Hb Hp Hn').
    rewrite prefix_value_pattern, pattern_end_eq. fold n v.
    replace (Z.of_nat n <=? 3 * detail.u64_max_representable_digits base)
      with true by (symmetry; apply Z.leb_le; exact Hlen).
    rewrite andb_true_r. reflexivity.
  - destruct (from_chars_u128_other base s out Hb Hp Hn') as (Hok & Hov & _).
    rewrite prefix_value_pattern, pattern_end_eq in Hok, Hov. fold n v in Hok, Hov.
    destruct (v <? 2 ^ 128) eqn:Ev; zbool; [apply Hok|apply Hov]; assumption.
Qed.

Lemma from_chars_u128_exact_witness :
  2 <= 10 <= 36
  /\ (0 < detail.pattern_length (chars "0042;") 10)%nat
  /\ Z.of_nat (detail.pattern_length (chars "0042;") 10)
     <= 3 * detail.u64_max_representable_digits 10
  /\ from_chars_u128 (chars "0042;") 7 10
     = if std.digits_value 10
            (firstn (detail.pattern_length (chars "0042;") 10) (chars "0042;"))
          <? 2 ^ 128
       then Some (Z.of_nat (detail.pattern_length (chars "0042;") 10), errc_none,
                  std.digits_value 10
                    (firstn (detail.pattern_length (chars "0042;") 10)
                            (chars "0042;")))
       else Some (Z.of_nat (detail.pattern_length (chars "0042;") 10),
                  result_out_of_range, 7).
Proof.
  assert (H1 : 2 <= 10 <= 36) by lia.
  assert (H2 : (0 < detail.pattern_length (chars "0042;") 10)%nat)
    by (vm_compute; lia).
  assert (H3 : Z.of_nat (detail.pattern_length (chars "0042;") 10)
               <= 3 * detail.u64_max_representable_digits 10)
    by (vm_compute; discriminate).
  split; [exact H1|]. split; [exact H2|]. split; [exact H3|].
  exact (from_chars_u128_exact 10 (chars "0042;") 7 H1 H2 H3).
Defined.

(** X6: runs of more than three chunks.  In the bases 2, 4, 8, 16 and 32
    a run of more than [3 * u64_max_representable_digits base] digits
    is [result_out_of_range] whatever its value, zero included, and
    [out] keeps its value.  In every other base a run of any length
    whose value is below [2^128], which then starts with zeros, is
    parsed to its value. *)
Theorem from_chars_u128_long_runs :
  forall base s out,
    2 <= base <= 36 ->
    let n := detail.pattern_length s base in
    let v := std.digits_value base (firstn n s) in
    3 * detail.u64_max_representable_digits base < Z.of_nat n ->
    (is_pow_2 base = true ->
     from_chars_u128 s out base = Some (Z.of_nat n, result_out_of_range, out))
    /\ (is_pow_2 base = false -> v < 2 ^ 128 ->
        from_chars_u128 s out base = Some (Z.of_nat n, errc_none, v)).
Proof.
  intros base s out Hb n v Hlen.
  destruct (max_digits_bounds base Hb) as (Hd & _).
  assert (Hn' : 0 < pattern_end s base) by (rewrite pattern_end_eq; fold n; lia).
  split; intros Hp.
  - rewrite (from_chars_u128_pow2 base s out Hb Hp Hn').
    rewrite (three_chunks_top base (pattern_end s base) Hb Hp Hn').
    rewrite pattern_end_eq. fold n.
    replace (Z.of_nat n <=? 3 * detail.u64_max_representable_digits base)
      with false by (symmetry; apply Z.leb_gt; exact Hlen).
    rewrite andb_false_r. reflexivity.
  - intros Hv.
    destruct (from_chars_u128_other base s out Hb Hp Hn') as (Hok & _).
    rewrite prefix_value_pattern, pattern_end_eq in Hok. apply Hok, Hv.
Qed.

Lemma from_chars_u128_long_runs_witness :
  let s := repeat "0"%char 60 ++ chars "7" in
  2 <= 10 <= 36
  /\ 3 * detail.u64_max_representable_digits 10
     < Z.of_nat (detail.pattern_length s 10)
  /\ is_pow_2 10 = false
  /\ std.digits_value 10 (firstn (detail.pattern_length s 10) s) < 2 ^ 128
  /\ from_chars_u128 s 0 10
     = Some (Z.of_nat (detail.pattern_length s 10), errc_none,
             std.digits_value 10 (firstn (detail.pattern_length s 10) s)).
Proof.
  intros s.
  assert (H1 : 2 <= 10 <= 36) by lia.
  assert (H2 : 3 * detail.u64_max_representable_digits 10
               < Z.of_nat (detail.pattern_length s 10)) by (vm_compute; reflexivity).
  assert (H3 : is_pow_2 10 = false) by reflexivity.
  assert (H4 : std.digits_value 10 (firstn (detail.pattern_length s 10) s) < 2 ^ 128)
    by (vm_compute; reflexivity).
  split; [exact H1|]. split; [exact H2|]. split; [exact H3|]. split; [exact H4|].
  exact (proj2 (from_chars_u128_long_runs 10 s 0 H1 H2) H3 H4).
Defined.

(** ** [from_chars] reads the digits through their values *)

Lemma pattern_length_digit_values (base : Z) (s t : list ascii) :
  map detail.digit_value s = map detail.digit_value t ->
  detail.pattern_length s base = detail.pattern_length t base.
Proof.
  revert t. induction s as [|a s IH]; intros [|b t] H; try discriminate.
  - reflexivity.
  - cbn [map] in H. injection H as Hab Hst.
    cbn [detail.pattern_length]. rewrite Hab, (IH t Hst). reflexivity.
Qed.

Lemma digits_value_digit_values (base : Z) (s t : list ascii) :
  map detail.digit_value s = map detail.digit_value t ->
  std.digits_value base s = std.digits_value base t.
Proof.
  unfold std.digits_value. generalize 0.
  revert t. induction s as [|a s IH]; intros [|b t] acc H; try discriminate.
  - reflexivity.
  - cbn [map] in H. injection H as Hab Hst.
    cbn [fold_left]. rewrite Hab. apply IH, Hst.
Qed.

Lemma std_from_chars_unsigned_digit_values (w base : Z) (s t : list ascii) (v : Z) :
  map detail.digit_value s = map detail.digit_value t ->
  std.from_chars_unsigned w s v base = std.from_chars_unsigned w t v base.
Proof.
  intros H. unfold std.from_chars_unsigned.
  rewrite (pattern_length_digit_values base s t H).
  rewrite (digits_value_digit_values base (firstn _ s) (firstn _ t))
    by (rewrite <- !firstn_map, H; reflexivity).
  reflexivity.
Qed.

Lemma std_from_chars_signed_digit_values (w base : Z) (s t : list ascii) (v : Z) :
  map detail.digit_value s = map detail.digit_value t ->
  std.from_chars_signed w ("-"%char :: s) v base
  = std.from_chars_signed w ("-"%char :: t) v base.
Proof.
  intros H. unfold std.from_chars_signed.
  rewrite (pattern_length_digit_values base s t H).
  rewrite (digits_value_digit_values base (firstn _ s) (firstn _ t))
    by (rewrite <- !firstn_map, H; reflexivity).
  reflexivity.
Qed.

Lemma subspan_digit_values (s : list ascii) (N : nat) (a b : Z) :
  0 <= a <= b -> b <= Z.of_nat N ->
  map detail.digit_value (subspan s a b)
  = firstn (Z.to_nat (b - a))
      (skipn (Z.to_nat a) (map detail.digit_value (firstn N s))).
Proof.
  intros Hab Hb. unfold subspan.
  rewrite <- firstn_map, <- skipn_map, <- (firstn_map _ N).
  rewrite skipn_firstn_comm, firstn_firstn. f_equal. lia.
Qed.

Section FromCharsTwoSpans.

Variables s t : list ascii.
Variables out base : Z.
Hypothesis Hbase : 2 <= base <= 36.

Let d := detail.u64_max_representable_digits base.
Let n := detail.pattern_length s base.

Hypothesis Hn : detail.pattern_length t base = n.
Hypothesis Hdigits :
  map detail.digit_value (firstn n s) = map detail.digit_value (firstn n t).

Lemma chunk_two_spans (cl : Z) :
  0 <= cl <= Z.of_nat n ->
  let ll := Z.min (cl - 0) d in
  std.from_chars_unsigned 64 (subspan s (cl - ll) cl) 0 base
  = std.from_chars_unsigned 64 (subspan t (cl - ll) cl) 0 base.
Proof.
  intros Hcl ll. apply std_from_chars_unsigned_digit_values.
  destruct (max_digits_bounds base Hbase) as (Hd & _). fold d in Hd.
  rewrite !(subspan_digit_values _ n) by lia.
  rewrite Hdigits. reflexivity.
Qed.

Lemma from_chars_mul_loop_two_spans (max_pow : Z) :
  forall (fuel1 fuel2 : nat) (cl result factor : Z),
    0 <= cl <= Z.of_nat n ->
    (0 < fuel1)%nat -> (0 < fuel2)%nat ->
    cl <= Z.of_nat fuel1 -> cl <= Z.of_nat fuel2 ->
    from_chars_mul_loop s out base (Z.of_nat n) max_pow d fuel1 cl result factor
    = from_chars_mul_loop t out base (Z.of_nat n) max_pow d fuel2 cl result factor.
Proof.
  destruct (max_digits_bounds base Hbase) as (Hd & _). fold d in Hd.
  induction fuel1 as [|fuel1 IH]; intros fuel2 cl result factor Hcl H1 H2 Hf1 Hf2;
    [lia|].
  destruct fuel2 as [|fuel2]; [lia|].
  cbn [from_chars_mul_loop]. cbv zeta.
  rewrite (chunk_two_spans cl Hcl).
  destruct (std.from_chars_unsigned 64 _ 0 base) as [[pp pec] digits].
  destruct (detail.mul_overflow factor digits) as [summand ov1].
  destruct ov1; [reflexivity|].
  destruct (detail.add_overflow result summand) as [result' ov2].
  destruct ov2; [reflexivity|].
  destruct (cl - 0 <=? d) eqn:E; cbn [orb]; [reflexivity|].
  destruct (negb (errc_eqb pec errc_none)); [reflexivity|].
  zbool. apply IH; lia.
Qed.

Lemma from_chars_pow2_loop_two_spans (bpi : Z) :
  forall (fuel1 fuel2 : nat) (cl result shift : Z),
    0 <= cl <= Z.of_nat n ->
    (0 < fuel1)%nat -> (0 < fuel2)%nat ->
    cl <= Z.of_nat fuel1 -> cl <= Z.of_nat fuel2 ->
    from_chars_pow2_loop s out base (Z.of_nat n) d fuel1 bpi cl result shift
    = from_chars_pow2_loop t out base (Z.of_nat n) d fuel2 bpi cl result shift.
Proof.
  destruct (max_digits_bounds base Hbase) as (Hd & _). fold d in Hd.
  induction fuel1 as [|fuel1 IH]; intros fuel2 cl result shift Hcl H1 H2 Hf1 Hf2;
    [lia|].
  destruct fuel2 as [|fuel2]; [lia|].
  cbn [from_chars_pow2_loop]. cbv zeta.
  rewrite (chunk_two_spans cl Hcl).
  destruct (std.from_chars_unsigned 64 _ 0 base) as [[pp pec] digits].
  destruct (negb (errc_eqb pec errc_none)); [reflexivity|].
  destruct (shift + (64 - std.countl_zero digits) >? 128); [reflexivity|].
  destruct (cl - 0 <=? d) eqn:E; cbn [orb]; [reflexivity|].
  zbool. apply IH; lia.
Qed.

Lemma from_chars_u128_two_spans :
  (s = [] <-> t = []) ->
  from_chars_u128 s out base = from_chars_u128 t out base.
Proof.
  intros Hnil. unfold from_chars_u128. cbv zeta.
  assert (Hlen : (0 =? len s) = (0 =? len t)).
  { destruct s, t; try reflexivity.
    - destruct Hnil as [Hnil _]. specialize (Hnil eq_refl). discriminate.
    - destruct Hnil as [_ Hnil]. specialize (Hnil eq_refl). discriminate. }
  destruct (0 =? len s) eqn:Es; rewrite <- Hlen.
  - symmetry in Hlen. zbool. rewrite <- Es, <- Hlen. reflexivity.
  - rewrite Hn. fold n. fold d. rewrite !Z.add_0_l.
    pose proof (pattern_length_le base s) as Hs.
    pose proof (pattern_length_le base t) as Ht. rewrite Hn in Ht. fold n in Hs.
    destruct (Z.land base (base - 1) =? 0).
    + apply from_chars_pow2_loop_two_spans; lia.
    + apply from_chars_mul_loop_two_spans; lia.
Qed.

End FromCharsTwoSpans.

(** X7: what follows the run of digits has no influence.  On a span
    that starts with a digit, [from_chars] for [uint128_t] returns what
    it returns on the run of digits alone: the same pointer, error and
    value of [out]. *)
Theorem from_chars_u128_ignores_rest :
  forall base s out,
    2 <= base <= 36 ->
    (0 < detail.pattern_length s base)%nat ->
    from_chars_u128 s out base
    = from_chars_u128 (firstn (detail.pattern_length s base) s) out base.
Proof.
  intros base s out Hb Hn.
  set (n := detail.pattern_length s base) in *.
  assert (Hpl : detail.pattern_length (firstn n s) base = n).
  { rewrite pattern_length_valid by apply pattern_prefix_valid.
    rewrite length_firstn. pose proof (pattern_length_le base s). fold n in H. lia. }
  apply from_chars_u128_two_spans; try assumption.
  - fold n. rewrite firstn_firstn, Nat.min_id. reflexivity.
  - split; intros H.
    + subst s. reflexivity.
    + rewrite H in Hpl. cbn in Hpl. lia.
Qed.

Lemma from_chars_u128_ignores_rest_witness :
  2 <= 16 <= 36
  /\ (0 < detail.pattern_length (chars "ff, 12") 16)%nat
  /\ from_chars_u128 (chars "ff, 12") 0 16
     = from_chars_u128
         (firstn (detail.pattern_length (chars "ff, 12") 16) (chars "ff, 12")) 0 16.
Proof.
  assert (H1 : 2 <= 16 <= 36) by lia.
  assert (H2 : (0 < detail.pattern_length (chars "ff, 12") 16)%nat)
    by (vm_compute; lia).
  split; [exact H1|]. split; [exact H2|].
  exact (from_chars_u128_ignores_rest 16 (chars "ff, 12") 0 H1 H2).
Defined.

Lemma lower_case_digit_value (c : ascii) :
  detail.digit_value (lower_case c) = detail.digit_value c.
Proof. destruct c as [[] [] [] [] [] [] [] []]; vm_compute; reflexivity. Qed.

Lemma lower_case_minus (c : ascii) :
  Ascii.eqb (lower_case c) "-" = Ascii.eqb c "-".
Proof. destruct c as [[] [] [] [] [] [] [] []]; vm_compute; reflexivity. Qed.

Lemma lower_case_digit_values (s : list ascii) :
  map detail.digit_value (map lower_case s) = map detail.digit_value s.
Proof.
  rewrite map_map. apply map_ext. intros c. apply lower_case_digit_value.
Qed.

Lemma from_chars_u128_lower_case (base : Z) (s : list ascii) (out : Z) :
  2 <= base <= 36 ->
  from_chars_u128 (map lower_case s) out base = from_chars_u128 s out base.
Proof.
  intros Hb.
  assert (Hpl : detail.pattern_length (map lower_case s) base
                = detail.pattern_length s base)
    by (apply pattern_length_digit_values, lower_case_digit_values).
  symmetry. apply from_chars_u128_two_spans; try assumption.
  - rewrite firstn_map, lower_case_digit_values. reflexivity.
  - destruct s; split; (reflexivity || discriminate).
Qed.

(** X8: letters are read without regard to case.  For every span and
    every base, [from_chars] for [uint128_t] and for [int128_t] returns
    on the span the same pointer, error and value as on the span with
    its upper-case letters replaced by lower-case ones. *)
Theorem from_chars_case_insensitive :
  forall base s out,
    2 <= base <= 36 ->
    from_chars_u128 (map lower_case s) out base = from_chars_u128 s out base
    /\ from_chars_i128 (map lower_case s) out base = from_chars_i128 s out base.
Proof.
  intros base s out Hb. split; [apply from_chars_u128_lower_case, Hb|].
  destruct s as [|c s]; [reflexivity|].
  cbn [map]. cbn [from_chars_i128]. rewrite lower_case_minus.
  destruct (Ascii.eqb c "-") eqn:Ec; cbn [negb].
  - apply Ascii.eqb_eq in Ec. subst c.
    change (lower_case "-") with "-"%char.
    replace (len ("-"%char :: map lower_case s)) with (len ("-"%char :: s))
      by (unfold len; cbn [List.length]; rewrite length_map; reflexivity).
    rewrite (std_from_chars_signed_digit_values 64 base (map lower_case s) s 0)
      by apply lower_case_digit_values.
    rewrite (from_chars_u128_lower_case base s 0 Hb). reflexivity.
  - change (lower_case c :: map lower_case s) with (map lower_case (c :: s)).
    rewrite (from_chars_u128_lower_case base (c :: s) 0 Hb). reflexivity.
Qed.

Lemma from_chars_case_insensitive_witness :
  2 <= 16 <= 36
  /\ from_chars_u128 (map lower_case (chars "7Fe")) 0 16
     = from_chars_u128 (chars "7Fe") 0 16
  /\ from_chars_i128 (map lower_case (chars "7Fe")) 0 16
     = from_chars_i128 (chars "7Fe") 0 16.
Proof.
  split; [lia|]. apply (from_chars_case_insensitive 16 (chars "7Fe") 0). lia.
Defined.

(** ** [from_chars] for [int128_t] on any span *)

Lemma lor_range (a b n : Z) :
  0 <= n -> 0 <= a < 2 ^ n -> 0 <= b < 2 ^ n -> 0 <= Z.lor a b < 2 ^ n.
Proof.
  intros Hn Ha Hb. split; [apply Z.lor_nonneg; lia|].
  destruct (Z.eq_dec a 0) as [->|Ha0]; [rewrite Z.lor_0_l; lia|].
  destruct (Z.eq_dec b 0) as [->|Hb0]; [rewrite Z.lor_0_r; lia|].
  assert (Hpos : 0 < Z.lor a b).
  { assert (0 <= Z.lor a b) by (apply Z.lor_nonneg; lia).
    assert (Z.lor a b <> 0) by (rewrite Z.lor_eq_0_iff; lia). lia. }
  apply Z.log2_lt_pow2; [exact Hpos|].
  rewrite Z.log2_lor by lia.
  assert (Z.log2 a < n) by (apply Z.log2_lt_pow2; lia).
  assert (Z.log2 b < n) by (apply Z.log2_lt_pow2; lia).
  lia.
Qed.

Section FromCharsSuccess.

Variable s : list ascii.
Variables base initial_last max_pow mll : Z.

(** A successful run of the loops stores a 128-bit value and does not
    depend on the value [out] had. *)
Lemma from_chars_pow2_loop_success (bpi : Z) (o1 o2 : Z) :
  forall (fuel : nat) (cl result shift p v : Z),
    0 <= result < 2 ^ 128 ->
    from_chars_pow2_loop s o1 base initial_last mll fuel bpi cl result shift
    = Some (p, errc_none, v) ->
    0 <= v < 2 ^ 128
    /\ from_chars_pow2_loop s o2 base initial_last mll fuel bpi cl result shift
       = Some (p, errc_none, v).
Proof.
  induction fuel as [|fuel IH]; intros cl result shift p v Hr; [discriminate|].
  cbn [from_chars_pow2_loop]. cbv zeta.
  destruct (std.from_chars_unsigned 64 _ 0 base) as [[pp pec] digits].
  destruct (negb (errc_eqb pec errc_none)) eqn:Epec.
  - intros [= <- -> <-]. discriminate Epec.
  - destruct (shift + (64 - std.countl_zero digits) >? 128); [discriminate|].
    assert (Hlor : 0 <= Z.lor result (wrap 128 (Z.shiftl digits shift)) < 2 ^ 128).
    { apply lor_range; [lia|exact Hr|]. apply Z.mod_pos_bound. lia. }
    cbn [orb]. rewrite orb_false_r.
    destruct (cl - 0 <=? mll).
    + intros [= <- -> <-]. split; [exact Hlor|reflexivity].
    + apply IH, Hlor.
Qed.

Lemma from_chars_mul_loop_success (o1 o2 : Z) :
  forall (fuel : nat) (cl result factor p v : Z),
    from_chars_mul_loop s o1 base initial_last max_pow mll fuel cl result factor
    = Some (p, errc_none, v) ->
    0 <= v < 2 ^ 128
    /\ from_chars_mul_loop s o2 base initial_last max_pow mll fuel cl result factor
       = Some (p, errc_none, v).
Proof.
  induction fuel as [|fuel IH]; intros cl result factor p v; [discriminate|].
  cbn [from_chars_mul_loop]. cbv zeta.
  destruct (std.from_chars_unsigned 64 _ 0 base) as [[pp pec] digits].
  unfold detail.mul_overflow, detail.add_overflow.
  destruct (2 ^ 128 <=? factor * digits); [discriminate|].
  destruct (2 ^ 128 <=? result + wrap 128 (factor * digits)); [discriminate|].
  destruct ((cl - 0 <=? mll) || negb (errc_eqb pec errc_none)).
  - intros [= <- -> <-]. split; [apply Z.mod_pos_bound; lia|reflexivity].
  - apply IH.
Qed.

End FromCharsSuccess.

Lemma from_chars_u128_success (s : list ascii) (base o1 o2 p v : Z) :
  from_chars_u128 s o1 base = Some (p, errc_none, v) ->
  0 <= v < 2 ^ 128 /\ from_chars_u128 s o2 base = Some (p, errc_none, v).
Proof.
  unfold from_chars_u128. cbv zeta.
  destruct (0 =? len s); [discriminate|].
  destruct (Z.land base (base - 1) =? 0).
  - apply from_chars_pow2_loop_success. lia.
  - apply from_chars_mul_loop_success.
Qed.

Lemma swrap_neg_128 (v : Z) :
  0 <= v <= 2 ^ 127 -> swrap 128 (wrap 128 (- v)) = - v.
Proof.
  intros Hv. unfold swrap, wrap.
  destruct (Z.eq_dec v 0) as [->|Hv0]; [reflexivity|].
  replace ((- v) mod 2 ^ 128) with (2 ^ 128 - v)
    by (apply (Z.mod_unique _ _ (-1)); lia).
  change (2 ^ (128 - 1)) with (2 ^ 127).
  replace ((2 ^ 128 - v + 2 ^ 127) mod 2 ^ 128) with (2 ^ 127 - v)
    by (apply (Z.mod_unique _ _ 1); lia).
  lia.
Qed.

Lemma shiftr_127_zero (x : Z) :
  0 <= x < 2 ^ 128 -> (Z.shiftr x 127 =? 0) = (x <? 2 ^ 127).
Proof.
  intros Hx. rewrite Z.shiftr_div_pow2 by lia.
  destruct (x <? 2 ^ 127) eqn:E; zbool.
  - apply Z.eqb_eq, Z.div_small. lia.
  - apply Z.eqb_neq.
    assert (1 <= x / 2 ^ 127) by (apply Z.div_le_lower_bound; lia). lia.
Qed.

Lemma success_starts_with_digit (base : Z) (t : list ascii) (o n v : Z) :
  2 <= base <= 36 ->
  from_chars_u128 t o base = Some (n, errc_none, v) ->
  n = pattern_end t base /\ 0 < n.
Proof.
  intros Hb Hrun.
  destruct (from_chars_u128_result base t o Hb) as (ec & o' & Heq & Hzero & _).
  rewrite Hrun in Heq. injection Heq as Hn Hec Ho.
  split; [exact Hn|].
  pose proof (pattern_end_range t base) as Hr.
  destruct (Z.eq_dec (pattern_end t base) 0) as [H0|H0]; [|lia].
  destruct (Hzero H0) as [Hbad _]. congruence.
Qed.

(** A successful parse of a run of one chunk stores the value of the
    run. *)
Lemma from_chars_u128_short (base : Z) (t : list ascii) (o n v : Z) :
  2 <= base <= 36 ->
  from_chars_u128 t o base = Some (n, errc_none, v) ->
  n <= detail.u64_max_representable_digits base ->
  v = std.digits_value base (firstn (detail.pattern_length t base) t).
Proof.
  intros Hb Hrun Hlen.
  destruct (success_starts_with_digit base t o n v Hb Hrun) as (Hn & Hpos).
  destruct (max_digits_bounds base Hb) as (Hd & _).
  assert (Hpe : 0 < pattern_end t base) by lia.
  rewrite <- prefix_value_pattern.
  destruct (is_pow_2 base) eqn:Hp.
  - rewrite (from_chars_u128_pow2 base t o Hb Hp Hpe) in Hrun.
    destruct (_ && _); [|discriminate]. congruence.
  - destruct (from_chars_u128_other base t o Hb Hp Hpe) as (Hok & Hov & _).
    destruct (Z_lt_ge_dec (prefix_value t base (pattern_end t base)) (2 ^ 128))
      as [Hlt|Hge].
    + rewrite (Hok Hlt) in Hrun. congruence.
    + rewrite Hov in Hrun by lia. discriminate.
Qed.

(** X9: the signed parser is the unsigned parser with a sign.  Whenever
    [from_chars] for [uint128_t] succeeds on a span with the value [v],
    [from_chars] for [int128_t] returns the same pointer on that span,
    and the pointer one further on the span with a minus sign put
    before it: it stores [v] (respectively [-v]) when that is an
    [int128_t], that is for [v < 2^127] (respectively [v <= 2^127]);
    otherwise it reports [result_out_of_range] and [out] keeps its
    value. *)
Theorem from_chars_i128_follows_u128 :
  forall base t out0 out n v,
    2 <= base <= 36 ->
    from_chars_u128 t out0 base = Some (n, errc_none, v) ->
    from_chars_i128 t out base
    = (if v <? 2 ^ 127 then Some (n, errc_none, v)
       else Some (n, result_out_of_range, out))
    /\ from_chars_i128 ("-"%char :: t) out base
       = (if v <=? 2 ^ 127 then Some (1 + n, errc_none, - v)
          else Some (1 + n, result_out_of_range, out)).
Proof.
  intros base t out0 out n v Hb Hrun0.
  destruct (from_chars_u128_success t base out0 0 n v Hrun0) as (Hv & Hrun).
  destruct (success_starts_with_digit base t 0 n v Hb Hrun) as (Hn & Hpos).
  split.
  - destruct t as [|c t]; [discriminate Hrun|].
    cbn [from_chars_i128].
    assert (Hc : Ascii.eqb c "-" = false).
    { destruct (Ascii.eqb c "-") eqn:Ec; [|reflexivity].
      apply Ascii.eqb_eq in Ec. subst c. unfold pattern_end in Hn.
      cbn in Hn. lia. }
    rewrite Hc. cbn [negb]. rewrite Hrun, (shiftr_127_zero v Hv).
    destruct (v <? 2 ^ 127) eqn:E; zbool; cbn [negb]; [|reflexivity].
    rewrite swrap_id by lia. reflexivity.
  - cbn [from_chars_i128]. change (Ascii.eqb "-" "-") with true. cbn [negb].
    destruct (len ("-"%char :: t) + 1 <=? detail.u64_max_representable_digits base)
      eqn:Efast; zbool.
    + (* the native path: one chunk, which fits *)
      destruct (max_digits_bounds base Hb) as (Hd & Hle & _).
      set (d := detail.u64_max_representable_digits base) in *.
      pose proof (pattern_end_range t base) as Hr. rewrite len_cons in Efast.
      pose proof (from_chars_u128_short base t 0 n v Hb Hrun) as Hrun'.
      fold d in Hrun'. specialize (Hrun' ltac:(lia)).
      set (k := detail.pattern_length t base) in *.
      pose proof (pattern_prefix_valid base t) as Hvalid. fold k in Hvalid.
      pose proof (digits_value_bounds base (firstn k t) ltac:(lia) Hvalid) as Hdv.
      assert (Hlenk : len (firstn k t) = Z.of_nat k).
      { unfold len. rewrite length_firstn.
        pose proof (pattern_length_le base t). fold k in H. lia. }
      rewrite Hlenk in Hdv.
      assert (Hsmall : std.digits_value base (firstn k t) < 2 ^ 62).
      { assert (Hkd : Z.of_nat k <= d - 2) by (unfold pattern_end in Hr; lia).
        assert (base ^ Z.of_nat k <= base ^ (d - 2))
          by (apply Z.pow_le_mono_r; lia).
        assert (Hsplit : base ^ d = base ^ (d - 2) * base ^ 2).
        { rewrite <- Z.pow_add_r by lia. f_equal. lia. }
        assert (4 <= base ^ 2) by nia.
        assert (0 < base ^ (d - 2)) by (apply Z.pow_pos_nonneg; lia).
        change (2 ^ 64) with (2 ^ 62 * 4) in Hle. nia. }
      assert (Hn' : Z.of_nat k = n) by (rewrite Hn; reflexivity).
      assert (Hv' : std.digits_value base (firstn k t) = v)
        by (symmetry; exact Hrun').
      unfold std.from_chars_signed. fold k.
      destruct k as [|k'] eqn:Ek; [lia|]. rewrite <- Ek in *. cbv zeta.
      rewrite Hv'.
      replace (- 2 ^ (64 - 1) <=? - v) with true
        by (symmetry; apply Z.leb_le; change (2 ^ (64 - 1)) with (2 ^ 63); lia).
      replace (v <=? 2 ^ 127) with true by (symmetry; apply Z.leb_le; lia).
      rewrite <- Hn'. do 3 f_equal. lia.
    + rewrite Hrun.
      destruct (v <=? 2 ^ 127) eqn:E; zbool.
      * replace (v >? 2 ^ 127) with false by (symmetry; rewrite Z.gtb_ltb; apply Z.ltb_ge; lia).
        rewrite swrap_neg_128 by lia. reflexivity.
      * replace (v >? 2 ^ 127) with true by (symmetry; rewrite Z.gtb_ltb; apply Z.ltb_lt; lia).
        reflexivity.
Qed.

Lemma from_chars_i128_follows_u128_witness :
  let t := chars "170141183460469231731687303715884105728" in
  2 <= 10 <= 36
  /\ from_chars_u128 t 0 10 = Some (39, errc_none, 2 ^ 127)
  /\ from_chars_i128 t 5 10
     = (if 2 ^ 127 <? 2 ^ 127 then Some (39, errc_none, 2 ^ 127)
        else Some (39, result_out_of_range, 5))
  /\ from_chars_i128 ("-"%char :: t) 5 10
     = (if 2 ^ 127 <=? 2 ^ 127 then Some (1 + 39, errc_none, - 2 ^ 127)
        else Some (1 + 39, result_out_of_range, 5)).
Proof.
  intros t.
  assert (H1 : 2 <= 10 <= 36) by lia.
  assert (H2 : from_chars_u128 t 0 10 = Some (39, errc_none, 2 ^ 127))
    by (vm_compute; reflexivity).
  split; [exact H1|]. split; [exact H2|].
  exact (from_chars_i128_follows_u128 10 t 0 5 39 (2 ^ 127) H1 H2).
Defined.

(** ** Range errors of the signed parser *)

Section FromCharsErrorCode.

Variable s : list ascii.
Variables base initial_last max_pow mll : Z.

(** The pointer and the error of the loops do not depend on the value
    [out] had. *)
Lemma from_chars_pow2_loop_error_code (bpi : Z) (o1 o2 : Z) :
  forall (fuel : nat) (cl result shift p v : Z) (ec : errc),
    from_chars_pow2_loop s o1 base initial_last mll fuel bpi cl result shift
    = Some (p, ec, v) ->
    exists v',
      from_chars_pow2_loop s o2 base initial_last mll fuel bpi cl result shift
      = Some (p, ec, v').
Proof.
  induction fuel as [|fuel IH]; intros cl result shift p v ec; [discriminate|].
  cbn [from_chars_pow2_loop]. cbv zeta.
  destruct (std.from_chars_unsigned 64 _ 0 base) as [[pp pec] digits].
  destruct (negb (errc_eqb pec errc_none)); [intros [= <- <- <-]; eauto|].
  destruct (shift + (64 - std.countl_zero digits) >? 128);
    [intros [= <- <- <-]; eauto|].
  destruct ((cl - 0 <=? mll) || _); [intros [= <- <- <-]; eauto|].
  apply IH.
Qed.

Lemma from_chars_mul_loop_error_code (o1 o2 : Z) :
  forall (fuel : nat) (cl result factor p v : Z) (ec : errc),
    from_chars_mul_loop s o1 base initial_last max_pow mll fuel cl result factor
    = Some (p, ec, v) ->
    exists v',
      from_chars_mul_loop s o2 base initial_last max_pow mll fuel cl result factor
      = Some (p, ec, v').
Proof.
  induction fuel as [|fuel IH]; intros cl result factor p v ec; [discriminate|].
  cbn [from_chars_mul_loop]. cbv zeta.
  destruct (std.from_chars_unsigned 64 _ 0 base) as [[pp pec] digits].
  destruct (detail.mul_overflow factor digits) as [summand ov1].
  destruct ov1; [intros [= <- <- <-]; eauto|].
  destruct (detail.add_overflow result summand) as [result' ov2].
  destruct ov2; [intros [= <- <- <-]; eauto|].
  destruct ((cl - 0 <=? mll) || _); [intros [= <- <- <-]; eauto|].
  apply IH.
Qed.

End FromCharsErrorCode.

Lemma from_chars_u128_error_code (s : list ascii) (base o1 o2 p v : Z) (ec : errc) :
  from_chars_u128 s o1 base = Some (p, ec, v) ->
  exists v', from_chars_u128 s o2 base = Some (p, ec, v').
Proof.
  unfold from_chars_u128. cbv zeta.
  destruct (0 =? len s); [intros [= <- <- <-]; eauto|].
  destruct (Z.land base (base - 1) =? 0).
  - apply from_chars_pow2_loop_error_code.
  - apply from_chars_mul_loop_error_code.
Qed.

(** A run of one chunk is always parsed. *)
Lemma from_chars_u128_one_chunk (base : Z) (t : list ascii) (o : Z) :
  2 <= base <= 36 ->
  0 < pattern_end t base <= detail.u64_max_representable_digits base ->
  exists v, from_chars_u128 t o base = Some (pattern_end t base, errc_none, v).
Proof.
  intros Hb Hn.
  destruct (max_digits_bounds base Hb) as (Hd & Hle & _).
  set (d := detail.u64_max_representable_digits base) in *.
  pose proof (pattern_prefix_valid base t) as Hvalid.
  pose proof (digits_value_bounds base _ ltac:(lia) Hvalid) as Hdv.
  assert (Hlen : len (firstn (detail.pattern_length t base) t) = pattern_end t base).
  { unfold len, pattern_end. rewrite length_firstn.
    pose proof (pattern_length_le base t). lia. }
  rewrite Hlen in Hdv. rewrite <- prefix_value_pattern in Hdv.
  assert (Hpow : base ^ pattern_end t base <= base ^ d)
    by (apply Z.pow_le_mono_r; lia).
  destruct (is_pow_2 base) eqn:Hp.
  - rewrite (from_chars_u128_pow2 base t o Hb Hp) by lia.
    rewrite (three_chunks_top base (pattern_end t base) Hb Hp) by lia. fold d.
    replace (_ <? 2 ^ 128) with true by (symmetry; apply Z.ltb_lt; lia).
    replace (pattern_end t base <=? 3 * d) with true
      by (symmetry; apply Z.leb_le; lia).
    cbn [andb]. eauto.
  - destruct (from_chars_u128_other base t o Hb Hp ltac:(lia)) as (Hok & _).
    rewrite Hok by lia. eauto.
Qed.

(** X10: a range error of the unsigned parser.  Whenever [from_chars]
    for [uint128_t] reports [result_out_of_range] on a span,
    [from_chars] for [int128_t] reports [result_out_of_range] too, on
    that span with the same pointer and on the span with a minus sign
    before it with the pointer one further, and in both cases it has
    stored 0 in [out]. *)
Theorem from_chars_i128_range_error :
  forall base t out0 out n o,
    2 <= base <= 36 ->
    from_chars_u128 t out0 base = Some (n, result_out_of_range, o) ->
    from_chars_i128 t out base = Some (n, result_out_of_range, 0)
    /\ from_chars_i128 ("-"%char :: t) out base
       = Some (1 + n, result_out_of_range, 0).
Proof.
  intros base t out0 out n o Hb Hrun0.
  destruct (from_chars_u128_error_code t base out0 0 n o _ Hrun0) as (x & Hrun).
  destruct (from_chars_u128_result base t 0 Hb) as (ec & x' & Heq & Hzero & Hpos).
  rewrite Hrun in Heq. injection Heq as Hn Hec Hx. subst ec x'.
  pose proof (pattern_end_range t base) as Hr.
  assert (Hn0 : 0 < pattern_end t base).
  { destruct (Z.eq_dec (pattern_end t base) 0) as [E|E]; [|lia].
    destruct (Hzero E) as [Habs _]. discriminate. }
  destruct (Hpos Hn0) as [Habs|[_ ->]]; [discriminate|].
  split.
  - destruct t as [|c t]; [discriminate Hrun|].
    cbn [from_chars_i128].
    assert (Hc : Ascii.eqb c "-" = false).
    { destruct (Ascii.eqb c "-") eqn:Ec; [|reflexivity].
      apply Ascii.eqb_eq in Ec. subst c. unfold pattern_end in Hn0.
      cbn in Hn0. lia. }
    rewrite Hc. cbn [negb]. rewrite Hrun. reflexivity.
  - cbn [from_chars_i128]. change (Ascii.eqb "-" "-") with true. cbn [negb].
    destruct (len ("-"%char :: t) + 1 <=? detail.u64_max_representable_digits base)
      eqn:Efast; zbool.
    + rewrite len_cons in Efast.
      destruct (from_chars_u128_one_chunk base t 0 Hb ltac:(lia)) as (v & Hok).
      rewrite Hok in Hrun. discriminate.
    + rewrite Hrun. reflexivity.
Qed.

Lemma from_chars_i128_range_error_witness :
  let t := chars "340282366920938463463374607431768211456" in
  2 <= 10 <= 36
  /\ from_chars_u128 t 5 10 = Some (39, result_out_of_range, 5)
  /\ from_chars_i128 t 5 10 = Some (39, result_out_of_range, 0)
  /\ from_chars_i128 ("-"%char :: t) 5 10 = Some (1 + 39, result_out_of_range, 0).
Proof.
  intros t.
  assert (H1 : 2 <= 10 <= 36) by lia.
  assert (H2 : from_chars_u128 t 5 10 = Some (39, result_out_of_range, 5))
    by (vm_compute; reflexivity).
  split; [exact H1|]. split; [exact H2|].
  exact (from_chars_i128_range_error 10 t 5 5 39 5 H1 H2).
Defined.

Lemma signed_pattern_end_plain (c : ascii) (s : list ascii) (base : Z) :
  Ascii.eqb c "-" = false ->
  signed_pattern_end (c :: s) base = pattern_end (c :: s) base.
Proof.
  intros Ec. cbn [signed_pattern_end].
  destruct c as [[] [] [] [] [] [] [] []]; try reflexivity. discriminate Ec.
Qed.

(** X11: the pointer of [from_chars] for [int128_t], for every span and
    every base.  On a minus sign that no digit follows the error is
    [invalid_argument] and the pointer is [first] when the span has
    fewer than [u64_max_representable_digits base] characters and
    [first + 1] when it has not.  On every other span the pointer is the
    end of the number at the start of the span (the digits, after a
    minus sign if there is one), and the error is [invalid_argument]
    exactly when there is no number. *)
Theorem from_chars_i128_pointer_rule :
  forall base s out,
    2 <= base <= 36 ->
    (forall t,
        s = "-"%char :: t -> detail.pattern_length t base = O ->
        from_chars_i128 s out base
        = Some (if len s + 1 <=? detail.u64_max_representable_digits base
                then 0 else 1,
                invalid_argument, 0))
    /\ ((forall t, s = "-"%char :: t -> (0 < detail.pattern_length t base)%nat) ->
        exists ec out',
          from_chars_i128 s out base = Some (signed_pattern_end s base, ec, out')
          /\ (ec = invalid_argument <-> signed_pattern_end s base = 0)).
Proof.
  intros base s out Hb. split.
  - intros t -> Ht.
    apply from_chars_i128_minus_no_digit; [exact Hb|].
    unfold pattern_end. lia.
  - intros Hminus. apply from_chars_i128_pointer; [exact Hb|].
    intros t Ht. specialize (Hminus t Ht). unfold pattern_end. lia.
Qed.

Lemma from_chars_i128_pointer_rule_witness :
  2 <= 10 <= 36
  /\ (forall t,
         chars "-12 " = "-"%char :: t -> (0 < detail.pattern_length t 10)%nat)
  /\ exists ec out',
      from_chars_i128 (chars "-12 ") 0 10
      = Some (signed_pattern_end (chars "-12 ") 10, ec, out')
      /\ (ec = invalid_argument <-> signed_pattern_end (chars "-12 ") 10 = 0).
Proof.
  assert (H1 : 2 <= 10 <= 36) by lia.
  assert (H2 : forall t,
             chars "-12 " = "-"%char :: t -> (0 < detail.pattern_length t 10)%nat).
  { intros t Ht. injection Ht as <-. vm_compute. lia. }
  split; [exact H1|]. split; [exact H2|].
  exact (proj2 (from_chars_i128_pointer_rule 10 (chars "-12 ") 0 H1) H2).
Defined.

(** X12: [from_chars] for [int128_t] overwrites [out] when it finds no
    number.  On every non-empty span that does not start with a number
    (no digit of the base at the start, or a minus sign that no digit
    follows), in every base, the call returns [invalid_argument] and has
    stored 0 in [out]; on the empty span it returns [invalid_argument]
    and [out] keeps its value. *)
Theorem from_chars_i128_invalid_stores_zero :
  forall base s out,
    2 <= base <= 36 ->
    (s <> [] -> signed_pattern_end s base = 0 ->
     exists p, from_chars_i128 s out base = Some (p, invalid_argument, 0))
    /\ (s = [] -> from_chars_i128 s out base = Some (0, invalid_argument, out)).
Proof.
  intros base s out Hb. split; [|intros ->; reflexivity].
  intros Hne Hend. destruct s as [|c s]; [congruence|].
  destruct (Ascii.eqb c "-") eqn:Ec.
  - apply Ascii.eqb_eq in Ec. subst c.
    cbn [signed_pattern_end] in Hend.
    destruct (pattern_end s base =? 0) eqn:E; zbool.
    + rewrite (from_chars_i128_minus_no_digit base s out Hb E). eauto.
    + pose proof (pattern_end_range s base). lia.
  - rewrite (signed_pattern_end_plain c s base Ec) in Hend.
    cbn [from_chars_i128]. rewrite Ec. cbn [negb].
    rewrite (from_chars_u128_no_digit base (c :: s) 0 Hb Hend).
    replace (if (0 =? len (c :: s)) || is_pow_2 base then 0 else 0) with 0
      by (destruct (_ || _); reflexivity).
    exists 0. reflexivity.
Qed.

Lemma from_chars_i128_invalid_stores_zero_witness :
  2 <= 16 <= 36
  /\ chars "xyz" <> []
  /\ signed_pattern_end (chars "xyz") 16 = 0
  /\ exists p, from_chars_i128 (chars "xyz") 77 16 = Some (p, invalid_argument, 0).
Proof.
  assert (H1 : 2 <= 16 <= 36) by lia.
  assert (H2 : chars "xyz" <> []) by discriminate.
  assert (H3 : signed_pattern_end (chars "xyz") 16 = 0) by reflexivity.
  split; [exact H1|]. split; [exact H2|]. split; [exact H3|].
  exact (proj1 (from_chars_i128_invalid_stores_zero 16 (chars "xyz") 77 H1) H2 H3).
Defined.

(** ** [to_chars]: errors and the memory below the buffer *)

Lemma keeps_below_std (last lo : Z) (m : mem) (cf v base : Z) :
  lo <= cf ->
  keeps_below last lo m (Some (std.to_chars_unsigned m cf last v base)).
Proof.
  intros Hlo p ec m' Heq.
  destruct (std_to_chars_unsigned_cases m cf last v base) as [[E _]|[E _]];
    rewrite E in Heq; injection Heq as <- <- <-.
  - split; [right; split; reflexivity|]. split; [discriminate|reflexivity].
  - pose proof (len_nonneg (std.digits base v)).
    split; [left; reflexivity|]. split; [lia|].
    intros q Hq. apply store_list_outside. lia.
Qed.

Lemma keeps_below_trans (last lo : Z) (m m1 : mem) (r : option to_chars_result) :
  (forall q, q < lo -> m1 q = m q) ->
  keeps_below last lo m1 r -> keeps_below last lo m r.
Proof.
  intros Hm1 Hr p ec m' Heq. destruct (Hr p ec m' Heq) as (H1 & H2 & H3).
  split; [exact H1|]. split; [exact H2|].
  intros q Hq. rewrite H3 by exact Hq. apply Hm1, Hq.
Qed.

Section Pow2LoopBelow.

Variables last x base d bpi : Z.
Hypothesis Hbase : 2 <= base <= 36.
Hypothesis Hd : 0 < d.
Hypothesis Hbpi : 0 <= bpi <= 64.
Hypothesis Hpow : base ^ d = 2 ^ bpi.

Lemma pow2_loop_keeps_below (lo : Z) :
  forall (fuel : nat) (m : mem) (cf : Z) (fd : bool) (shift : Z),
    lo <= cf ->
    keeps_below last lo m
      (to_chars_pow2_loop last x base d bpi (Z.ones bpi) fuel m cf fd shift).
Proof.
  induction fuel as [|fuel IH]; intros m cf fd shift Hlo; [intros p ec m'; discriminate|].
  rewrite to_chars_pow2_loop_S by assumption.
  set (v := Z.land (wrap 64 (Z.shiftr x shift)) (Z.ones bpi)).
  assert (Hv : 0 <= v < 2 ^ bpi).
  { unfold v. rewrite Z.land_ones by lia.
    apply Z.mod_pos_bound, Z.pow_pos_nonneg; lia. }
  assert (H64 : v < 2 ^ 64).
  { assert (2 ^ bpi <= 2 ^ 64) by (apply Z.pow_le_mono_r; lia). lia. }
  assert (Hfit : len (std.digits base v) <= d)
    by (apply digits_fit; (assumption || lia)).
  pose proof (len_nonneg (std.digits base v)) as Hlen.
  destruct (std_to_chars_unsigned_cases m cf last v base) as [[E _]|[E _]];
    rewrite E; cbn [errc_eqb negb].
  { intros p ec m' [= <- <- <-].
    split; [right; split; reflexivity|]. split; [discriminate|reflexivity]. }
  cbv zeta. set (ds := std.digits base v) in *.
  replace (d - (cf + len ds - cf)) with (d - len ds) by lia.
  destruct (negb fd && negb (d - len ds =? 0)).
  - destruct (pad_memory m cf d ds Hfit) as [_ Hframe]. cbv zeta in Hframe.
    set (m3 := std.ranges_fill_n _ cf (d - len ds) "0"%char) in *.
    assert (Hm3 : forall q, q < lo -> m3 q = m q)
      by (intros q Hq; apply Hframe; lia).
    destruct (shift <=? 0).
    + intros p ec m' [= <- <- <-].
      split; [left; reflexivity|]. split; [lia|exact Hm3].
    + apply (keeps_below_trans last lo m m3); [exact Hm3|]. apply IH. lia.
  - assert (Hm1 : forall q, q < lo -> store_list m cf ds q = m q)
      by (intros q Hq; apply store_list_outside; lia).
    destruct (shift <=? 0).
    + intros p ec m' [= <- <- <-].
      split; [left; reflexivity|]. split; [lia|exact Hm1].
    + apply (keeps_below_trans last lo m (store_list m cf ds)); [exact Hm1|].
      apply IH. lia.
Qed.

End Pow2LoopBelow.

Lemma pow2_branch_keeps_below (base x : Z) (m : mem) (first last : Z) :
  2 <= base <= 36 -> is_pow_2 base = true ->
  keeps_below last first m (to_chars_pow2_branch m first last x base).
Proof.
  intros Hb Hp.
  destruct (pow2_base_facts base Hb Hp) as (Hbpi & Hpow & Hrem & Hmask & Hhmask).
  destruct (max_digits_bounds base Hb) as (Hd & _).
  unfold to_chars_pow2_branch. cbv zeta.
  set (d := detail.u64_max_representable_digits base) in *.
  set (bpi := std.countr_zero (detail.u64_max_power base)) in *.
  rewrite Hrem, Hmask, Hhmask.
  destruct (negb (128 - 2 * bpi =? 0) && negb (_ =? 0)).
  - set (h := Z.land _ _).
    destruct (std_to_chars_unsigned_cases m first last h base) as [[E _]|[E _]];
      rewrite E; cbn [errc_eqb negb].
    + intros p ec m' [= <- <- <-].
      split; [right; split; reflexivity|]. split; [discriminate|reflexivity].
    + pose proof (len_nonneg (std.digits base h)).
      apply (keeps_below_trans last first m (store_list m first (std.digits base h))).
      * intros q Hq. apply store_list_outside. lia.
      * apply pow2_loop_keeps_below; (assumption || lia).
  - apply pow2_loop_keeps_below; (assumption || lia).
Qed.

Lemma div_branch_keeps_below (base x : Z) (m : mem) (first last : Z)
      (upper : option to_chars_result) :
  2 <= base <= 36 -> is_pow_2 base = false -> 0 <= x ->
  keeps_below last first m upper ->
  keeps_below last first m (to_chars_div_branch upper last x base).
Proof.
  intros Hb Hp Hx Hupper.
  destruct (other_base_facts base Hb Hp) as (Hmp & Hrange).
  destruct (max_digits_bounds base Hb) as (Hd & _).
  unfold to_chars_div_branch. cbv zeta. rewrite Hmp.
  set (d := detail.u64_max_representable_digits base) in *.
  set (P := base ^ d) in *.
  destruct upper as [[[up uec] m1]|]; [|intros p ec m'; discriminate].
  destruct (Hupper up uec m1 eq_refl) as (Hec & Hup & Hm1).
  destruct (negb (errc_eqb uec errc_none)) eqn:Euec.
  { intros p ec m' [= <- <- <-]. auto. }
  assert (uec = errc_none) by (destruct uec; try discriminate; reflexivity).
  subst uec. specialize (Hup eq_refl).
  assert (Hmod : 0 <= x mod P < P) by (apply Z.mod_pos_bound; lia).
  rewrite wrap_small by lia.
  assert (Hfit : len (std.digits base (x mod P)) <= d)
    by (apply digits_fit; (assumption || lia)).
  pose proof (len_nonneg (std.digits base (x mod P))) as Hlen.
  destruct (std_to_chars_unsigned_cases m1 up last (x mod P) base)
    as [[E _]|[E _]]; rewrite E; cbn [errc_eqb negb].
  - intros p ec m' [= <- <- <-].
    split; [right; split; reflexivity|]. split; [discriminate|exact Hm1].
  - set (ds := std.digits base (x mod P)) in *.
    replace (up + len ds - up) with (len ds) by lia.
    replace (up + d - len ds) with (up + (d - len ds)) by lia.
    destruct (pad_memory m1 up d ds Hfit) as [_ Hframe]. cbv zeta in Hframe.
    intros p ec m' [= <- <- <-].
    split; [left; reflexivity|]. split; [lia|].
    intros q Hq. rewrite Hframe by lia. apply Hm1, Hq.
Qed.

Lemma to_chars_u128_rec_keeps_below (base : Z) :
  2 <= base <= 36 ->
  forall fuel m first last x,
    0 <= x ->
    keeps_below last first m (to_chars_u128_rec fuel m first last x base).
Proof.
  intros Hb. induction fuel as [|fuel IH]; intros m first last x Hx;
    [intros p ec m'; discriminate|].
  rewrite to_chars_u128_rec_S.
  destruct (x <=? wrap 64 (-1)); [apply keeps_below_std; lia|].
  destruct (first =? last) eqn:Efl.
  { intros p ec m' [= <- <- <-].
    split; [right; split; reflexivity|]. split; [discriminate|reflexivity]. }
  destruct (is_pow_2 base) eqn:Ep.
  - apply pow2_branch_keeps_below; assumption.
  - apply div_branch_keeps_below; try assumption.
    apply IH. destruct (other_base_facts base Hb Ep) as (-> & Hrange).
    apply Z.div_pos; lia.
Qed.

Lemma to_chars_i128_keeps_below (base x : Z) (m : mem) (first last : Z) :
  2 <= base <= 36 ->
  keeps_below last first m (to_chars_i128 m first last x base).
Proof.
  intros Hb. unfold to_chars_i128.
  destruct (x >=? 0).
  { apply to_chars_u128_rec_keeps_below; [exact Hb|].
    apply Z.mod_pos_bound. lia. }
  destruct (x =? swrap 64 x).
  { unfold std.to_chars_signed.
    set (ds := if swrap 64 x <? 0 then _ else _).
    pose proof (len_nonneg ds).
    intros p ec m'. destruct (last - first <? len ds); intros [= <- <- <-].
    - split; [right; split; reflexivity|]. split; [discriminate|reflexivity].
    - split; [left; reflexivity|]. split; [lia|].
      intros q Hq. apply store_list_outside. lia. }
  destruct (last - first <? 2).
  { intros p ec m' [= <- <- <-].
    split; [right; split; reflexivity|]. split; [discriminate|reflexivity]. }
  intros p ec m' Heq.
  destruct (to_chars_u128_rec_keeps_below base Hb 128 (store m first "-"%char)
              (first + 1) last (wrap 128 (- wrap 128 x))
              ltac:(apply Z.mod_pos_bound; lia) p ec m' Heq) as (H1 & H2 & H3).
  split; [exact H1|]. split; [intros E; specialize (H2 E); lia|].
  intros q Hq. rewrite H3 by lia. unfold store.
  destruct (q =? first) eqn:E; zbool; [lia|reflexivity].
Qed.

Lemma canonical_digit_count (base : Z) (s : list ascii) (x : Z) :
  2 <= base <= 36 -> canonical base s x ->
  1 <= len s /\ 0 <= x < base ^ len s /\ (x <> 0 -> base ^ (len s - 1) <= x).
Proof.
  intros Hb Hc. split; [apply (canonical_len_pos base s x Hc)|].
  split.
  - destruct Hc as (Hv & <- & _). apply digits_value_bounds; [lia|exact Hv].
  - apply canonical_lower; [lia|exact Hc].
Qed.

Lemma wrote_outcome (last lo : Z) (m : mem) (first : Z) (s : list ascii)
      (r : option to_chars_result) :
  wrote last m first s r -> keeps_below last lo m r ->
  exists p ec m',
    r = Some (p, ec, m')
    /\ ((ec = errc_none /\ p = first + len s)
        \/ (ec = value_too_large /\ p = last /\ last - first < len s))
    /\ (len s <= last - first -> ec = errc_none).
Proof.
  intros (p & ec & m' & -> & Hw) Hk.
  destruct (Hk p ec m' eq_refl) as (Hec & _).
  exists p, ec, m'. split; [reflexivity|].
  destruct Hw as [(-> & -> & _)|(-> & Hlt)].
  - split; [left; split; reflexivity|]. reflexivity.
  - destruct Hec as [Habs|(_ & ->)]; [discriminate|].
    split; [right; repeat split; assumption|]. lia.
Qed.

(** X13: the two outcomes of [to_chars].  Let [k] be the number of
    digits of the value in the base ([base^(k-1) <= x < base^k], and 1
    for zero), plus one for the minus sign of a negative [int128_t].
    Every call returns, and it returns either [errc {}] with the
    pointer [first + k], or [value_too_large] with the pointer [last];
    the second happens only when the buffer has fewer than [k]
    characters, and never when it has [k] or more. *)
Theorem to_chars_outcome :
  (forall base x,
      2 <= base <= 36 -> 0 <= x < 2 ^ 128 ->
      exists k,
        1 <= k /\ x < base ^ k /\ (x <> 0 -> base ^ (k - 1) <= x)
        /\ forall m first last,
            exists p ec m',
              to_chars_u128 m first last x base = Some (p, ec, m')
              /\ ((ec = errc_none /\ p = first + k)
                  \/ (ec = value_too_large /\ p = last /\ last - first < k))
              /\ (k <= last - first -> ec = errc_none))
  /\ (forall base x,
         2 <= base <= 36 -> - 2 ^ 127 <= x < 2 ^ 127 ->
         exists k,
           1 <= k /\ Z.abs x < base ^ k /\ (x <> 0 -> base ^ (k - 1) <= Z.abs x)
           /\ forall m first last,
               let n := if x <? 0 then k + 1 else k in
               exists p ec m',
                 to_chars_i128 m first last x base = Some (p, ec, m')
                 /\ ((ec = errc_none /\ p = first + n)
                     \/ (ec = value_too_large /\ p = last /\ last - first < n))
                 /\ (n <= last - first -> ec = errc_none)).
Proof.
  split.
  - intros base x Hb Hx.
    destruct (to_chars_u128_wrote base x Hb Hx) as (s & Hs & Hw).
    destruct (canonical_digit_count base s x Hb Hs) as (H1 & H2 & H3).
    exists (len s). split; [exact H1|]. split; [lia|]. split; [exact H3|].
    intros m first last.
    apply (wrote_outcome last first m first s); [apply Hw|].
    apply to_chars_u128_rec_keeps_below; [exact Hb|lia].
  - intros base x Hb Hx.
    destruct (to_chars_i128_wrote base x Hb Hx) as (s & Hs & Hw).
    unfold signed_canonical in Hs.
    destruct (x <? 0) eqn:Eneg; zbool.
    + destruct Hs as (t & -> & Ht).
      destruct (canonical_digit_count base t (- x) Hb Ht) as (H1 & H2 & H3).
      exists (len t). replace (Z.abs x) with (- x) by lia.
      split; [exact H1|]. split; [lia|]. split; [intros; apply H3; lia|].
      intros m first last n. unfold n.
      replace (len t + 1) with (len ("-"%char :: t)) by (rewrite len_cons; lia).
      apply (wrote_outcome last first m first); [apply Hw|].
      apply to_chars_i128_keeps_below, Hb.
    + destruct (canonical_digit_count base s x Hb Hs) as (H1 & H2 & H3).
      exists (len s). replace (Z.abs x) with x by lia.
      split; [exact H1|]. split; [lia|]. split; [exact H3|].
      intros m first last n. unfold n.
      apply (wrote_outcome last first m first); [apply Hw|].
      apply to_chars_i128_keeps_below, Hb.
Qed.

Lemma to_chars_outcome_witness :
  2 <= 10 <= 36 /\ 0 <= 2 ^ 100 < 2 ^ 128
  /\ exists k,
      1 <= k /\ 2 ^ 100 < 10 ^ k /\ (2 ^ 100 <> 0 -> 10 ^ (k - 1) <= 2 ^ 100)
      /\ forall m first last,
          exists p ec m',
            to_chars_u128 m first last (2 ^ 100) 10 = Some (p, ec, m')
            /\ ((ec = errc_none /\ p = first + k)
                \/ (ec = value_too_large /\ p = last /\ last - first < k))
            /\ (k <= last - first -> ec = errc_none).
Proof.
  assert (H1 : 2 <= 10 <= 36) by lia.
  assert (H2 : 0 <= 2 ^ 100 < 2 ^ 128) by lia.
  split; [exact H1|]. split; [exact H2|].
  exact (proj1 to_chars_outcome 10 (2 ^ 100) H1 H2).
Defined.

(** X14: the memory that [to_chars] leaves alone.  For both overloads
    and every call, successful or not, in a buffer of any size: no
    character below [first] is changed; and when the call reports
    success, no character at or after the returned pointer is changed,
    so that the stores of a successful call lie in [[first, ptr)]. *)
Theorem to_chars_stores_within :
  (forall base x m first last p ec m',
      2 <= base <= 36 -> 0 <= x < 2 ^ 128 ->
      to_chars_u128 m first last x base = Some (p, ec, m') ->
      (forall q, q < first -> m' q = m q)
      /\ (ec = errc_none -> first < p /\ forall q, p <= q -> m' q = m q))
  /\ (forall base x m first last p ec m',
         2 <= base <= 36 -> - 2 ^ 127 <= x < 2 ^ 127 ->
         to_chars_i128 m first last x base = Some (p, ec, m') ->
         (forall q, q < first -> m' q = m q)
         /\ (ec = errc_none -> first < p /\ forall q, p <= q -> m' q = m q)).
Proof.
  split.
  - intros base x m first last p ec m' Hb Hx Hrun.
    split.
    + apply (to_chars_u128_rec_keeps_below base Hb 128 m first last x
               ltac:(lia) p ec m' Hrun).
    + intros ->.
      destruct (to_chars_u128_wrote base x Hb Hx) as (s & Hs & Hw).
      pose proof (Hw m first last) as Hw'. rewrite Hrun in Hw'.
      apply wrote_success in Hw'. destruct Hw' as (Hp & _ & Hframe).
      pose proof (canonical_len_pos base s x Hs).
      split; [lia|]. intros q Hq. apply Hframe. lia.
  - intros base x m first last p ec m' Hb Hx Hrun.
    split.
    + apply (to_chars_i128_keeps_below base x m first last Hb p ec m' Hrun).
    + intros ->.
      destruct (to_chars_i128_wrote base x Hb Hx) as (s & Hs & Hw).
      pose proof (Hw m first last) as Hw'. rewrite Hrun in Hw'.
      apply wrote_success in Hw'. destruct Hw' as (Hp & _ & Hframe).
      assert (1 <= len s).
      { unfold signed_canonical in Hs. destruct (x <? 0).
        - destruct Hs as (t & -> & _). rewrite len_cons.
          pose proof (len_nonneg t). lia.
        - apply (canonical_len_pos base s x Hs). }
      split; [lia|]. intros q Hq. apply Hframe. lia.
Qed.

Lemma to_chars_stores_within_witness :
  let m : mem := fun _ => "#"%char in
  let m' := store_list m 5 (chars "-255") in
  2 <= 10 <= 36 /\ - 2 ^ 127 <= -255 < 2 ^ 127
  /\ to_chars_i128 m 5 20 (-255) 10 = Some (9, errc_none, m')
  /\ (forall q, q < 5 -> m' q = m q)
  /\ (errc_none = errc_none -> 5 < 9 /\ forall q, 9 <= q -> m' q = m q).
Proof.
  intros m m'.
  assert (H1 : 2 <= 10 <= 36) by lia.
  assert (H2 : - 2 ^ 127 <= -255 < 2 ^ 127) by lia.
  assert (H3 : to_chars_i128 m 5 20 (-255) 10 = Some (9, errc_none, m'))
    by (vm_compute; reflexivity).
  split; [exact H1|]. split; [exact H2|]. split; [exact H3|].
  exact (proj2 to_chars_stores_within 10 (-255) m 5 20 9 errc_none m' H1 H2 H3).
Defined.

(** X15: an empty buffer.  Called with [first == last], both overloads
    of [to_chars] return [{last, value_too_large}] for every value and
    every base, and store nothing. *)
Theorem to_chars_empty_buffer :
  forall base x m first,
    2 <= base <= 36 ->
    (0 <= x < 2 ^ 128 ->
     to_chars_u128 m first first x base = Some (first, value_too_large, m))
    /\ (- 2 ^ 127 <= x < 2 ^ 127 ->
        to_chars_i128 m first first x base = Some (first, value_too_large, m)).
Proof.
  intros base x m first Hb.
  assert (Hstd : forall v, 0 <= v < 2 ^ 64 ->
                           std.to_chars_unsigned m first first v base
                           = (first, value_too_large, m)).
  { intros v Hv. unfold std.to_chars_unsigned.
    pose proof (canonical_len_pos base _ v (std_digits_canonical base v Hb Hv)).
    replace (first - first <? len (std.digits base v)) with true
      by (symmetry; apply Z.ltb_lt; lia).
    reflexivity. }
  assert (Hu : forall y, 0 <= y < 2 ^ 128 ->
                         to_chars_u128 m first first y base
                         = Some (first, value_too_large, m)).
  { intros y Hy. unfold to_chars_u128. change 128%nat with (S 127).
    rewrite to_chars_u128_rec_S. change (wrap 64 (-1)) with (2 ^ 64 - 1).
    destruct (y <=? 2 ^ 64 - 1) eqn:E; zbool.
    - rewrite wrap_small by lia. rewrite Hstd by lia. reflexivity.
    - rewrite Z.eqb_refl. reflexivity. }
  split; [apply Hu|].
  intros Hx. unfold to_chars_i128.
  destruct (x >=? 0) eqn:Ege; zbool.
  - rewrite wrap_small by lia. apply Hu. lia.
  - destruct (x =? swrap 64 x) eqn:E64; zbool.
    + rewrite <- E64. unfold std.to_chars_signed.
      replace (x <? 0) with true by (symmetry; apply Z.ltb_lt; lia).
      rewrite len_cons. pose proof (len_nonneg (std.digits base (- x))).
      replace (first - first <? 1 + len (std.digits base (- x))) with true
        by (symmetry; apply Z.ltb_lt; lia).
      reflexivity.
    + replace (first - first <? 2) with true by (symmetry; apply Z.ltb_lt; lia).
      reflexivity.
Qed.

Lemma to_chars_empty_buffer_witness :
  let m : mem := fun _ => "#"%char in
  2 <= 10 <= 36 /\ - 2 ^ 127 <= - 2 ^ 100 < 2 ^ 127
  /\ to_chars_i128 m 3 3 (- 2 ^ 100) 10 = Some (3, value_too_large, m).
Proof.
  intros m.
  assert (H1 : 2 <= 10 <= 36) by lia.
  assert (H2 : - 2 ^ 127 <= - 2 ^ 100 < 2 ^ 127) by lia.
  split; [exact H1|]. split; [exact H2|].
  exact (proj2 (to_chars_empty_buffer 10 (- 2 ^ 100) m 3 H1) H2).
Defined.

(** ** The value and the size of the output of [to_chars] *)

(** X16: the digits written denote the value.  Whenever [to_chars]
    reports success, in a buffer of any size, the characters from
    [first] to the returned pointer, read as a number in the base, most
    significant digit first, are the value; for a negative [int128_t]
    they are a minus sign followed by the digits of the magnitude. *)
Theorem to_chars_denotes_value :
  (forall base x m first last p m',
      2 <= base <= 36 -> 0 <= x < 2 ^ 128 ->
      to_chars_u128 m first last x base = Some (p, errc_none, m') ->
      std.digits_value base (load_list m' first (Z.to_nat (p - first))) = x)
  /\ (forall base x m first last p m',
         2 <= base <= 36 -> - 2 ^ 127 <= x < 2 ^ 127 ->
         to_chars_i128 m first last x base = Some (p, errc_none, m') ->
         exists t,
           load_list m' first (Z.to_nat (p - first))
           = (if x <? 0 then ["-"%char] else []) ++ t
           /\ std.digits_value base t = Z.abs x).
Proof.
  split.
  - intros base x m first last p m' Hb Hx Hrun.
    destruct (to_chars_u128_wrote base x Hb Hx) as (s & Hs & Hw).
    pose proof (Hw m first last) as Hw'. rewrite Hrun in Hw'.
    apply wrote_success in Hw'. destruct Hw' as (_ & -> & _).
    destruct Hs as (_ & Hval & _). exact Hval.
  - intros base x m first last p m' Hb Hx Hrun.
    destruct (to_chars_i128_wrote base x Hb Hx) as (s & Hs & Hw).
    pose proof (Hw m first last) as Hw'. rewrite Hrun in Hw'.
    apply wrote_success in Hw'. destruct Hw' as (_ & -> & _).
    unfold signed_canonical in Hs. destruct (x <? 0) eqn:Eneg; zbool.
    + destruct Hs as (t & -> & (_ & Hval & _)).
      exists t. split; [reflexivity|]. lia.
    + destruct Hs as (_ & Hval & _). exists s. split; [reflexivity|]. lia.
Qed.

Lemma to_chars_denotes_value_witness :
  let m : mem := fun _ => "#"%char in
  let m' := store_list m 0 (chars "7v") in
  2 <= 32 <= 36 /\ 0 <= 255 < 2 ^ 128
  /\ to_chars_u128 m 0 8 255 32 = Some (2, errc_none, m')
  /\ std.digits_value 32 (load_list m' 0 (Z.to_nat (2 - 0))) = 255.
Proof.
  intros m m'.
  assert (H1 : 2 <= 32 <= 36) by lia.
  assert (H2 : 0 <= 255 < 2 ^ 128) by lia.
  assert (H3 : to_chars_u128 m 0 8 255 32 = Some (2, errc_none, m'))
    by (vm_compute; reflexivity).
  split; [exact H1|]. split; [exact H2|]. split; [exact H3|].
  exact (proj1 to_chars_denotes_value 32 255 m 0 8 2 m' H1 H2 H3).
Defined.

Lemma canonical_len_bound (base : Z) (s : list ascii) (x n : Z) :
  2 <= base <= 36 -> canonical base s x -> 0 <= n -> x < base ^ n -> 1 <= n ->
  len s <= n.
Proof.
  intros Hb Hs Hn Hx H1.
  destruct (canonical_digit_count base s x Hb Hs) as (Hlen & Hrange & Hlow).
  destruct (Z.eq_dec x 0) as [->|Hx0].
  - destruct Hs as (_ & _ & _ & Hz & _). rewrite (Hz eq_refl).
    change (len ["0"%char]) with 1. exact H1.
  - specialize (Hlow Hx0).
    assert (len s - 1 < n) by (apply (Z.pow_lt_mono_r_iff base); lia).
    lia.
Qed.

(** X17: how large a buffer must be.  If [2^128 <= base^n], a buffer
    of [n] characters is enough for every [uint128_t] in that base, and
    one of [n + 1] characters for every [int128_t]: [to_chars] then
    succeeds and nothing outside of the buffer is changed.  That is
    for instance 128 characters in base 2, 39 in base 10 (since
    [2^128 <= 10^39]) and 32 in base 16. *)
Theorem to_chars_buffer_size :
  forall base n x m first last,
    2 <= base <= 36 -> 1 <= n -> 2 ^ 128 <= base ^ n ->
    (0 <= x < 2 ^ 128 -> n <= last - first ->
     exists p m',
       to_chars_u128 m first last x base = Some (p, errc_none, m')
       /\ first < p <= last
       /\ forall q, q < first \/ last <= q -> m' q = m q)
    /\ (- 2 ^ 127 <= x < 2 ^ 127 -> n + 1 <= last - first ->
        exists p m',
          to_chars_i128 m first last x base = Some (p, errc_none, m')
          /\ first < p <= last
          /\ forall q, q < first \/ last <= q -> m' q = m q).
Proof.
  intros base n x m first last Hb Hn Hpow. split.
  - intros Hx Hroom.
    destruct (to_chars_u128_wrote base x Hb Hx) as (s & Hs & Hw).
    pose proof (canonical_len_bound base s x n Hb Hs ltac:(lia) ltac:(lia) Hn) as Hlen.
    pose proof (canonical_len_pos base s x Hs) as Hpos.
    destruct (Hw m first last)
      as (p & ec & m' & -> & [(-> & -> & _ & Hframe)|(_ & Hlt)]); [|lia].
    exists (first + len s), m'. split; [reflexivity|]. split; [lia|].
    intros q Hq. apply Hframe. lia.
  - intros Hx Hroom.
    destruct (to_chars_i128_wrote base x Hb Hx) as (s & Hs & Hw).
    assert (Hlen : 1 <= len s <= n + 1).
    { unfold signed_canonical in Hs. destruct (x <? 0) eqn:Eneg; zbool.
      - destruct Hs as (t & -> & Ht). rewrite len_cons.
        pose proof (canonical_len_bound base t (- x) n Hb Ht
                      ltac:(lia) ltac:(lia) Hn).
        pose proof (canonical_len_pos base t (- x) Ht). lia.
      - pose proof (canonical_len_bound base s x n Hb Hs
                      ltac:(lia) ltac:(lia) Hn).
        pose proof (canonical_len_pos base s x Hs). lia. }
    destruct (Hw m first last)
      as (p & ec & m' & -> & [(-> & -> & _ & Hframe)|(_ & Hlt)]); [|lia].
    exists (first + len s), m'. split; [reflexivity|]. split; [lia|].
    intros q Hq. apply Hframe. lia.
Qed.

Lemma to_chars_buffer_size_witness :
  let m : mem := fun _ => "#"%char in
  2 <= 10 <= 36 /\ 1 <= 39 /\ 2 ^ 128 <= 10 ^ 39
  /\ 0 <= 2 ^ 128 - 1 < 2 ^ 128 /\ 39 <= 39 - 0
  /\ exists p m',
      to_chars_u128 m 0 39 (2 ^ 128 - 1) 10 = Some (p, errc_none, m')
      /\ 0 < p <= 39
      /\ forall q, q < 0 \/ 39 <= q -> m' q = m q.
Proof.
  intros m.
  assert (H1 : 2 <= 10 <= 36) by lia.
  assert (H2 : 1 <= 39) by lia.
  assert (H3 : 2 ^ 128 <= 10 ^ 39) by (vm_compute; discriminate).
  assert (H4 : 0 <= 2 ^ 128 - 1 < 2 ^ 128) by lia.
  assert (H5 : 39 <= 39 - 0) by lia.
  split; [exact H1|]. split; [exact H2|]. split; [exact H3|].
  split; [exact H4|]. split; [exact H5|].
  exact (proj1 (to_chars_buffer_size 10 39 (2 ^ 128 - 1) m 0 39 H1 H2 H3) H4 H5).
Defined.

(** ** The characters that [to_chars] writes *)

Lemma to_digits_output (base : Z) :
  2 <= base ->
  forall fuel n acc,
    Forall (output_digit base) acc ->
    Forall (output_digit base) (std.to_digits fuel base n acc).
Proof.
  intros Hb. induction fuel as [|fuel IH]; intros n acc Hacc; [exact Hacc|].
  rewrite to_digits_S.
  assert (Hd : output_digit base (std.digit_char (n mod base))).
  { exists (n mod base). split; [apply Z.mod_pos_bound; lia|reflexivity]. }
  destruct (n / base =? 0); [|apply IH]; constructor; assumption.
Qed.

Lemma std_digits_output (base v : Z) :
  2 <= base -> Forall (output_digit base) (std.digits base v).
Proof. intros Hb. apply to_digits_output; [exact Hb|constructor]. Qed.

Lemma zeros_output (base : Z) (n : nat) :
  2 <= base -> Forall (output_digit base) (repeat "0"%char n).
Proof.
  intros Hb. apply Forall_forall. intros c Hc. apply repeat_spec in Hc. subst c.
  exists 0. split; [lia|reflexivity].
Qed.

Lemma cells_of_load (P : ascii -> Prop) (m : mem) (p : Z) (l : list ascii) :
  load_list m p (List.length l) = l -> Forall P l ->
  forall q, p <= q < p + len l -> P (m q).
Proof.
  intros Hload HP q Hq. unfold len in Hq.
  replace q with (p + Z.of_nat (Z.to_nat (q - p))) by lia.
  rewrite <- (nth_load_list m p (List.length l) _ "000"%char) by lia.
  rewrite Hload. rewrite Forall_forall in HP. apply HP, nth_In. lia.
Qed.

(** One piece written at [cf], with or without its padding. *)
Lemma piece_output (base d : Z) (m : mem) (cf v : Z) (pad : bool) :
  2 <= base <= 36 -> len (std.digits base v) <= d ->
  let ds := std.digits base v in
  let r := if pad
           then (std.ranges_fill_n
                   (std.ranges_copy (store_list m cf ds) cf (cf + len ds)
                                    (cf + (d - len ds)))
                   cf (d - len ds) "0"%char, cf + d)
           else (store_list m cf ds, cf + len ds) in
  cf <= snd r
  /\ (forall q, q < cf -> fst r q = m q)
  /\ (forall q, cf <= q < snd r -> output_digit base (fst r q)).
Proof.
  intros Hb Hfit ds r. pose proof (len_nonneg ds) as Hlen. fold ds in Hfit.
  pose proof (std_digits_output base v ltac:(lia)) as Hout. fold ds in Hout.
  destruct pad; cbn [fst snd] in *; unfold r; cbn [fst snd].
  - destruct (pad_memory m cf d ds Hfit) as [Hload Hframe]. cbv zeta in Hload, Hframe.
    split; [lia|]. split; [intros q Hq; apply Hframe; lia|].
    assert (Hn : (Z.to_nat (d - len ds) + List.length ds)%nat
                 = List.length (repeat "0"%char (Z.to_nat (d - len ds)) ++ ds))
      by (rewrite length_app, repeat_length; reflexivity).
    rewrite Hn in Hload.
    intros q Hq. apply (cells_of_load _ _ cf _ Hload).
    + apply Forall_app. split; [apply zeros_output; lia|exact Hout].
    + rewrite len_app, len_repeat. lia.
  - split; [lia|]. split; [intros q Hq; apply store_list_outside; lia|].
    intros q Hq. apply (cells_of_load _ _ cf ds); [apply load_store_list|exact Hout|lia].
Qed.

Section Pow2LoopOutput.

Variables last x base d bpi : Z.
Hypothesis Hbase : 2 <= base <= 36.
Hypothesis Hd : 0 < d.
Hypothesis Hbpi : 0 <= bpi <= 64.
Hypothesis Hpow : base ^ d = 2 ^ bpi.

Lemma pow2_loop_writes_digits (lo : Z) :
  forall (fuel : nat) (m : mem) (cf : Z) (fd : bool) (shift : Z),
    (forall q, lo <= q < cf -> output_digit base (m q)) ->
    writes_digits base lo
      (to_chars_pow2_loop last x base d bpi (Z.ones bpi) fuel m cf fd shift).
Proof.
  induction fuel as [|fuel IH]; intros m cf fd shift Hm; [intros p m'; discriminate|].
  rewrite to_chars_pow2_loop_S by assumption.
  set (v := Z.land (wrap 64 (Z.shiftr x shift)) (Z.ones bpi)).
  assert (Hv : 0 <= v < 2 ^ bpi).
  { unfold v. rewrite Z.land_ones by lia.
    apply Z.mod_pos_bound, Z.pow_pos_nonneg; lia. }
  assert (H64 : v < 2 ^ 64).
  { assert (2 ^ bpi <= 2 ^ 64) by (apply Z.pow_le_mono_r; lia). lia. }
  assert (Hfit : len (std.digits base v) <= d)
    by (apply digits_fit; (assumption || lia)).
  destruct (std_to_chars_unsigned_cases m cf last v base) as [[E _]|[E _]];
    rewrite E; cbn [errc_eqb negb]; [intros p m'; discriminate|].
  cbv zeta. set (ds := std.digits base v) in *.
  replace (d - (cf + len ds - cf)) with (d - len ds) by lia.
  destruct (piece_output base d m cf v (negb fd && negb (d - len ds =? 0))
              Hbase Hfit) as (Hle & Hframe & Hcells).
  fold ds in Hle, Hframe, Hcells.
  destruct (negb fd && negb (d - len ds =? 0)); cbn [fst snd] in *.
  - match goal with
    | |- context [std.ranges_fill_n ?a ?b ?c ?e] =>
        set (m1 := std.ranges_fill_n a b c e) in *
    end.
    assert (Hm1 : forall q, lo <= q < cf + d -> output_digit base (m1 q)).
    { intros q Hq. destruct (Z_lt_ge_dec q cf) as [Hlt|Hge].
      - rewrite Hframe by lia. apply Hm. lia.
      - apply Hcells. lia. }
    destruct (shift <=? 0); [|apply IH, Hm1].
    intros p m' [= <- <-]. exact Hm1.
  - assert (Hm1 : forall q, lo <= q < cf + len ds ->
                            output_digit base (store_list m cf ds q)).
    { intros q Hq. destruct (Z_lt_ge_dec q cf) as [Hlt|Hge].
      - rewrite Hframe by lia. apply Hm. lia.
      - apply Hcells. lia. }
    destruct (shift <=? 0); [|apply IH, Hm1].
    intros p m' [= <- <-]. exact Hm1.
Qed.

End Pow2LoopOutput.

Lemma std_to_chars_unsigned_writes_digits (base : Z) (m : mem) (cf last v lo : Z) :
  2 <= base ->
  (forall q, lo <= q < cf -> output_digit base (m q)) ->
  writes_digits base lo (Some (std.to_chars_unsigned m cf last v base)).
Proof.
  intros Hb Hm p m' Heq.
  destruct (std_to_chars_unsigned_cases m cf last v base) as [[E _]|[E _]];
    rewrite E in Heq; [discriminate|]. injection Heq as <- <-.
  intros q Hq. destruct (Z_lt_ge_dec q cf) as [Hlt|Hge].
  - rewrite store_list_outside by lia. apply Hm. lia.
  - apply (cells_of_load _ _ cf (std.digits base v));
      [apply load_store_list|apply std_digits_output; lia|lia].
Qed.

Lemma to_chars_u128_rec_writes_digits (base : Z) :
  2 <= base <= 36 ->
  forall fuel m first last x,
    0 <= x ->
    writes_digits base first (to_chars_u128_rec fuel m first last x base).
Proof.
  intros Hb. induction fuel as [|fuel IH]; intros m first last x Hx;
    [intros p m'; discriminate|].
  rewrite to_chars_u128_rec_S.
  destruct (x <=? wrap 64 (-1)).
  { apply std_to_chars_unsigned_writes_digits; [lia|]. intros q Hq. lia. }
  destruct (first =? last); [intros p m'; discriminate|].
  destruct (max_digits_bounds base Hb) as (Hd & _).
  destruct (is_pow_2 base) eqn:Ep.
  - destruct (pow2_base_facts base Hb Ep) as (Hbpi & Hpow & Hrem & Hmask & Hhmask).
    unfold to_chars_pow2_branch. cbv zeta.
    set (d := detail.u64_max_representable_digits base) in *.
    set (bpi := std.countr_zero (detail.u64_max_power base)) in *.
    rewrite Hrem, Hmask, Hhmask.
    destruct (negb (128 - 2 * bpi =? 0) && negb (_ =? 0)).
    + set (h := Z.land _ _).
      destruct (std_to_chars_unsigned_cases m first last h base) as [[E _]|[E _]];
        rewrite E; cbn [errc_eqb negb]; [intros p m'; discriminate|].
      apply pow2_loop_writes_digits; try (assumption || lia).
      intros q Hq.
      apply (cells_of_load _ _ first (std.digits base h));
        [apply load_store_list|apply std_digits_output; lia|lia].
    + apply pow2_loop_writes_digits; (assumption || lia).
  - destruct (other_base_facts base Hb Ep) as (Hmp & Hrange).
    assert (Hx' : 0 <= x / detail.u64_max_power base)
      by (rewrite Hmp; apply Z.div_pos; lia).
    specialize (IH m first last (x / detail.u64_max_power base) Hx').
    unfold to_chars_div_branch. cbv zeta. rewrite Hmp in *.
    set (d := detail.u64_max_representable_digits base) in *.
    set (P := base ^ d) in *.
    destruct (to_chars_u128_rec fuel m first last (x / P) base)
      as [[[up uec] m1]|]; [|intros p m'; discriminate].
    destruct uec; cbn [errc_eqb negb]; try (intros p m'; discriminate).
    specialize (IH up m1 eq_refl).
    assert (Hmod : 0 <= x mod P < P) by (apply Z.mod_pos_bound; lia).
    rewrite wrap_small by lia.
    assert (Hfit : len (std.digits base (x mod P)) <= d)
      by (apply digits_fit; (assumption || lia)).
    destruct (std_to_chars_unsigned_cases m1 up last (x mod P) base)
      as [[E _]|[E _]]; rewrite E; cbn [errc_eqb negb];
      [intros p m'; discriminate|].
    set (ds := std.digits base (x mod P)) in *.
    replace (up + len ds - up) with (len ds) by lia.
    replace (up + d - len ds) with (up + (d - len ds)) by lia.
    destruct (piece_output base d m1 up (x mod P) true Hb Hfit)
      as (_ & Hframe & Hcells).
    fold ds in Hframe, Hcells. cbn [fst snd] in Hframe, Hcells.
    intros p m' [= <- <-]. intros q Hq.
    destruct (Z_lt_ge_dec q up) as [Hlt|Hge].
    + rewrite Hframe by lia. apply IH. lia.
    + apply Hcells. lia.
Qed.

Lemma to_chars_i128_writes_digits (base x : Z) (m : mem) (first last p : Z)
      (m' : mem) :
  2 <= base <= 36 ->
  to_chars_i128 m first last x base = Some (p, errc_none, m') ->
  (x < 0 -> m' first = "-"%char)
  /\ forall q, (if x <? 0 then first + 1 else first) <= q < p ->
               output_digit base (m' q).
Proof.
  intros Hb. unfold to_chars_i128.
  assert (Hwrap : forall y, 0 <= wrap 128 y)
    by (intros y; apply Z.mod_pos_bound; lia).
  destruct (x >=? 0) eqn:Ege; zbool.
  { intros Hrun. split; [lia|].
    replace (x <? 0) with false by (symmetry; apply Z.ltb_ge; lia).
    apply (to_chars_u128_rec_writes_digits base Hb 128 m first last _
             (Hwrap x) p m' Hrun). }
  replace (x <? 0) with true by (symmetry; apply Z.ltb_lt; lia).
  destruct (x =? swrap 64 x) eqn:E64; zbool.
  { rewrite <- E64. unfold std.to_chars_signed.
    replace (x <? 0) with true by (symmetry; apply Z.ltb_lt; lia).
    set (ds := std.digits base (- x)).
    destruct (last - first <? len ("-"%char :: ds)); [discriminate|].
    intros [= <- <-]. rewrite len_cons. cbn [store_list]. split.
    - intros _. rewrite store_list_outside by lia.
      unfold store. rewrite Z.eqb_refl. reflexivity.
    - intros q Hq.
      apply (cells_of_load (output_digit base)
               (store_list (store m first "-"%char) (first + 1) ds)
               (first + 1) ds);
        [apply load_store_list|apply std_digits_output; lia|lia]. }
  destruct (last - first <? 2); [discriminate|].
  intros Hrun. split.
  + intros _.
    destruct (to_chars_u128_rec_keeps_below base Hb 128 (store m first "-"%char)
                (first + 1) last (wrap 128 (- wrap 128 x))
                (Hwrap _) p errc_none m' Hrun)
      as (_ & _ & Hframe).
    rewrite Hframe by lia. unfold store. rewrite Z.eqb_refl. reflexivity.
  + apply (to_chars_u128_rec_writes_digits base Hb 128 _ (first + 1) last _
             (Hwrap _) p m' Hrun).
Qed.

(** X18: the characters that [to_chars] writes.  Whenever [to_chars]
    reports success, in a buffer of any size, every character from
    [first] to the returned pointer is a digit as [std::to_chars] writes
    it, [0-9] and lower-case [a-z], of a value below the base; for a
    negative [int128_t] the character at [first] is the minus sign and
    all the others are such digits. *)
Theorem to_chars_writes_lower_case_digits :
  (forall base x m first last p m',
      2 <= base <= 36 -> 0 <= x < 2 ^ 128 ->
      to_chars_u128 m first last x base = Some (p, errc_none, m') ->
      forall q, first <= q < p ->
                exists d, 0 <= d < base /\ m' q = std.digit_char d)
  /\ (forall base x m first last p m',
         2 <= base <= 36 -> - 2 ^ 127 <= x < 2 ^ 127 ->
         to_chars_i128 m first last x base = Some (p, errc_none, m') ->
         (x < 0 -> m' first = "-"%char)
         /\ forall q, (if x <? 0 then first + 1 else first) <= q < p ->
                      exists d, 0 <= d < base /\ m' q = std.digit_char d).
Proof.
  split.
  - intros base x m first last p m' Hb Hx Hrun.
    apply (to_chars_u128_rec_writes_digits base Hb 128 m first last x
             ltac:(lia) p m' Hrun).
  - intros base x m first last p m' Hb Hx Hrun.
    apply (to_chars_i128_writes_digits base x m first last p m' Hb Hrun).
Qed.

Lemma to_chars_writes_lower_case_digits_witness :
  let m : mem := fun _ => "#"%char in
  let m' := store_list m 0 (chars "ff") in
  2 <= 16 <= 36 /\ 0 <= 255 < 2 ^ 128
  /\ to_chars_u128 m 0 8 255 16 = Some (2, errc_none, m')
  /\ 0 <= 1 < 2
  /\ exists d, 0 <= d < 16 /\ m' 1 = std.digit_char d.
Proof.
  intros m m'.
  assert (H1 : 2 <= 16 <= 36) by lia.
  assert (H2 : 0 <= 255 < 2 ^ 128) by lia.
  assert (H3 : to_chars_u128 m 0 8 255 16 = Some (2, errc_none, m'))
    by (vm_compute; reflexivity).
  assert (H4 : 0 <= 1 < 2) by lia.
  split; [exact H1|]. split; [exact H2|]. split; [exact H3|]. split; [exact H4|].
  exact (proj1 to_chars_writes_lower_case_digits 16 255 m 0 8 2 m' H1 H2 H3 1 H4).
Defined.

(** ** The string of a value is unique *)

Lemma output_digit_eq (base : Z) (c c' : ascii) :
  base <= 36 ->
  output_digit base c -> output_digit base c' ->
  detail.digit_value c = detail.digit_value c' -> c = c'.
Proof.
  intros Hb (d & Hd & ->) (d' & Hd' & ->) Heq.
  rewrite !digit_char_value in Heq by lia. congruence.
Qed.

Lemma digits_value_injective (base : Z) :
  2 <= base <= 36 ->
  forall s t,
    List.length s = List.length t ->
    valid_digits base s -> valid_digits base t ->
    Forall (output_digit base) s -> Forall (output_digit base) t ->
    std.digits_value base s = std.digits_value base t ->
    s = t.
Proof.
  intros Hb. induction s as [|c s IH]; intros [|c' t] Hlen Hs Ht Hos Hot Hval;
    try discriminate; [reflexivity|].
  injection Hlen as Hlen.
  inversion Hs as [|? ? Hc Hs']; subst.
  inversion Ht as [|? ? Hc' Ht']; subst.
  inversion Hos as [|? ? Hoc Hos']; subst.
  inversion Hot as [|? ? Hoc' Hot']; subst.
  rewrite !digits_value_cons in Hval.
  assert (Hl : len s = len t) by (unfold len; rewrite Hlen; reflexivity).
  rewrite Hl in Hval.
  pose proof (digits_value_bounds base s ltac:(lia) Hs') as Hbs.
  pose proof (digits_value_bounds base t ltac:(lia) Ht') as Hbt.
  rewrite Hl in Hbs.
  assert (Hpos : 0 < base ^ len t)
    by (apply Z.pow_pos_nonneg; [lia|apply len_nonneg]).
  assert (Hd : detail.digit_value c = detail.digit_value c') by nia.
  assert (Hv : std.digits_value base s = std.digits_value base t) by nia.
  f_equal.
  - apply (output_digit_eq base); (assumption || lia).
  - apply IH; assumption.
Qed.

Lemma canonical_unique (base : Z) (s t : list ascii) (x : Z) :
  2 <= base <= 36 ->
  canonical base s x -> canonical base t x ->
  Forall (output_digit base) s -> Forall (output_digit base) t ->
  s = t.
Proof.
  intros Hb Hs Ht Hos Hot.
  destruct (Z.eq_dec x 0) as [->|Hx].
  { destruct Hs as (_ & _ & _ & Hs & _). destruct Ht as (_ & _ & _ & Ht & _).
    rewrite (Hs eq_refl), (Ht eq_refl). reflexivity. }
  destruct (canonical_digit_count base s x Hb Hs) as (Hs1 & Hs2 & Hs3).
  destruct (canonical_digit_count base t x Hb Ht) as (Ht1 & Ht2 & Ht3).
  specialize (Hs3 Hx). specialize (Ht3 Hx).
  assert (Hlen : len s = len t).
  { assert (len s - 1 < len t) by (apply (Z.pow_lt_mono_r_iff base); lia).
    assert (len t - 1 < len s) by (apply (Z.pow_lt_mono_r_iff base); lia).
    lia. }
  destruct Hs as (Hvs & Hvals & _). destruct Ht as (Hvt & Hvalt & _).
  apply (digits_value_injective base Hb); try assumption.
  - unfold len in Hlen. lia.
  - congruence.
Qed.

Lemma load_list_output (base : Z) (m : mem) (p : Z) (n : nat) :
  (forall q, p <= q < p + Z.of_nat n -> output_digit base (m q)) ->
  Forall (output_digit base) (load_list m p n).
Proof.
  intros H. unfold load_list. apply Forall_forall. intros c Hc.
  apply in_map_iff in Hc. destruct Hc as (i & <- & Hi). apply in_seq in Hi.
  apply H. lia.
Qed.

(** X19: [to_chars] writes the one shortest lower-case string of the
    value.  Let [t] be any string of digits [0-9a-z] below the base,
    without a leading zero (["0"] itself for zero), whose value in the
    base is [x].  Then every successful call of [to_chars] for the
    [uint128_t] [x], in a buffer of any size, wrote exactly [t]; and
    every successful call for the [int128_t] [-x], [x > 0], wrote a
    minus sign followed by [t]. *)
Theorem to_chars_unique_string :
  forall base x t,
    2 <= base <= 36 ->
    Forall (output_digit base) t -> t <> [] ->
    (x = 0 -> t = ["0"%char]) -> (x <> 0 -> hd "0"%char t <> "0"%char) ->
    std.digits_value base t = x ->
    (x < 2 ^ 128 ->
     forall m first last p m',
       to_chars_u128 m first last x base = Some (p, errc_none, m') ->
       load_list m' first (Z.to_nat (p - first)) = t)
    /\ (0 < x <= 2 ^ 127 ->
        forall m first last p m',
          to_chars_i128 m first last (- x) base = Some (p, errc_none, m') ->
          load_list m' first (Z.to_nat (p - first)) = "-"%char :: t).
Proof.
  intros base x t Hb Hot Hne Hzero Hhd Hval.
  assert (Hvt : valid_digits base t).
  { apply Forall_forall. intros c Hc. rewrite Forall_forall in Hot.
    destruct (Hot c Hc) as (d & Hd & ->). rewrite digit_char_value; lia. }
  assert (Hct : canonical base t x) by (repeat split; assumption).
  assert (Hx0 : 0 <= x)
    by (rewrite <- Hval; apply digits_value_bounds; [lia|exact Hvt]).
  split.
  - intros Hx m first last p m' Hrun.
    destruct (to_chars_u128_wrote base x Hb ltac:(lia)) as (s & Hs & Hw).
    pose proof (Hw m first last) as Hw'. rewrite Hrun in Hw'.
    apply wrote_success in Hw'. destruct Hw' as (Hp & Hload & _).
    rewrite Hload. apply (canonical_unique base s t x Hb Hs Hct); [|exact Hot].
    rewrite <- Hload. apply load_list_output. intros q Hq.
    apply (to_chars_u128_rec_writes_digits base Hb 128 m first last x Hx0 p m' Hrun).
    pose proof (len_nonneg s). lia.
  - intros Hx m first last p m' Hrun.
    destruct (to_chars_i128_wrote base (- x) Hb ltac:(lia)) as (s & Hs & Hw).
    pose proof (Hw m first last) as Hw'. rewrite Hrun in Hw'.
    apply wrote_success in Hw'. destruct Hw' as (Hp & Hload & _).
    unfold signed_canonical in Hs.
    replace (- x <? 0) with true in Hs by (symmetry; apply Z.ltb_lt; lia).
    destruct Hs as (u & -> & Hu). rewrite Z.opp_involutive in Hu.
    rewrite Hload. f_equal.
    apply (canonical_unique base u t x Hb Hu Hct); [|exact Hot].
    (* the digits after the sign, as the memory holds them *)
    assert (Hcells : forall q, first + 1 <= q < p -> output_digit base (m' q)).
    { intros q Hq.
      destruct (to_chars_i128_writes_digits base (- x) m first last p m' Hb Hrun)
        as (_ & Hd).
      apply Hd. replace (- x <? 0) with true by (symmetry; apply Z.ltb_lt; lia).
      exact Hq. }
    rewrite len_cons in Hp.
    replace (Z.to_nat (p - first)) with (S (List.length u)) in Hload
      by (unfold len in Hp; lia).
    change (S (List.length u)) with (1 + List.length u)%nat in Hload.
    rewrite load_list_app in Hload. cbn [load_list seq map app] in Hload.
    injection Hload as _ Hload. rewrite <- Hload.
    apply load_list_output. intros q Hq. apply Hcells. unfold len in Hp. lia.
Qed.

Lemma to_chars_unique_string_witness :
  let m : mem := fun _ => "#"%char in
  let m' := store_list m 0 (chars "7v") in
  2 <= 32 <= 36
  /\ Forall (output_digit 32) (chars "7v") /\ chars "7v" <> []
  /\ (255 = 0 -> chars "7v" = ["0"%char])
  /\ (255 <> 0 -> hd "0"%char (chars "7v") <> "0"%char)
  /\ std.digits_value 32 (chars "7v") = 255
  /\ 255 < 2 ^ 128
  /\ to_chars_u128 m 0 8 255 32 = Some (2, errc_none, m')
  /\ load_list m' 0 (Z.to_nat (2 - 0)) = chars "7v".
Proof.
  intros m m'.
  assert (H1 : 2 <= 32 <= 36) by lia.
  assert (H2 : Forall (output_digit 32) (chars "7v")).
  { repeat constructor; [exists 7|exists 31]; (split; [lia|reflexivity]). }
  assert (H3 : chars "7v" <> []) by discriminate.
  assert (H4 : 255 = 0 -> chars "7v" = ["0"%char]) by lia.
  assert (H5 : 255 <> 0 -> hd "0"%char (chars "7v") <> "0"%char)
    by (intros _; discriminate).
  assert (H6 : std.digits_value 32 (chars "7v") = 255) by reflexivity.
  assert (H7 : 255 < 2 ^ 128) by lia.
  assert (H8 : to_chars_u128 m 0 8 255 32 = Some (2, errc_none, m'))
    by (vm_compute; reflexivity).
  split; [exact H1|]. split; [exact H2|]. split; [exact H3|]. split; [exact H4|].
  split; [exact H5|]. split; [exact H6|]. split; [exact H7|]. split; [exact H8|].
  exact (proj1 (to_chars_unique_string 32 255 (chars "7v") H1 H2 H3 H4 H5 H6)
               H7 m 0 8 2 m' H8).
Defined.



(** ** Bit-precise integers *)

Lemma digits_w_canonical (w base n : Z) :
  2 <= base <= 36 -> 1 <= w -> 0 <= n < 2 ^ w ->
  canonical base (std.digits_w w base n) n.
Proof.
  intros Hb Hw Hn. unfold std.digits_w.
  replace (Z.to_nat w) with (S (Z.to_nat (w - 1))) by lia.
  destruct (to_digits_spec base Hb (Z.to_nat (w - 1)) n []) as (ds & Heq & Hc & _).
  - pose proof (pow2_le_base_pow base w ltac:(lia) ltac:(lia)).
    replace (Z.of_nat (S (Z.to_nat (w - 1)))) with w by lia. lia.
  - rewrite Heq, app_nil_r. exact Hc.
Qed.

Lemma std_to_chars_unsigned_w_wrote (w base x : Z) (m : mem) (first last : Z) :
  wrote last m first (std.digits_w w base x)
        (Some (std.to_chars_unsigned_w w m first last x base)).
Proof.
  unfold std.to_chars_unsigned_w. cbv zeta.
  destruct (last - first <? len (std.digits_w w base x)) eqn:Er; zbool.
  - apply wrote_fail. lia.
  - apply wrote_ok; [apply load_store_list|].
    intros q Hq. apply store_list_outside, Hq.
Qed.

Lemma std_to_chars_signed_w_wrote (w base x : Z) :
  2 <= base <= 36 -> 1 <= w -> - 2 ^ (w - 1) <= x < 2 ^ (w - 1) ->
  exists s,
    signed_canonical base s x
    /\ forall m first last,
        wrote last m first s (Some (std.to_chars_signed_w w m first last x base)).
Proof.
  intros Hb Hw Hx.
  assert (Hpow : 2 ^ w = 2 * 2 ^ (w - 1)).
  { rewrite <- Z.pow_succ_r by lia. f_equal. lia. }
  unfold signed_canonical, std.to_chars_signed_w.
  destruct (x <? 0) eqn:Eneg; zbool.
  - exists ("-"%char :: std.digits_w w base (- x)). split.
    + eexists. split; [reflexivity|]. apply digits_w_canonical; (assumption || lia).
    + intros m first last.
      destruct (last - first <? len ("-"%char :: std.digits_w w base (- x)))
        eqn:Er; zbool.
      * apply wrote_fail. lia.
      * apply wrote_ok; [apply load_store_list|].
        intros q Hq. apply store_list_outside, Hq.
  - exists (std.digits_w w base x). split.
    + apply digits_w_canonical; (assumption || lia).
    + intros m first last.
      destruct (last - first <? len (std.digits_w w base x)) eqn:Er; zbool.
      * apply wrote_fail. lia.
      * apply wrote_ok; [apply load_store_list|].
        intros q Hq. apply store_list_outside, Hq.
Qed.

Lemma pattern_run (base : Z) (s rest : list ascii) :
  valid_digits base s -> pattern_end rest base = 0 ->
  detail.pattern_length (s ++ rest) base = List.length s
  /\ firstn (List.length s) (s ++ rest) = s.
Proof.
  intros Hv Hrest. split.
  - rewrite pattern_length_app by exact Hv. unfold pattern_end in Hrest. lia.
  - rewrite firstn_app, Nat.sub_diag, firstn_all. cbn [firstn]. apply app_nil_r.
Qed.

Lemma std_from_chars_unsigned_canonical (w base : Z) (s rest : list ascii) (x v : Z) :
  canonical base s x -> x < 2 ^ w -> pattern_end rest base = 0 ->
  std.from_chars_unsigned w (s ++ rest) v base = (len s, errc_none, x).
Proof.
  intros (Hv & Hval & Hne & _) Hx Hrest. unfold std.from_chars_unsigned.
  destruct (pattern_run base s rest Hv Hrest) as (-> & Hfirst).
  destruct (List.length s) as [|k] eqn:Ek.
  { apply length_zero_iff_nil in Ek. congruence. }
  cbv zeta. rewrite Hfirst, Hval.
  replace (x <? 2 ^ w) with true by (symmetry; apply Z.ltb_lt; exact Hx).
  unfold len. rewrite Ek. reflexivity.
Qed.

Lemma std_from_chars_signed_plain (w base : Z) (c : ascii) (s : list ascii) (v : Z) :
  Ascii.eqb c "-" = false ->
  std.from_chars_signed w (c :: s) v base
  = match detail.pattern_length (c :: s) base with
    | O => (0, invalid_argument, v)
    | S k =>
        let n := detail.pattern_length (c :: s) base in
        let r := std.digits_value base (firstn n (c :: s)) in
        if r <? 2 ^ (w - 1) then (Z.of_nat n, errc_none, r)
        else (Z.of_nat n, result_out_of_range, v)
    end.
Proof.
  intros Ec. unfold std.from_chars_signed.
  destruct c as [[] [] [] [] [] [] [] []]; try reflexivity. discriminate Ec.
Qed.

Lemma std_from_chars_signed_canonical (w base : Z) (s rest : list ascii) (x v : Z) :
  signed_canonical base s x -> - 2 ^ (w - 1) <= x < 2 ^ (w - 1) ->
  pattern_end rest base = 0 ->
  std.from_chars_signed w (s ++ rest) v base = (len s, errc_none, x).
Proof.
  intros Hs Hx Hrest. unfold signed_canonical in Hs.
  destruct (x <? 0) eqn:Eneg; zbool.
  - destruct Hs as (t & -> & (Hv & Hval & Hne & _)).
    cbn [app]. unfold std.from_chars_signed.
    destruct (pattern_run base t rest Hv Hrest) as (-> & Hfirst).
    destruct (List.length t) as [|k] eqn:Ek.
    { apply length_zero_iff_nil in Ek. congruence. }
    cbv zeta. rewrite Hfirst, Hval, Z.opp_involutive.
    replace (- 2 ^ (w - 1) <=? x) with true by (symmetry; apply Z.leb_le; lia).
    rewrite len_cons. unfold len. rewrite Ek. do 2 f_equal. lia.
  - pose proof Hs as (Hv & Hval & Hne & _).
    destruct s as [|c s]; [congruence|].
    change ((c :: s) ++ rest) with (c :: (s ++ rest)).
    rewrite std_from_chars_signed_plain by apply (digit_not_minus base c s Hv).
    change (c :: (s ++ rest)) with ((c :: s) ++ rest).
    destruct (pattern_run base (c :: s) rest Hv Hrest) as (-> & Hfirst).
    cbv zeta. rewrite Hfirst, Hval.
    replace (x <? 2 ^ (w - 1)) with true by (symmetry; apply Z.ltb_lt; lia).
    reflexivity.
Qed.

Lemma least_bits_range (N : Z) :
  1 <= N <= 128 -> N <= bitint.least_bits N /\ 8 <= bitint.least_bits N <= 128.
Proof.
  intros HN. unfold bitint.least_bits.
  repeat match goal with
         | |- context [?a <=? ?b] => destruct (a <=? b) eqn:?; zbool
         end; lia.
Qed.

Lemma pow2_le_carrier (N w : Z) :
  1 <= N <= w -> 2 ^ (N - 1) <= 2 ^ (w - 1) /\ 2 ^ N <= 2 ^ w.
Proof. intros H. split; apply Z.pow_le_mono_r; lia. Qed.

(** X20: round trip of the bit-precise integers.  For every width
    [1 <= N <= 128], every base and every value [x] of [bit_int<N>]
    (respectively [bit_uint<N>]) there is a string [s] such that
    [to_chars] writes [s] in every buffer that has room for it, and
    [from_chars] for the same type, on [s] or on a span that goes on
    after [s] with a character that is no digit, returns the end of
    [s] and [errc {}] and stores [x]. *)
Theorem bit_precise_round_trip :
  forall N base x,
    1 <= N <= 128 -> 2 <= base <= 36 ->
    (- 2 ^ (N - 1) <= x < 2 ^ (N - 1) ->
     exists s,
       (forall m first last,
           len s <= last - first ->
           exists m',
             bitint.to_chars_bit_int N m first last x base
             = (first + len s, errc_none, m')
             /\ load_list m' first (List.length s) = s)
       /\ (forall rest out,
              pattern_end rest base = 0 ->
              bitint.from_chars_bit_int N (s ++ rest) out base
              = (len s, errc_none, x)))
    /\ (0 <= x < 2 ^ N ->
        exists s,
          (forall m first last,
              len s <= last - first ->
              exists m',
                bitint.to_chars_bit_uint N m first last x base
                = (first + len s, errc_none, m')
                /\ load_list m' first (List.length s) = s)
          /\ (forall rest out,
                 pattern_end rest base = 0 ->
                 bitint.from_chars_bit_uint N (s ++ rest) out base
                 = (len s, errc_none, x))).
Proof.
  intros N base x HN Hb.
  destruct (least_bits_range N HN) as (Hle & Hw).
  set (w := bitint.least_bits N) in *.
  destruct (pow2_le_carrier N w ltac:(lia)) as (Hp1 & Hp2).
  split; intros Hx.
  - (* signed *)
    assert (Hconv : swrap w x = x) by (apply swrap_id; lia).
    assert (Hnarrow : swrap N x = x) by (apply swrap_id; lia).
    destruct (std_to_chars_signed_w_wrote w base x Hb ltac:(lia) ltac:(lia))
      as (s & Hs & Hwrote).
    exists s. split.
    + intros m first last Hroom.
      unfold bitint.to_chars_bit_int, bitint.carrier_to_chars_signed. fold w.
      rewrite Hconv.
      destruct (wrote_room last m first s _ (Hwrote m first last) Hroom)
        as (m' & Heq & Hload).
      exists m'. split; [congruence|exact Hload].
    + intros rest out Hrest.
      unfold bitint.from_chars_bit_int, bitint.carrier_from_chars_signed. fold w.
      rewrite (std_from_chars_signed_canonical w base s rest x 0 Hs ltac:(lia) Hrest).
      rewrite Hnarrow, Z.eqb_refl. reflexivity.
  - (* unsigned *)
    assert (Hconv : wrap w x = x) by (apply wrap_small; lia).
    assert (Hnarrow : wrap N x = x) by (apply wrap_small; lia).
    pose proof (digits_w_canonical w base x Hb ltac:(lia) ltac:(lia)) as Hs.
    exists (std.digits_w w base x). split.
    + intros m first last Hroom.
      unfold bitint.to_chars_bit_uint, bitint.carrier_to_chars_unsigned. fold w.
      rewrite Hconv.
      destruct (wrote_room last m first _ _
                  (std_to_chars_unsigned_w_wrote w base x m first last) Hroom)
        as (m' & Heq & Hload).
      exists m'. split; [congruence|exact Hload].
    + intros rest out Hrest.
      unfold bitint.from_chars_bit_uint, bitint.carrier_from_chars_unsigned. fold w.
      rewrite (std_from_chars_unsigned_canonical w base _ rest x 0 Hs ltac:(lia) Hrest).
      rewrite Hnarrow, Z.eqb_refl. reflexivity.
Qed.

Lemma bit_precise_round_trip_witness :
  1 <= 100 <= 128 /\ 2 <= 16 <= 36 /\ - 2 ^ (100 - 1) <= - 2 ^ 80 < 2 ^ (100 - 1)
  /\ exists s,
      (forall m first last,
          len s <= last - first ->
          exists m',
            bitint.to_chars_bit_int 100 m first last (- 2 ^ 80) 16
            = (first + len s, errc_none, m')
            /\ load_list m' first (List.length s) = s)
      /\ (forall rest out,
             pattern_end rest 16 = 0 ->
             bitint.from_chars_bit_int 100 (s ++ rest) out 16
             = (len s, errc_none, - 2 ^ 80)).
Proof.
  assert (H1 : 1 <= 100 <= 128) by lia.
  assert (H2 : 2 <= 16 <= 36) by lia.
  assert (H3 : - 2 ^ (100 - 1) <= - 2 ^ 80 < 2 ^ (100 - 1)) by (cbn; lia).
  split; [exact H1|]. split; [exact H2|]. split; [exact H3|].
  exact (proj1 (bit_precise_round_trip 100 16 (- 2 ^ 80) H1 H2) H3).
Defined.

Lemma std_from_chars_signed_failure_value (w base : Z) (s : list ascii)
      (p v : Z) (ec : errc) :
  std.from_chars_signed w s 0 base = (p, ec, v) -> ec <> errc_none -> v = 0.
Proof.
  intros Hrun Hec. destruct s as [|c s].
  - cbn in Hrun. congruence.
  - destruct (Ascii.eqb c "-") eqn:Ec.
    + apply Ascii.eqb_eq in Ec. subst c. unfold std.from_chars_signed in Hrun.
      destruct (detail.pattern_length s base); [congruence|].
      cbv zeta in Hrun. destruct (_ <=? _); congruence.
    + rewrite (std_from_chars_signed_plain w base c s 0 Ec) in Hrun.
      destruct (detail.pattern_length (c :: s) base); [congruence|].
      cbv zeta in Hrun. destruct (_ <? _); congruence.
Qed.

Lemma std_from_chars_unsigned_failure_value (w base : Z) (s : list ascii)
      (p v : Z) (ec : errc) :
  std.from_chars_unsigned w s 0 base = (p, ec, v) -> ec <> errc_none -> v = 0.
Proof.
  unfold std.from_chars_unsigned. intros Hrun Hec.
  destruct (detail.pattern_length s base); [congruence|].
  cbv zeta in Hrun. destruct (_ <? _); congruence.
Qed.

(** X21: [from_chars] for the bit-precise integers always assigns [x].
    For every width [1 <= N <= 128], every base and every span: when
    the parse of the carrier fails, with [invalid_argument] or
    [result_out_of_range], [from_chars] for [bit_int<N>] and for
    [bit_uint<N>] returns the pointer and the error of the carrier and
    has stored 0 in [x], whatever [x] held before. *)
Theorem from_chars_bit_precise_failure :
  forall N s x base,
    1 <= N <= 128 ->
    (exists p ec v,
        bitint.carrier_from_chars_signed (bitint.least_bits N) s 0 base
        = (p, ec, v)
        /\ (ec <> errc_none ->
            bitint.from_chars_bit_int N s x base = (p, ec, 0)))
    /\ (exists p ec v,
           bitint.carrier_from_chars_unsigned (bitint.least_bits N) s 0 base
           = (p, ec, v)
           /\ (ec <> errc_none ->
               bitint.from_chars_bit_uint N s x base = (p, ec, 0))).
Proof.
  intros N s x base HN. split.
  - destruct (bitint.carrier_from_chars_signed (bitint.least_bits N) s 0 base)
      as [[p ec] v] eqn:Hrun.
    exists p, ec, v. split; [reflexivity|]. intros Hec.
    assert (Hv : v = 0)
      by (apply (std_from_chars_signed_failure_value _ base s p v ec Hrun Hec)).
    assert (Hs0 : swrap N 0 = 0).
    { assert (0 < 2 ^ (N - 1)) by (apply Z.pow_pos_nonneg; lia).
      apply swrap_id; lia. }
    unfold bitint.from_chars_bit_int. rewrite Hrun, Hv, Hs0.
    destruct ec; try congruence; reflexivity.
  - destruct (bitint.carrier_from_chars_unsigned (bitint.least_bits N) s 0 base)
      as [[p ec] v] eqn:Hrun.
    exists p, ec, v. split; [reflexivity|]. intros Hec.
    assert (Hv : v = 0)
      by (apply (std_from_chars_unsigned_failure_value _ base s p v ec Hrun Hec)).
    unfold bitint.from_chars_bit_uint. rewrite Hrun, Hv.
    change (wrap N 0) with 0.
    destruct ec; try congruence; reflexivity.
Qed.

Lemma from_chars_bit_precise_failure_witness :
  1 <= 12 <= 128
  /\ exists p ec v,
      bitint.carrier_from_chars_signed (bitint.least_bits 12) (chars "99999") 0 10
      = (p, ec, v)
      /\ (ec <> errc_none ->
          bitint.from_chars_bit_int 12 (chars "99999") 41 10 = (p, ec, 0)).
Proof.
  assert (H1 : 1 <= 12 <= 128) by lia.
  split; [exact H1|].
  exact (proj1 (from_chars_bit_precise_failure 12 (chars "99999") 41 10 H1)).
Defined.

(** ** The fuzz test of [test.cpp] *)

Lemma terminated_buffer (m : mem) (s : list ascii) :
  len s < 1024 ->
  load_list m 0 (List.length s) = s ->
  exists rest,
    load_list (store m (0 + len s) "000"%char) 0 1024 = s ++ rest
    /\ forall base, 2 <= base -> pattern_end rest base = 0.
Proof.
  intros Hlen Hload.
  set (m' := store m (0 + len s) "000"%char).
  replace 1024%nat with (List.length s + S (1023 - List.length s))%nat
    by (unfold len in Hlen; lia).
  rewrite load_list_app.
  exists (load_list m' (0 + Z.of_nat (List.length s)) (S (1023 - List.length s))).
  split.
  - f_equal. rewrite <- Hload at 2. apply load_list_ext.
    intros q Hq. unfold m', store, len.
    destruct (q =? 0 + Z.of_nat (List.length s)) eqn:E; zbool; [lia|reflexivity].
  - intros base Hb. unfold load_list. cbn [seq map].
    rewrite Z.add_0_r. unfold m' at 1, store, len. rewrite Z.eqb_refl.
    unfold pattern_end. cbn [detail.pattern_length].
    change (detail.digit_value "000") with (-1). reflexivity.
Qed.

Lemma fuzz_round_trip_u128 (buffer : mem) (x parsed base : Z) :
  2 <= base <= 36 -> 0 <= x < 2 ^ 128 ->
  exists buffer',
    tests.fuzz_round_trip to_chars_u128 from_chars_u128 buffer x parsed base
    = tests.passed buffer'.
Proof.
  intros Hb Hx. unfold tests.fuzz_round_trip.
  destruct (to_chars_u128_wrote base x Hb Hx) as (s & Hs & Hw).
  pose proof (canonical_len_128 base s x Hb Hs ltac:(lia)) as Hlen.
  destruct (wrote_room 1024 buffer 0 s _ (Hw buffer 0 1024) ltac:(lia))
    as (m1 & -> & Hload).
  cbn [errc_eqb negb].
  destruct (terminated_buffer m1 s ltac:(lia) Hload) as (rest & -> & Hrest).
  rewrite (from_chars_u128_canonical base s rest x parsed Hb Hs ltac:(lia)
             (Hrest base ltac:(lia))).
  cbn [errc_eqb negb]. rewrite Z.add_0_l, !Z.eqb_refl. cbn [negb]. eauto.
Qed.

Lemma fuzz_round_trip_i128 (buffer : mem) (x parsed base : Z) :
  2 <= base <= 36 -> - 2 ^ 127 <= x < 2 ^ 127 ->
  exists buffer',
    tests.fuzz_round_trip to_chars_i128 from_chars_i128 buffer x parsed base
    = tests.passed buffer'.
Proof.
  intros Hb Hx. unfold tests.fuzz_round_trip.
  destruct (to_chars_i128_wrote base x Hb Hx) as (s & Hs & Hw).
  pose proof (signed_canonical_len base s x Hb Hs Hx) as Hlen.
  destruct (wrote_room 1024 buffer 0 s _ (Hw buffer 0 1024) ltac:(lia))
    as (m1 & -> & Hload).
  cbn [errc_eqb negb].
  destruct (terminated_buffer m1 s ltac:(lia) Hload) as (rest & -> & Hrest).
  rewrite (from_chars_i128_canonical base s rest x parsed Hb Hs Hx
             (Hrest base ltac:(lia))).
  cbn [errc_eqb negb]. rewrite Z.add_0_l, !Z.eqb_refl. cbn [negb]. eauto.
Qed.

Lemma fuzz_iteration_passes (buffer : mem) (parsed_u parsed_i base lo hi : Z) :
  2 <= base <= 36 -> 0 <= lo < 2 ^ 64 -> 0 <= hi < 2 ^ 64 ->
  exists buffer',
    tests.fuzz_iteration buffer parsed_u parsed_i base lo hi = tests.passed buffer'.
Proof.
  intros Hb Hlo Hhi. unfold tests.fuzz_iteration. cbv zeta.
  set (u128 := Z.lor (wrap 128 (Z.shiftl hi 64)) lo).
  assert (Hu : 0 <= u128 < 2 ^ 128).
  { apply lor_range; [lia| |lia]. apply Z.mod_pos_bound. lia. }
  destruct (fuzz_round_trip_u128 buffer u128 parsed_u base Hb Hu) as (b1 & ->).
  apply fuzz_round_trip_i128; [exact Hb|].
  pose proof (swrap_range 128 u128 ltac:(lia)) as Hr.
  change (2 ^ (128 - 1)) with (2 ^ 127) in Hr. exact Hr.
Qed.

(** X22: the fuzz test cannot fail.  Whatever numbers the random
    generator gives, in the ranges of the distributions of the test
    (a base from 2 to 36, two 64-bit halves), whatever the buffer holds
    before, and for any number of iterations: every assertion of
    [run_fuzz_tests] holds, for the unsigned value made of the two
    halves and for the same bits read as an [int128_t]. *)
Theorem run_fuzz_tests_passes :
  forall draws buffer parsed_u parsed_i,
    Forall (fun draw : Z * Z * Z =>
              let '(base, lo, hi) := draw in
              2 <= base <= 36 /\ 0 <= lo < 2 ^ 64 /\ 0 <= hi < 2 ^ 64) draws ->
    exists buffer',
      tests.run_fuzz_tests draws buffer parsed_u parsed_i = tests.passed buffer'.
Proof.
  intros draws buffer parsed_u parsed_i Hdraws. revert buffer.
  induction Hdraws as [|[[base lo] hi] draws (Hb & Hlo & Hhi) _ IH]; intros buffer.
  - exists buffer. reflexivity.
  - cbn [tests.run_fuzz_tests].
    destruct (fuzz_iteration_passes buffer parsed_u parsed_i base lo hi Hb Hlo Hhi)
      as (b1 & ->).
    apply IH.
Qed.

Lemma run_fuzz_tests_passes_witness :
  let draws := [(10, 12345, 67890); (16, 2 ^ 64 - 1, 2 ^ 64 - 1); (7, 0, 2 ^ 63)] in
  Forall (fun draw : Z * Z * Z =>
            let '(base, lo, hi) := draw in
            2 <= base <= 36 /\ 0 <= lo < 2 ^ 64 /\ 0 <= hi < 2 ^ 64) draws
  /\ exists buffer',
      tests.run_fuzz_tests draws (fun _ => "#"%char) 0 0 = tests.passed buffer'.
Proof.
  intros draws.
  assert (H : Forall (fun draw : Z * Z * Z =>
                        let '(base, lo, hi) := draw in
                        2 <= base <= 36 /\ 0 <= lo < 2 ^ 64 /\ 0 <= hi < 2 ^ 64)
                     draws)
    by (repeat constructor; lia).
  split; [exact H|].
  exact (run_fuzz_tests_passes draws (fun _ => "#"%char) 0 0 H).
Defined.
